(** * dnd-engine: the combat / spell / item / dialogue resolution core

    A shallow embedding of the server side of the engine
    ([src/server/models/index.js], [controllers/index.js],
    [controllers/combat.js], [controllers/spells.js],
    [controllers/items.js], [controllers/monster.js],
    [controllers/dialogue.js]) together with the properties stated about
    it.

    Conventions of the embedding.

    - JavaScript numbers that the engine computes with are integers and
      are modelled by [Z].  The one place where the engine itself
      produces a non-integer is [undefined - n], which is [NaN]; the
      Character's [hp] property is therefore a [jsval].
    - [Math.random()] is an oracle.  The k-th call returns the rational
      [u / 2^53] where [u] is the k-th entry of the world's [draws];
      products with the number of sides are taken exactly.
    - [Date.now()] is read from the world ([now]).
    - JavaScript objects held by the registry are records, JavaScript
      [Map]s and the rule tables are [gmap]s keyed by strings; a mutation
      of an object reachable from the registry is a write-back into the
      registry.  Iteration order of [Map]s is not modelled.  The object
      graph itself (references, aliasing) is modelled separately in
      [Module Heap], for [exportCharacter].
    - A thrown exception is the [Throw] outcome; the world it leaves
      behind is kept, because side effects performed before a [throw]
      persist. *)

From Stdlib Require Import ZArith Lia Ascii.
From stdpp Require Import gmap strings list fin_maps pretty.
From Equations Require Import Equations.

Local Open Scope Z_scope.

(** ** JavaScript scalars *)

(** The values a Character's [hp] property takes. *)
Inductive jsval : Type :=
| Undefined
| Null
| Number (z : Z)
| NaN.

(** [typeof v === 'number'] *)
Definition typeof_number (v : jsval) : bool :=
  match v with
  | Number _ | NaN => true
  | Undefined | Null => false
  end.

(** Truthiness of [v] as used by [v || 0]. *)
Definition truthy (v : jsval) : bool :=
  match v with
  | Number z => negb (z =? 0)
  | Undefined | Null | NaN => false
  end.

(** ToNumber. *)
Definition to_number (v : jsval) : jsval :=
  match v with
  | Undefined => NaN
  | Null => Number 0
  | Number z => Number z
  | NaN => NaN
  end.

(** [v - d] for an integer [d]. *)
Definition js_sub (v : jsval) (d : Z) : jsval :=
  match to_number v with
  | Number z => Number (z - d)
  | _ => NaN
  end.

(** [(v || 0) + h] for an integer [h]. *)
Definition js_or0_add (v : jsval) (h : Z) : jsval :=
  match v with
  | Number z => Number ((if z =? 0 then 0 else z) + h)
  | Undefined | Null | NaN => Number (0 + h)
  end.

(** [v <= 0] *)
Definition js_le0 (v : jsval) : bool :=
  match to_number v with
  | Number z => z <=? 0
  | _ => false
  end.

(** Template-literal rendering [`${v}`]. *)
Definition show_jsval (v : jsval) : string :=
  match v with
  | Undefined => "undefined"
  | Null => "null"
  | Number z => pretty z
  | NaN => "NaN"
  end.

(** What [JSON.parse(JSON.stringify(...))] makes of a property value:
    [undefined] properties are dropped, [NaN] is written as [null]. *)
Definition json_jsval (v : jsval) : jsval :=
  match v with
  | Undefined => Undefined
  | Null => Null
  | Number z => Number z
  | NaN => Null
  end.

(** [s || d] on an optional string: the empty string is falsy. *)
Definition str_or (s : option string) (d : string) : string :=
  match s with
  | Some (String c r) => String c r
  | Some EmptyString | None => d
  end.

(** [`${s}`] for a possibly absent string property. *)
Definition show_str (s : option string) : string :=
  match s with
  | Some x => x
  | None => "undefined"
  end.

(** [n || d] on an optional number: [0] is falsy. *)
Definition num_or (n : option Z) (d : Z) : Z :=
  match n with
  | Some z => if z =? 0 then d else z
  | None => d
  end.

(** [String.prototype.toLowerCase], on the ASCII letters. *)
Definition lower_ascii (c : ascii) : ascii :=
  let n := N_of_ascii c in
  if ((65 <=? n) && (n <=? 90))%N then ascii_of_N (n + 32) else c.

Fixpoint toLowerCase (s : string) : string :=
  match s with
  | EmptyString => EmptyString
  | String c r => String (lower_ascii c) (toLowerCase r)
  end.

(** ** Dice *)

Definition two53 : Z := 2 ^ 53.

(** [rollDie(sides)]: [Math.floor(Math.random() * sides) + 1] where
    [Math.random()] returned [u / 2^53]. *)
Definition rollDie_of (sides : Z) (u : Z) : Z := (u * sides) / two53 + 1.

(** *** The dice-notation regular expressions

    [/(\d+)d(\d+)(\+(\d+))?/] and [/(\d+)d(\d+)/], as used with
    [String.prototype.match]: the leftmost position at which the pattern
    matches, every [\d+] as long as possible. *)

Definition is_digit (c : ascii) : bool :=
  let n := N_of_ascii c in ((48 <=? n) && (n <=? 57))%N.

(** The longest run of decimal digits at the head of [s], with the rest. *)
Fixpoint span_digits (s : string) : list ascii * string :=
  match s with
  | EmptyString => ([], EmptyString)
  | String c r =>
      if is_digit c then let '(ds, rest) := span_digits r in (c :: ds, rest)
      else ([], s)
  end.

(** [parseInt(ds, 10)] on a non-empty run of decimal digits. *)
Definition parseInt (ds : list ascii) : Z :=
  fold_left (λ acc c, acc * 10 + (Z.of_N (N_of_ascii c) - 48)) ds 0.

(** The capture groups of a match: [match[1]], [match[2]] and, for the
    first pattern, [match[4]]. *)
Record dice_match := {
  count_str : list ascii;
  sides_str : list ascii;
  bonus_str : option (list ascii);
}.

(** The optional group [(\+(\d+))?] tried at [s]. *)
Definition match_bonus (s : string) : option (list ascii) :=
  match s with
  | String "+"%char r =>
      match span_digits r with
      | ([], _) => None
      | (ds, _) => Some ds
      end
  | _ => None
  end.

(** The pattern anchored at the head of [s]; [with_bonus] selects the
    first pattern. *)
Definition match_here (with_bonus : bool) (s : string) : option dice_match :=
  match span_digits s with
  | ([], _) => None
  | (cs, String "d"%char r) =>
      match span_digits r with
      | ([], _) => None
      | (ss, rest) =>
          Some {| count_str := cs; sides_str := ss;
                  bonus_str := if with_bonus then match_bonus rest else None |}
      end
  | _ => None
  end.

(** [s.match(re)]: try every start position from the left. *)
Fixpoint regex_match (with_bonus : bool) (s : string) : option dice_match :=
  match match_here with_bonus s with
  | Some m => Some m
  | None =>
      match s with
      | EmptyString => None
      | String _ r => regex_match with_bonus r
      end
  end.

(** A match of the pattern with the bonus group, seen through the
    pattern without it. *)
Definition without_bonus (m : dice_match) : dice_match :=
  {| count_str := count_str m; sides_str := sides_str m; bonus_str := None |}.

(** *** Decimal numerals *)

(** The number a run of decimal digits stands for, read from the left
    onto [acc]. *)
Definition digits_value (s : string) (acc : Z) : Z :=
  fold_left (λ acc c, acc * 10 + (Z.of_N (N_of_ascii c) - 48))
    (String.list_ascii_of_string s) acc.

Definition all_digits (s : string) : Prop :=
  Forall (λ c, is_digit c = true) (String.list_ascii_of_string s).

(** The notation [<count>d<sides>] or [<count>d<sides>+<bonus>]
    written out from natural numbers. *)
Definition notation_of (count sides : N) (bonus : option N) : string :=
  pretty count +:+ "d" +:+ pretty sides
  +:+ match bonus with
      | Some b => "+" +:+ pretty b
      | None => ""
      end.

(** ** Data model *)

Module Character.
(** The Character object.  Every property may be absent; [hp] is
    [Undefined] when absent. *)
Record t := {
  name : option string;
  race : option string;
  class : option string;
  hp : jsval;
  ac : option Z;
  abilityScores : option (gmap string Z);
  savingThrows : option (gmap string Z);
  experience : option Z;
  level : option Z;
  inventory : option (list string);
  status : option string;
}.

(** The object literal [{}]. *)
Definition empty : t :=
  {| name := None; race := None; class := None; hp := Undefined; ac := None;
     abilityScores := None; savingThrows := None; experience := None;
     level := None; inventory := None; status := None |}.

Definition set_hp (v : jsval) (c : t) : t :=
  {| name := name c; race := race c; class := class c; hp := v; ac := ac c;
     abilityScores := abilityScores c; savingThrows := savingThrows c;
     experience := experience c; level := level c;
     inventory := inventory c; status := status c |}.

Definition set_ac (v : option Z) (c : t) : t :=
  {| name := name c; race := race c; class := class c; hp := hp c; ac := v;
     abilityScores := abilityScores c; savingThrows := savingThrows c;
     experience := experience c; level := level c;
     inventory := inventory c; status := status c |}.

Definition set_abilityScores (v : option (gmap string Z)) (c : t) : t :=
  {| name := name c; race := race c; class := class c; hp := hp c; ac := ac c;
     abilityScores := v; savingThrows := savingThrows c;
     experience := experience c; level := level c;
     inventory := inventory c; status := status c |}.

Definition set_savingThrows (v : option (gmap string Z)) (c : t) : t :=
  {| name := name c; race := race c; class := class c; hp := hp c; ac := ac c;
     abilityScores := abilityScores c; savingThrows := v;
     experience := experience c; level := level c;
     inventory := inventory c; status := status c |}.

Definition set_experience (v : option Z) (c : t) : t :=
  {| name := name c; race := race c; class := class c; hp := hp c; ac := ac c;
     abilityScores := abilityScores c; savingThrows := savingThrows c;
     experience := v; level := level c;
     inventory := inventory c; status := status c |}.

Definition set_level (v : option Z) (c : t) : t :=
  {| name := name c; race := race c; class := class c; hp := hp c; ac := ac c;
     abilityScores := abilityScores c; savingThrows := savingThrows c;
     experience := experience c; level := v;
     inventory := inventory c; status := status c |}.

Definition set_inventory (v : option (list string)) (c : t) : t :=
  {| name := name c; race := race c; class := class c; hp := hp c; ac := ac c;
     abilityScores := abilityScores c; savingThrows := savingThrows c;
     experience := experience c; level := level c;
     inventory := v; status := status c |}.

Definition set_status (v : option string) (c : t) : t :=
  {| name := name c; race := race c; class := class c; hp := hp c; ac := ac c;
     abilityScores := abilityScores c; savingThrows := savingThrows c;
     experience := experience c; level := level c;
     inventory := inventory c; status := v |}.

(** One property of the spread [{...old, ...new}]. *)
Definition over {A} (new old : option A) : option A :=
  match new with
  | Some x => Some x
  | None => old
  end.

(** [{ ...old, ...new }] *)
Definition spread (old new : t) : t :=
  {| name := over (name new) (name old);
     race := over (race new) (race old);
     class := over (class new) (class old);
     hp := match hp new with Undefined => hp old | v => v end;
     ac := over (ac new) (ac old);
     abilityScores := over (abilityScores new) (abilityScores old);
     savingThrows := over (savingThrows new) (savingThrows old);
     experience := over (experience new) (experience old);
     level := over (level new) (level old);
     inventory := over (inventory new) (inventory old);
     status := over (status new) (status old) |}.

(** [JSON.parse(JSON.stringify(c))] on the Character's content. *)
Definition json_roundtrip (c : t) : t := set_hp (json_jsval (hp c)) c.
End Character.

Module Player.
Record t := {
  id : string;
  name : string;
  character : option Character.t;
}.

Definition set_character (c : option Character.t) (p : t) : t :=
  {| id := id p; name := name p; character := c |}.
End Player.

Module Monster.
Record t := {
  instanceId : string;
  type : string;
  hp : Z;
  ac : Z;
  status : string;
}.

Definition set_hp (v : Z) (m : t) : t :=
  {| instanceId := instanceId m; type := type m; hp := v; ac := ac m;
     status := status m |}.

Definition set_status (v : string) (m : t) : t :=
  {| instanceId := instanceId m; type := type m; hp := hp m; ac := ac m;
     status := v |}.
End Monster.

Module Campaign.
Record t := {
  id : string;
  name : string;
  description : string;
}.
End Campaign.

Module Game.
Record t := {
  id : string;
  players : gmap string Player.t;
  log : list string;
  campaign : option Campaign.t;
  monsters : gmap string Monster.t;
}.

Definition set_players (v : gmap string Player.t) (g : t) : t :=
  {| id := id g; players := v; log := log g; campaign := campaign g;
     monsters := monsters g |}.

Definition set_log (v : list string) (g : t) : t :=
  {| id := id g; players := players g; log := v; campaign := campaign g;
     monsters := monsters g |}.

Definition set_campaign (v : option Campaign.t) (g : t) : t :=
  {| id := id g; players := players g; log := log g; campaign := v;
     monsters := monsters g |}.

Definition set_monsters (v : gmap string Monster.t) (g : t) : t :=
  {| id := id g; players := players g; log := log g; campaign := campaign g;
     monsters := v |}.
End Game.

(** ** Rule and content tables (read-only collaborators) *)

Module ClassRule.
Record t := {
  hitDie : option Z;
  savingThrows : option (gmap string Z);
}.
End ClassRule.

Module Spell.
Record effect := {
  heal : option string;
  damage : option string;
}.
Record t := {
  name : string;
  eff : option effect;
}.
End Spell.

Module MonsterRule.
Record attack := { damage : option string }.
Record t := {
  hitPoints : option Z;
  hitDice : option Z;
  armorClass : option Z;
  attacks : option (list attack);
}.
End MonsterRule.

Module Item.
Record effect := {
  heal : option string;
  acBonus : option Z;
}.
Record t := {
  name : string;
  eff : option effect;
}.
End Item.

Module Dialogue.
Record reward := {
  xp : option Z;
  items : option (list string);
}.
Record option_ := {
  text : string;
  next : option string;
  rew : option reward;
}.
Record node := {
  node_text : string;
  options : option (list option_);
}.
Record conversation := {
  id : string;
  name : string;
  start : string;
  nodes : gmap string node;
}.
Record file := {
  file_id : string;
  campaignId : string;
  dialogues : option (list conversation);
}.
End Dialogue.

(** The tables the engine was started with: [rules/*.json] (spells in
    the enumeration order of [Object.values], by class and then by
    level), the campaign files and the dialogue files. *)
Record tables := {
  classRules : gmap string ClassRule.t;
  spellRules : list (string * list (string * list Spell.t));
  monsterRules : gmap string MonsterRule.t;
  itemRules : gmap string Item.t;
  campaignFiles : gmap string Campaign.t;
  dialogueFiles : gmap string Dialogue.file;
}.

(** ** Worlds and the engine monad *)

(** The registry ([const games = new Map()]) and the environment the
    engine reads: the results of successive [Math.random()] calls, how
    many have been consumed, and the clock. *)
Record world := {
  games : gmap string Game.t;
  draws : nat → Z;
  drawn : nat;
  now : Z;
}.

Definition set_games (v : gmap string Game.t) (w : world) : world :=
  {| games := v; draws := draws w; drawn := drawn w; now := now w |}.

Inductive exn : Type :=
| Error (message : string)
| TypeError (message : string).

Inductive outcome (A : Type) : Type :=
| Ok (a : A)
| Throw (e : exn).
Arguments Ok {A} a.
Arguments Throw {A} e.

Definition M (A : Type) : Type := world → outcome A * world.

Global Instance M_ret : MRet M := λ A a w, (Ok a, w).
Global Instance M_bind : MBind M := λ A B f m w,
  match m w with
  | (Ok a, w') => f a w'
  | (Throw e, w') => (Throw e, w')
  end.

Definition throw {A} (e : exn) : M A := λ w, (Throw e, w).
Definition get_games : M (gmap string Game.t) := λ w, (Ok (games w), w).
Definition put_games (v : gmap string Game.t) : M unit := λ w, (Ok tt, set_games v w).

(** [Math.random()], as the numerator of the draw. *)
Definition Math_random : M Z := λ w,
  (Ok (draws w (drawn w)),
   {| games := games w; draws := draws w; drawn := S (drawn w); now := now w |}).

(** [Date.now()] *)
Definition Date_now : M Z := λ w, (Ok (now w), w).

(** [rollDie(sides)] *)
Definition rollDie (sides : Z) : M Z :=
  u ← Math_random; mret (rollDie_of sides u).

(** [for (let i = 0; i < count; i++) total += rollDie(sides)] *)
Fixpoint roll_loop (count : nat) (sides : Z) (total : Z) : M Z :=
  match count with
  | O => mret total
  | S n => r ← rollDie sides; roll_loop n sides (total + r)
  end.

(** ** The registry: [src/server/models/index.js] *)

Definition new_game (id : string) : Game.t :=
  {| Game.id := id; Game.players := ∅; Game.log := []; Game.campaign := None;
     Game.monsters := ∅ |}.

Definition createGame (id : string) : M Game.t :=
  gs ← get_games;
  match gs !! id with
  | Some game => mret game
  | None =>
      let game := new_game id in
      put_games (<[id := game]> gs);; mret game
  end.

Definition getGame (id : string) : M (option Game.t) :=
  gs ← get_games; mret (gs !! id).

(** In-place mutation of the game object registered under [gameId]. *)
Definition modify_game (gameId : string) (f : Game.t → Game.t) : M unit :=
  gs ← get_games; put_games (alter f gameId gs).

(** [game.players.set(playerId, player)] *)
Definition store_player (gameId playerId : string) (player : Player.t) : M unit :=
  modify_game gameId
    (λ game, Game.set_players (<[playerId := player]> (Game.players game)) game).

(** In-place mutation of the Character of the player object registered
    under [playerId]: [player.character] becomes [f player.character]. *)
Definition mutate_character (gameId playerId : string)
    (f : option Character.t → option Character.t) : M unit :=
  modify_game gameId
    (λ game,
       Game.set_players
         (alter (λ player, Player.set_character (f (Player.character player)) player)
            playerId (Game.players game)) game).

(** [game.monsters.set(instanceId, monster)], and in-place mutation of
    a monster object. *)
Definition store_monster (gameId instanceId : string) (monster : Monster.t) : M unit :=
  modify_game gameId
    (λ game, Game.set_monsters (<[instanceId := monster]> (Game.monsters game)) game).

(** The damage block of [attackMonster] and [castSpell] on the monster
    object registered under [instanceId]:
[[
  monster.hp -= damage;
  if (monster.hp <= 0) {
    monster.status = 'dead';
    game.monsters.delete(instanceId);
  }
]] *)
Definition smite (damage : Z) (instanceId : string)
    (monsters : gmap string Monster.t) : gmap string Monster.t :=
  match monsters !! instanceId with
  | Some monster =>
      if Monster.hp monster - damage <=? 0 then delete instanceId monsters
      else <[instanceId := Monster.set_hp (Monster.hp monster - damage) monster]>
             monsters
  | None => monsters
  end.

Definition strike_monster (gameId instanceId : string) (damage : Z) : M unit :=
  modify_game gameId
    (λ game, Game.set_monsters (smite damage instanceId (Game.monsters game)) game).

Definition addPlayer (gameId playerId playerName : string) : M Player.t :=
  game ← createGame gameId;
  match Game.players game !! playerId with
  | Some player => mret player
  | None =>
      let player :=
        {| Player.id := playerId; Player.name := playerName;
           Player.character := None |} in
      store_player gameId playerId player;; mret player
  end.

Definition appendLog (gameId message : string) : M unit :=
  game ← createGame gameId;
  modify_game gameId (λ game, Game.set_log (Game.log game ++ [message]) game).

Module models.
(** [hp: monsterStats.hitPoints || (monsterStats.hitDice || 1) * 4] *)
Definition spawn_hp (stats : MonsterRule.t) : Z :=
  num_or (MonsterRule.hitPoints stats)
         (num_or (MonsterRule.hitDice stats) 1 * 4).

(** [`m_${Date.now()}_${Math.floor(Math.random() * 1000)}`] *)
Definition instance_id (t u : Z) : string :=
  "m_" +:+ pretty t +:+ "_" +:+ pretty ((u * 1000) / two53).

Definition spawnMonster (gameId monsterType : string)
    (monsterStats : MonsterRule.t) : M Monster.t :=
  game ← createGame gameId;
  t ← Date_now;
  u ← Math_random;
  let monster :=
    {| Monster.instanceId := instance_id t u;
       Monster.type := monsterType;
       Monster.hp := spawn_hp monsterStats;
       Monster.ac := num_or (MonsterRule.armorClass monsterStats) 10;
       Monster.status := "alive" |} in
  store_monster gameId (instance_id t u) monster;;
  mret monster.
End models.

Definition getMonster (gameId instanceId : string) : M (option Monster.t) :=
  gs ← get_games;
  match gs !! gameId with
  | None => mret None
  | Some game => mret (Game.monsters game !! instanceId)
  end.

(** The mutation of [player.character] by [addItemToPlayer]:
[[
  if (!player.character) player.character = {};
  if (!Array.isArray(player.character.inventory)) player.character.inventory = [];
  player.character.inventory.push(itemId);
]] *)
Definition push_item (itemId : string) (c : option Character.t) : Character.t :=
  let c := default Character.empty c in
  Character.set_inventory (Some (default [] (Character.inventory c) ++ [itemId])) c.

Definition addItemToPlayer (gameId playerId itemId : string) : M (option Player.t) :=
  game ← createGame gameId;
  match Game.players game !! playerId with
  | None => mret None
  | Some player =>
      mutate_character gameId playerId (λ c, Some (push_item itemId c));;
      mret (Some (Player.set_character
                    (Some (push_item itemId (Player.character player))) player))
  end.

(** [inventory.indexOf(itemId)] followed by [splice(index, 1)]: the list
    without the first occurrence, if there is one. *)
Fixpoint remove_first (x : string) (l : list string) : option (list string) :=
  match l with
  | [] => None
  | y :: r =>
      if decide (y = x) then Some r
      else match remove_first x r with
           | Some r' => Some (y :: r')
           | None => None
           end
  end.

(** Returns the removed item, [None] standing for [undefined]. *)
Definition removeItemFromPlayer (gameId playerId itemId : string) : M (option string) :=
  gs ← get_games;
  match gs !! gameId with
  | None => mret None
  | Some game =>
      match Game.players game !! playerId with
      | None => mret None
      | Some player =>
          match Player.character player with
          | None => mret None
          | Some c =>
              match Character.inventory c with
              | None => mret None
              | Some inv =>
                  match remove_first itemId inv with
                  | None => mret None
                  | Some inv' =>
                      mutate_character gameId playerId
                        (fmap (Character.set_inventory (Some inv')));;
                      mret (Some itemId)
                  end
              end
          end
      end
  end.

(** [if (c.experience === undefined) c.experience = 0;
     if (c.level === undefined) c.level = 1] *)
Definition default_progress (c : Character.t) : Character.t :=
  let c1 := match Character.experience c with
            | None => Character.set_experience (Some 0) c
            | Some _ => c
            end in
  match Character.level c1 with
  | None => Character.set_level (Some 1) c1
  | Some _ => c1
  end.

(** The mutation of [player.character] by [setCharacter]:
[[
  if (!player.character) player.character = {};
  player.character = { ...player.character, ...character };
  if (player.character.experience === undefined) player.character.experience = 0;
  if (player.character.level === undefined) player.character.level = 1;
]] *)
Definition merge_character (character : Character.t) (c : option Character.t)
    : Character.t :=
  default_progress (Character.spread (default Character.empty c) character).

Definition setCharacter (gameId playerId : string) (character : Character.t) : M Player.t :=
  game ← createGame gameId;
  let unknown := {| Player.id := playerId; Player.name := "Unknown";
                    Player.character := None |} in
  match Game.players game !! playerId with
  | Some _ => mret tt
  | None => store_player gameId playerId unknown
  end;;
  let player := default unknown (Game.players game !! playerId) in
  mutate_character gameId playerId (λ c, Some (merge_character character c));;
  mret (Player.set_character
          (Some (merge_character character (Player.character player))) player).

(** The leveling loop of [addExperience], started with experience [e]
    and level [l]:
[[
  while (experience >= level * 1000) {
    experience -= level * 1000;
    level += 1;
    appendLog(gameId, `${player.name} has reached level ${level}!`);
  }
]]
    [log] is the game's log; the loop returns the final experience,
    level and log.  The measure shows that the loop ends for every pair
    of integers. *)
Definition level_up_line (name : string) (l : Z) : string :=
  name +:+ " has reached level " +:+ pretty l +:+ "!".

Definition loop_measure (e l : Z) : nat :=
  (Z.to_nat (Z.max 0 (1 - l))
   + Z.to_nat (e + 500 * Z.max 0 (- l) * (Z.max 0 (- l) + 1)))%nat.

Equations? level_loop (name : string) (e l : Z) (log : list string)
  : Z * Z * list string by wf (loop_measure e l) lt :=
  level_loop name e l log with decide (l * 1000 ≤ e) => {
    | left _ =>
        level_loop name (e - l * 1000) (l + 1)
          (log ++ [level_up_line name (l + 1)]);
    | right _ => (e, l, log) }.
Proof. unfold loop_measure. destruct (Z_le_gt_dec l 0); nia. Qed.

(** The loop as a guard and a body, iterated. *)
Definition loop_guard (s : Z * Z * list string) : bool :=
  let '(e, l, _) := s in bool_decide (l * 1000 ≤ e).

Definition loop_body (name : string) (s : Z * Z * list string) : Z * Z * list string :=
  let '(e, l, log) := s in
  (e - l * 1000, l + 1, log ++ [level_up_line name (l + 1)]).

(** The experience consumed by the level-ups from level [l] to level
    [l']: the sum of [k * 1000] for [l <= k < l']. *)
Definition spent (l l' : Z) : Z :=
  foldr Z.add 0 ((λ k, k * 1000) <$> seqZ l (l' - l)).

Definition addExperience (gameId playerId : string) (xp : Z) : M (option Player.t) :=
  gs ← get_games;
  match gs !! gameId with
  | None => mret None
  | Some game =>
      match Game.players game !! playerId with
      | None => mret None
      | Some player =>
          match Player.character player with
          | None => mret None
          | Some c =>
              let e := num_or (Character.experience c) 0 + xp in
              let '(e', l', log') :=
                match Character.level c with
                | Some l =>
                    let '(e', l', log') :=
                      level_loop (Player.name player) e l (Game.log game) in
                    (e', Some l', log')
                | None => (e, None, Game.log game)
                end in
              let progress c :=
                Character.set_level l' (Character.set_experience (Some e') c) in
              mutate_character gameId playerId (fmap progress);;
              modify_game gameId (Game.set_log log');;
              mret (Some (Player.set_character (Some (progress c)) player))
          end
      end
  end.

Definition exportCharacter (gameId playerId : string) : M (option Character.t) :=
  gs ← get_games;
  match gs !! gameId with
  | None => mret None
  | Some game =>
      match Game.players game !! playerId with
      | None => mret None
      | Some player =>
          match Player.character player with
          | None => mret None
          | Some c => mret (Some (Character.json_roundtrip c))
          end
      end
  end.

Definition getPlayer (gameId playerId : string) : M (option Player.t) :=
  gs ← get_games;
  match gs !! gameId with
  | None => mret None
  | Some game => mret (Game.players game !! playerId)
  end.

(** ** Result summaries returned by the controllers *)

Module AttackResult.
(** The summary of [attack] and [monsterAttack].  [targetRemainingHp]
    is [None] for the [null] of [target.character ? ... : null] and
    otherwise the Character's [hp] property. *)
Record t := {
  attacker : string;
  target : string;
  roll : Z;
  hit : bool;
  damage : Z;
  targetRemainingHp : option jsval;
}.
End AttackResult.

Module MonsterHitResult.
(** The summary of [attackMonster]. *)
Record t := {
  attacker : string;
  target : string;
  roll : Z;
  hit : bool;
  damage : Z;
  monsterRemainingHp : Z;
  monsterStatus : string;
}.
End MonsterHitResult.

Module SpellResult.
Inductive outcome : Type :=
| Healed (caster target : string) (heal : Z)
| Struck (caster target : string) (roll : Z) (hit : bool) (damage : Z)
| Fizzled (caster spell : string).
Record t := { message : string; result : outcome }.
End SpellResult.

Module ItemResult.
Record t := { playerId : string; itemId : string; message : string }.
End ItemResult.

Module DialogueResult.
Inductive t : Type :=
| Node (dialogueId conversationId nodeId text : string) (options : list string)
| End_.
End DialogueResult.

Module ActionResult.
Inductive detail : Type :=
| Rolled (result : Z)
| PlayerAttacked (r : AttackResult.t)
| MonsterAttacked (r : MonsterHitResult.t)
| SpellCast (r : SpellResult.outcome)
| NoDetail.
Record t := { message : string; result : detail }.
End ActionResult.

(** The action payload of [handleAction], by its [type] tag. *)
Inductive action : Type :=
| Roll (sides : Z)
| Attack (targetId : string) (targetType : string)
| CastSpell (spellName spellId : option string) (targetType targetId : string)
| Unknown (json : string).

(** ** Combat: [src/server/controllers/combat.js] *)

(** The damage block of [attack] and [monsterAttack]:
[[
  if (!target.character) target.character = { hp: 0 };
  if (typeof target.character.hp !== 'number') target.character.hp = 0;
  target.character.hp -= damage;
  if (target.character.hp <= 0) target.character.status = 'unconscious';
]] *)
Definition wound (damage : Z) (c : option Character.t) : Character.t :=
  let c0 := match c with
            | Some c => c
            | None => Character.set_hp (Number 0) Character.empty
            end in
  let c1 := if typeof_number (Character.hp c0) then c0
            else Character.set_hp (Number 0) c0 in
  let c2 := Character.set_hp (js_sub (Character.hp c1) damage) c1 in
  if js_le0 (Character.hp c2) then Character.set_status (Some "unconscious") c2
  else c2.

Definition attack (gameId attackerId targetId : string) : M AttackResult.t :=
  g ← getGame gameId;
  match g with
  | None => throw (Error ("Game " +:+ gameId +:+ " does not exist"))
  | Some game =>
      match Game.players game !! attackerId, Game.players game !! targetId with
      | Some attacker, Some target =>
          let targetAC := num_or (Player.character target ≫= Character.ac) 10 in
          attackRoll ← rollDie 20;
          if targetAC <=? attackRoll then
            damage ← rollDie 6;
            let c := wound damage (Player.character target) in
            mutate_character gameId targetId (λ c, Some (wound damage c));;
            mret {| AttackResult.attacker := Player.name attacker;
                    AttackResult.target := Player.name target;
                    AttackResult.roll := attackRoll;
                    AttackResult.hit := true;
                    AttackResult.damage := damage;
                    AttackResult.targetRemainingHp := Some (Character.hp c) |}
          else
            mret {| AttackResult.attacker := Player.name attacker;
                    AttackResult.target := Player.name target;
                    AttackResult.roll := attackRoll;
                    AttackResult.hit := false;
                    AttackResult.damage := 0;
                    AttackResult.targetRemainingHp :=
                      Character.hp <$> Player.character target |}
      | _, _ => throw (Error "Attacker or target not found in this game")
      end
  end.

Definition attackMonster (gameId attackerId monsterInstanceId : string)
    : M MonsterHitResult.t :=
  g ← getGame gameId;
  match g with
  | None => throw (Error ("Game " +:+ gameId +:+ " does not exist"))
  | Some game =>
      match Game.players game !! attackerId with
      | None => throw (Error "Attacker not found in this game")
      | Some attacker =>
          match Game.monsters game !! monsterInstanceId with
          | None => throw (Error "Target monster not found in this game")
          | Some monster =>
              let targetAC := num_or (Some (Monster.ac monster)) 10 in
              attackRoll ← rollDie 20;
              if targetAC <=? attackRoll then
                damage ← rollDie 6;
                let m1 := Monster.set_hp (Monster.hp monster - damage) monster in
                let m2 := if Monster.hp m1 <=? 0 then Monster.set_status "dead" m1
                          else m1 in
                strike_monster gameId monsterInstanceId damage;;
                mret {| MonsterHitResult.attacker := Player.name attacker;
                        MonsterHitResult.target := Monster.type monster;
                        MonsterHitResult.roll := attackRoll;
                        MonsterHitResult.hit := true;
                        MonsterHitResult.damage := damage;
                        MonsterHitResult.monsterRemainingHp := Monster.hp m2;
                        MonsterHitResult.monsterStatus := Monster.status m2 |}
              else
                mret {| MonsterHitResult.attacker := Player.name attacker;
                        MonsterHitResult.target := Monster.type monster;
                        MonsterHitResult.roll := attackRoll;
                        MonsterHitResult.hit := false;
                        MonsterHitResult.damage := 0;
                        MonsterHitResult.monsterRemainingHp := Monster.hp monster;
                        MonsterHitResult.monsterStatus := Monster.status monster |}
          end
      end
  end.

(** [bonus + count rolls of a [sides]-sided die], from the capture
    groups of a match. *)
Definition roll_match (m : dice_match) : M Z :=
  let count := parseInt (count_str m) in
  let sides := parseInt (sides_str m) in
  let bonus := match bonus_str m with
               | Some ds => parseInt ds
               | None => 0
               end in
  roll_loop (Z.to_nat count) sides bonus.

Section Engine.
(** The tables loaded at start-up. *)
Variable T : tables.

(** [rule.attacks[0].damage], when the rule, its [attacks] array, the
    first attack and a non-empty notation are all there; ['1d6']
    otherwise. *)
Definition damage_notation (monsterType : string) : string :=
  str_or (rule ← monsterRules T !! monsterType;
          attacks ← MonsterRule.attacks rule;
          first ← head attacks;
          MonsterRule.damage first) "1d6".

Definition monsterAttack (gameId monsterInstanceId targetPlayerId : string)
    : M AttackResult.t :=
  g ← getGame gameId;
  match g with
  | None => throw (Error ("Game " +:+ gameId +:+ " does not exist"))
  | Some game =>
      match Game.monsters game !! monsterInstanceId with
      | None => throw (Error "Monster not found")
      | Some monster =>
          match Game.players game !! targetPlayerId with
          | None => throw (Error "Target player not found")
          | Some target =>
              let damageStr := damage_notation (Monster.type monster) in
              let targetAc :=
                default 10 (Player.character target ≫= Character.ac) in
              attackRoll ← rollDie 20;
              if targetAc <=? attackRoll then
                damage ← match regex_match true damageStr with
                         | Some m => roll_match m
                         | None => rollDie 6
                         end;
                let c := wound damage (Player.character target) in
                mutate_character gameId targetPlayerId (λ c, Some (wound damage c));;
                mret {| AttackResult.attacker := Monster.type monster;
                        AttackResult.target := Player.name target;
                        AttackResult.roll := attackRoll;
                        AttackResult.hit := true;
                        AttackResult.damage := damage;
                        AttackResult.targetRemainingHp := Some (Character.hp c) |}
              else
                mret {| AttackResult.attacker := Monster.type monster;
                        AttackResult.target := Player.name target;
                        AttackResult.roll := attackRoll;
                        AttackResult.hit := false;
                        AttackResult.damage := 0;
                        AttackResult.targetRemainingHp :=
                          Character.hp <$> Player.character target |}
          end
      end
  end.

(** *** Spells: [src/server/controllers/spells.js] *)

Definition findSpellByName (name : string) : option Spell.t :=
  let lower := toLowerCase name in
  head (filter (λ spell, toLowerCase (Spell.name spell) = lower)
          (flat_map (λ cls, flat_map snd (snd cls)) (spellRules T))).

Definition rollFromNotation (notation : string) : M Z :=
  match regex_match true notation with
  | None => mret 0
  | Some m => roll_match m
  end.

(** The target of a spell: a player or a monster object. *)
Inductive spell_target : Type :=
| OnPlayer (p : Player.t)
| OnMonster (m : Monster.t).

(** The damage block of [castSpell] on a player:
[[
if (!player.character) player.character = { hp: 0 };
player.character.hp -= damageDealt;
if (player.character.hp <= 0) player.character.status = 'unconscious';
]] *)
Definition spell_wound (damage : Z) (c : option Character.t) : Character.t :=
  let c0 := match c with
            | Some c => c
            | None => Character.set_hp (Number 0) Character.empty
            end in
  let c2 := Character.set_hp (js_sub (Character.hp c0) damage) c0 in
  if js_le0 (Character.hp c2) then Character.set_status (Some "unconscious") c2
  else c2.

(** The healing assignment of [castSpell] and [useItem]:
    [hp = (hp || 0) + amount]. *)
Definition mend (amount : Z) (c : Character.t) : Character.t :=
  Character.set_hp (js_or0_add (Character.hp c) amount) c.

Definition castSpell (gameId casterId spellName targetType targetId : string)
    : M SpellResult.t :=
  match findSpellByName spellName with
  | None => throw (Error ("Unknown spell: " +:+ spellName))
  | Some spell =>
  g ← getGame gameId;
  match g with
  | None => throw (Error ("Game " +:+ gameId +:+ " does not exist"))
  | Some game =>
  match Game.players game !! casterId with
  | None => throw (Error "Caster not found")
  | Some caster =>
  let target :=
    if decide (targetType = "player") then OnPlayer <$> Game.players game !! targetId
    else if decide (targetType = "monster") then OnMonster <$> Game.monsters game !! targetId
    else None in
  match target with
  | None => throw (Error "Target not found")
  | Some target =>
      let heal := str_or (Spell.eff spell ≫= Spell.heal) "" in
      let damage := str_or (Spell.eff spell ≫= Spell.damage) "" in
      r ← (if decide (heal ≠ "") then
             healAmount ← rollFromNotation heal;
             match target with
             | OnMonster _ => throw (Error "Healing spells can only target players")
             | OnPlayer player =>
                 mutate_character gameId targetId
                   (λ c, Some (mend healAmount
                                 (default (Character.set_hp (Number 0) Character.empty)
                                          c)));;
                 mret {| SpellResult.message :=
                           Player.name caster +:+ " casts " +:+ Spell.name spell
                           +:+ " on " +:+ Player.name player +:+ ", healing "
                           +:+ pretty healAmount +:+ " HP.";
                         SpellResult.result :=
                           SpellResult.Healed (Player.name caster)
                             (Player.name player) healAmount |}
             end
           else if decide (damage ≠ "") then
             damageAmount ← rollFromNotation damage;
             let targetAc :=
               match target with
               | OnPlayer player =>
                   default 10 (Player.character player ≫= Character.ac)
               | OnMonster monster => num_or (Some (Monster.ac monster)) 10
               end in
             attackRoll ← rollDie 20;
             let hit := targetAc <=? attackRoll in
             let damageDealt := if hit then damageAmount else 0 in
             (if hit then
                match target with
                | OnPlayer player =>
                    mutate_character gameId targetId
                      (λ c, Some (spell_wound damageDealt c))
                | OnMonster monster => strike_monster gameId targetId damageDealt
                end
              else mret tt);;
             let targetName :=
               match target with
               | OnPlayer player => Player.name player
               | OnMonster monster => Monster.type monster
               end in
             mret {| SpellResult.message :=
                       if hit then
                         Player.name caster +:+ " casts " +:+ Spell.name spell
                         +:+ " and hits " +:+ targetName +:+ " for "
                         +:+ pretty damageDealt +:+ " damage."
                       else
                         Player.name caster +:+ " casts " +:+ Spell.name spell
                         +:+ " but misses " +:+ targetName +:+ ".";
                     SpellResult.result :=
                       SpellResult.Struck (Player.name caster) targetName
                         attackRoll hit damageDealt |}
           else
             mret {| SpellResult.message :=
                       Player.name caster +:+ " casts " +:+ Spell.name spell
                       +:+ ", but nothing happens.";
                     SpellResult.result :=
                       SpellResult.Fizzled (Player.name caster) (Spell.name spell) |});
      appendLog gameId (SpellResult.message r);;
      mret r
  end end end end.

(** *** Items: [src/server/controllers/items.js] *)

Definition giveItem (gameId playerId itemId : string) : M Player.t :=
  match itemRules T !! itemId with
  | None => throw (Error ("Unknown item: " +:+ itemId))
  | Some item =>
      player ← addItemToPlayer gameId playerId itemId;
      match player with
      | None =>
          (* [player.name] on [null] *)
          throw (TypeError "Cannot read properties of null (reading 'name')")
      | Some player =>
          appendLog gameId
            (Player.name player +:+ " obtained " +:+ Item.name item +:+ ".");;
          mret player
      end
  end.

(** The heal roll of [useItem]:
[[
const match = effect.heal.match(/(\d+)d(\d+)/);
let heal = 0;
if (match) { ... for (let i = 0; i < count; i++) heal += rollDie(sides); }
]] *)
Definition item_heal_roll (notation : string) : M Z :=
  match regex_match false notation with
  | None => mret 0
  | Some m =>
      roll_loop (Z.to_nat (parseInt (count_str m))) (parseInt (sides_str m)) 0
  end.

Definition useItem (gameId playerId itemId : string) : M ItemResult.t :=
  match itemRules T !! itemId with
  | None => throw (Error ("Unknown item: " +:+ itemId))
  | Some item =>
      removed ← removeItemFromPlayer gameId playerId itemId;
      match removed with
      | None | Some EmptyString => throw (Error "Item not in inventory")
      | Some (String _ _) =>
          p ← getPlayer gameId playerId;
          match p with
          | None => throw (Error "Player or character missing")
          | Some player =>
              match Player.character player with
              | None => throw (Error "Player or character missing")
              | Some c =>
                  let heal := str_or (Item.eff item ≫= Item.heal) "" in
                  let acBonus := num_or (Item.eff item ≫= Item.acBonus) 0 in
                  message ←
                    (if decide (heal ≠ "") then
                       amount ← item_heal_roll heal;
                       mutate_character gameId playerId (fmap (mend amount));;
                       mret (Player.name player +:+ " drinks a " +:+ Item.name item
                             +:+ " and heals " +:+ pretty amount +:+ " HP.")
                     else if decide (acBonus ≠ 0) then
                       mutate_character gameId playerId
                         (fmap (λ c, Character.set_ac
                                       (Some (default 10 (Character.ac c) + acBonus))
                                       c));;
                       mret (Player.name player +:+ " equips a " +:+ Item.name item
                             +:+ " and gains +" +:+ pretty acBonus
                             +:+ " armour class.")
                     else
                       mret (Player.name player +:+ " uses " +:+ Item.name item
                             +:+ ", but nothing happens."));
                  appendLog gameId message;;
                  mret {| ItemResult.playerId := playerId;
                          ItemResult.itemId := itemId;
                          ItemResult.message := message |}
              end
          end
      end
  end.

(** *** Monsters: [src/server/controllers/monster.js] *)

Definition spawnMonster (gameId monsterType : string) : M Monster.t :=
  match monsterRules T !! monsterType with
  | None => throw (Error ("Unknown monster type: " +:+ monsterType))
  | Some rules =>
      instance ← models.spawnMonster gameId monsterType rules;
      appendLog gameId ("A " +:+ monsterType +:+ " appears!");;
      mret instance
  end.

(** *** Dialogue: [src/server/controllers/dialogue.js] *)

(** [(node.options || []).map((opt) => opt.text)] *)
Definition option_texts (node : Dialogue.node) : list string :=
  Dialogue.text <$> default [] (Dialogue.options node).

(** [(file.dialogues || []).find((d) => d.id === conversationId)] *)
Definition find_conversation (file : Dialogue.file) (conversationId : string)
    : option Dialogue.conversation :=
  head (filter (λ d, Dialogue.id d = conversationId)
          (default [] (Dialogue.dialogues file))).

Definition startDialogue (gameId playerId dialogueId conversationId : string)
    : M DialogueResult.t :=
  match dialogueFiles T !! dialogueId with
  | None => throw (Error ("Dialogue file " +:+ dialogueId +:+ " not found"))
  | Some file =>
      match find_conversation file conversationId with
      | None =>
          throw (Error ("Dialogue " +:+ conversationId +:+ " not found in file "
                        +:+ dialogueId))
      | Some conv =>
          let startNodeId := Dialogue.start conv in
          match Dialogue.nodes conv !! startNodeId with
          | None =>
              throw (Error ("Start node " +:+ startNodeId
                            +:+ " not found in dialogue " +:+ conversationId))
          | Some node =>
              mret (DialogueResult.Node dialogueId conversationId startNodeId
                      (Dialogue.node_text node) (option_texts node))
          end
      end
  end.

(** [`${models.getPlayer(gameId, playerId).name}`]: a [TypeError] when
    the player is not there. *)
Definition player_name (gameId playerId : string) : M string :=
  p ← getPlayer gameId playerId;
  match p with
  | Some player => mret (Player.name player)
  | None => throw (TypeError "Cannot read properties of null (reading 'name')")
  end.

(** [for (const item of items) { addItemToPlayer(...); appendLog(...) }] *)
Fixpoint award_items (gameId playerId : string) (items : list string) : M unit :=
  match items with
  | [] => mret tt
  | item :: rest =>
      addItemToPlayer gameId playerId item;;
      name ← player_name gameId playerId;
      appendLog gameId (name +:+ " received item " +:+ item +:+ ".");;
      award_items gameId playerId rest
  end.

Definition award (gameId playerId : string) (reward : Dialogue.reward) : M unit :=
  (if decide (num_or (Dialogue.xp reward) 0 ≠ 0) then
     let xp := num_or (Dialogue.xp reward) 0 in
     addExperience gameId playerId xp;;
     name ← player_name gameId playerId;
     appendLog gameId (name +:+ " gained " +:+ pretty xp +:+ " XP.")
   else mret tt);;
  match Dialogue.items reward with
  | Some items => award_items gameId playerId items
  | None => mret tt
  end.

(** [options[optionIndex]] *)
Definition option_at (options : list Dialogue.option_) (optionIndex : Z)
    : option Dialogue.option_ :=
  if optionIndex <? 0 then None else options !! Z.to_nat optionIndex.

Definition chooseDialogueOption
    (gameId playerId dialogueId conversationId nodeId : string) (optionIndex : Z)
    : M DialogueResult.t :=
  match dialogueFiles T !! dialogueId with
  | None => throw (Error ("Dialogue file " +:+ dialogueId +:+ " not found"))
  | Some file =>
      match find_conversation file conversationId with
      | None =>
          throw (Error ("Dialogue " +:+ conversationId +:+ " not found in file "
                        +:+ dialogueId))
      | Some conv =>
          match Dialogue.nodes conv !! nodeId with
          | None =>
              throw (Error ("Node " +:+ nodeId +:+ " not found in dialogue "
                            +:+ conversationId))
          | Some node =>
              match option_at (default [] (Dialogue.options node)) optionIndex with
              | None =>
                  throw (Error ("Option index " +:+ pretty optionIndex
                                +:+ " is invalid for node " +:+ nodeId))
              | Some opt =>
                  match Dialogue.rew opt with
                  | Some reward => award gameId playerId reward
                  | None => mret tt
                  end;;
                  match Dialogue.next opt with
                  | None | Some EmptyString => mret DialogueResult.End_
                  | Some nextId =>
                      match Dialogue.nodes conv !! nextId with
                      | None => mret DialogueResult.End_
                      | Some next =>
                          mret (DialogueResult.Node dialogueId conversationId nextId
                                  (Dialogue.node_text next) (option_texts next))
                      end
                  end
              end
          end
      end
  end.

(** *** Core game logic: [src/server/controllers/index.js] *)

Definition joinGame (gameId playerId playerName : string) : M Player.t :=
  player ← addPlayer gameId playerId playerName;
  appendLog gameId (playerName +:+ " joined the game.");;
  mret player.

Definition handleAction (gameId playerId : string) (a : action) : M ActionResult.t :=
  g ← getGame gameId;
  match g with
  | None => throw (Error ("Game " +:+ gameId +:+ " does not exist"))
  | Some game =>
  match Game.players game !! playerId with
  | None =>
      throw (Error ("Player " +:+ playerId +:+ " is not in game " +:+ gameId))
  | Some player =>
      match a with
      | Roll sides =>
          result ← rollDie sides;
          let msg := Player.name player +:+ " rolled a " +:+ pretty result
                     +:+ " (d" +:+ pretty sides +:+ ")." in
          appendLog gameId msg;;
          mret {| ActionResult.message := msg;
                  ActionResult.result := ActionResult.Rolled result |}
      | Attack targetId targetType =>
          if decide (targetType = "monster") then
            result ← attackMonster gameId playerId targetId;
            let msg :=
              if MonsterHitResult.hit result then
                MonsterHitResult.attacker result +:+ " hit the "
                +:+ MonsterHitResult.target result +:+ " for "
                +:+ pretty (MonsterHitResult.damage result) +:+ " damage (roll "
                +:+ pretty (MonsterHitResult.roll result) +:+ ")."
              else
                MonsterHitResult.attacker result +:+ " missed the "
                +:+ MonsterHitResult.target result +:+ " (roll "
                +:+ pretty (MonsterHitResult.roll result) +:+ ")." in
            appendLog gameId msg;;
            mret {| ActionResult.message := msg;
                    ActionResult.result := ActionResult.MonsterAttacked result |}
          else
            result ← attack gameId playerId targetId;
            let msg :=
              if AttackResult.hit result then
                AttackResult.attacker result +:+ " hit "
                +:+ AttackResult.target result +:+ " for "
                +:+ pretty (AttackResult.damage result) +:+ " damage (roll "
                +:+ pretty (AttackResult.roll result) +:+ ")."
              else
                AttackResult.attacker result +:+ " missed "
                +:+ AttackResult.target result +:+ " (roll "
                +:+ pretty (AttackResult.roll result) +:+ ")." in
            appendLog gameId msg;;
            mret {| ActionResult.message := msg;
                    ActionResult.result := ActionResult.PlayerAttacked result |}
      | CastSpell spellName spellId targetType targetId =>
          let name := str_or spellName (str_or spellId "") in
          if decide (name = "") then
            let msg := Player.name player
                       +:+ " tried to cast a spell, but no spell name was provided." in
            appendLog gameId msg;;
            mret {| ActionResult.message := msg;
                    ActionResult.result := ActionResult.NoDetail |}
          else
            r ← castSpell gameId playerId name targetType targetId;
            mret {| ActionResult.message := SpellResult.message r;
                    ActionResult.result :=
                      ActionResult.SpellCast (SpellResult.result r) |}
      | Unknown json =>
          let msg := Player.name player +:+ " performed an unknown action: "
                     +:+ json +:+ "." in
          appendLog gameId msg;;
          mret {| ActionResult.message := msg;
                  ActionResult.result := ActionResult.NoDetail |}
      end
  end end.

(** The placeholder tables of [createCharacter]. *)
Definition default_abilityScores : gmap string Z :=
  list_to_map [("str", 10); ("dex", 10); ("con", 10);
               ("int", 10); ("wis", 10); ("cha", 10)].
Definition default_savingThrows : gmap string Z :=
  list_to_map [("deathRay", 12); ("magic", 12); ("paralysis", 12)].

(** The preparation of the payload by [createCharacter], given the
    class rule and, when the rule has a hit die, the hit points
    rolled. *)
Definition prepare_character (rule : option ClassRule.t) (rolled : option Z)
    (character : Character.t) : Character.t :=
  let c1 := match rolled with
            | Some h => Character.set_hp (Number h) character
            | None => character
            end in
  let c2 := Character.set_ac (Some (num_or (Character.ac c1) 10)) c1 in
  let c3 := match Character.abilityScores c2 with
            | Some _ => c2
            | None => Character.set_abilityScores (Some default_abilityScores) c2
            end in
  match rule ≫= ClassRule.savingThrows with
  | Some st => Character.set_savingThrows (Some st) c3
  | None =>
      match Character.savingThrows c3 with
      | Some _ => c3
      | None => Character.set_savingThrows (Some default_savingThrows) c3
      end
  end.

Definition createCharacter (gameId playerId : string) (character : Character.t)
    : M Player.t :=
  let clsKey := toLowerCase (str_or (Character.class character) "") in
  let rule := classRules T !! clsKey in
  rolled ← match num_or (rule ≫= ClassRule.hitDie) 0 with
           | 0 => mret None
           | hitDie => h ← rollDie hitDie; mret (Some h)
           end;
  let character := prepare_character rule rolled character in
  player ← setCharacter gameId playerId character;
  let race := str_or (Character.race character) "unknown race" in
  let cls := str_or (Character.class character) "unknown class" in
  appendLog gameId
    (Player.name player +:+ " created a character: "
     +:+ show_str (Character.name character) +:+ " (" +:+ race +:+ " " +:+ cls
     +:+ ") with "
     +:+ (if truthy (Character.hp character) then show_jsval (Character.hp character)
          else "?")
     +:+ " HP.");;
  mret player.

Definition selectCampaign (gameId campaignId : string) : M Campaign.t :=
  match campaignFiles T !! campaignId with
  | None => throw (Error ("Campaign " +:+ campaignId +:+ " does not exist"))
  | Some campaign =>
      createGame gameId;;
      modify_game gameId (Game.set_campaign (Some campaign));;
      appendLog gameId ("Campaign '" +:+ Campaign.name campaign +:+ "' selected.");;
      mret campaign
  end.
End Engine.

(** ** Engine operations and reachable registries *)

(** The operations the engine exposes to the session gateway. *)
Inductive op : Type :=
| Op_joinGame (gameId playerId playerName : string)
| Op_handleAction (gameId playerId : string) (a : action)
| Op_createCharacter (gameId playerId : string) (character : Character.t)
| Op_selectCampaign (gameId campaignId : string)
| Op_spawnMonster (gameId monsterType : string)
| Op_giveItem (gameId playerId itemId : string)
| Op_useItem (gameId playerId itemId : string)
| Op_startDialogue (gameId playerId dialogueId conversationId : string)
| Op_chooseDialogueOption (gameId playerId dialogueId conversationId nodeId : string)
    (optionIndex : Z)
| Op_exportCharacter (gameId playerId : string)
| Op_attack (gameId attackerId targetId : string)
| Op_attackMonster (gameId attackerId monsterInstanceId : string)
| Op_monsterAttack (gameId monsterInstanceId targetPlayerId : string)
| Op_castSpell (gameId casterId spellName targetType targetId : string)
| Op_appendLog (gameId message : string).

(** Running an operation for its effect on the world. *)
Definition exec (T : tables) (o : op) : M unit :=
  match o with
  | Op_joinGame g p n => joinGame g p n;; mret tt
  | Op_handleAction g p a => handleAction T g p a;; mret tt
  | Op_createCharacter g p c => createCharacter T g p c;; mret tt
  | Op_selectCampaign g c => selectCampaign T g c;; mret tt
  | Op_spawnMonster g t => spawnMonster T g t;; mret tt
  | Op_giveItem g p i => giveItem T g p i;; mret tt
  | Op_useItem g p i => useItem T g p i;; mret tt
  | Op_startDialogue g p d c => startDialogue T g p d c;; mret tt
  | Op_chooseDialogueOption g p d c n i => chooseDialogueOption T g p d c n i;; mret tt
  | Op_exportCharacter g p => exportCharacter g p;; mret tt
  | Op_attack g a t => attack g a t;; mret tt
  | Op_attackMonster g a m => attackMonster g a m;; mret tt
  | Op_monsterAttack g m t => monsterAttack T g m t;; mret tt
  | Op_castSpell g c s ty t => castSpell T g c s ty t;; mret tt
  | Op_appendLog g m => appendLog g m
  end.

(** The registries that sequences of operations lead to from the empty
    registry, whatever the dice and the clock do. *)
Inductive reachable (T : tables) : gmap string Game.t → Prop :=
| reachable_empty : reachable T ∅
| reachable_step (w : world) (o : op) :
    reachable T (games w) → reachable T (games (exec T o w).2).

(** *** Observations of a registry *)

Definition player_at (gs : gmap string Game.t) (gameId playerId : string)
    : option Player.t :=
  gs !! gameId ≫= λ game, Game.players game !! playerId.

Definition char_at (gs : gmap string Game.t) (gameId playerId : string)
    : option Character.t :=
  player_at gs gameId playerId ≫= Player.character.

(** The hit points of a Character, as an integer when they are one. *)
Definition hp_int (c : Character.t) : option Z :=
  match Character.hp c with
  | Number z => Some z
  | _ => None
  end.

Definition monster_at (gs : gmap string Game.t) (gameId instanceId : string)
    : option Monster.t :=
  gs !! gameId ≫= λ game, Game.monsters game !! instanceId.

Definition status_at (gs : gmap string Game.t) (gameId playerId : string)
    : option string :=
  char_at gs gameId playerId ≫= Character.status.

Definition unconscious (gs : gmap string Game.t) (gameId playerId : string) : Prop :=
  status_at gs gameId playerId = Some "unconscious".

(** The player has a Character whose hit points are an integer
    [<= 0]. *)
Definition down (gs : gmap string Game.t) (gameId playerId : string) : Prop :=
  ∃ c z, char_at gs gameId playerId = Some c ∧ Character.hp c = Number z ∧ z ≤ 0.

(** *** Effects of a computation on the registry *)

(** The registry before and after are related by [R], whatever the
    outcome. *)
Definition preserves {A} (R : relation (gmap string Game.t)) (m : M A) : Prop :=
  ∀ w, R (games w) (games (m w).2).

Definition never_throws {A} (m : M A) : Prop :=
  ∀ w, ∃ a, (m w).1 = Ok a.

(** A failure leaves the registry as it was. *)
Definition atomic {A} (m : M A) : Prop :=
  ∀ w e, (m w).1 = Throw e → games (m w).2 = games w.

Definition same_players : relation (gmap string Game.t) :=
  λ gs gs', ∀ g p, player_at gs' g p = player_at gs g p.

Definition same_monsters : relation (gmap string Game.t) :=
  λ gs gs', ∀ g i, monster_at gs' g i = monster_at gs g i.

Definition same_status : relation (gmap string Game.t) :=
  λ gs gs', ∀ g p, status_at gs' g p = status_at gs g p.

(** Between two registries no status changed, except that [playerId]
    of [gameId] may have become unconscious with hit points [<= 0]. *)
Definition struck (gameId playerId : string) : relation (gmap string Game.t) :=
  λ gs gs', ∀ g p,
    status_at gs' g p = status_at gs g p
    ∨ (g = gameId ∧ p = playerId ∧ unconscious gs' g p ∧ down gs' g p).

(** A Character whose hit points are an integer [<= 0] is unconscious. *)
Definition down_means_unconscious (c : Character.t) : Prop :=
  ∀ z, Character.hp c = Number z → z ≤ 0 → Character.status c = Some "unconscious".

(** Between two registries the Character of [playerId] in [gameId] is
    the same, or it is now one that is unconscious if its hit points
    are [<= 0]. *)
Definition hurt (gameId playerId : string) : relation (gmap string Game.t) :=
  λ gs gs',
    char_at gs' gameId playerId = char_at gs gameId playerId
    ∨ ∃ c', char_at gs' gameId playerId = Some c' ∧ down_means_unconscious c'.

(** The operation is damage aimed at [playerId] of [gameId]: [attack],
    [monsterAttack] or a spell on a player, directly or through
    [handleAction]. *)
Definition strikes (o : op) (gameId playerId : string) : Prop :=
  match o with
  | Op_attack g _ t => g = gameId ∧ t = playerId
  | Op_monsterAttack g _ t => g = gameId ∧ t = playerId
  | Op_castSpell g _ _ ty t => g = gameId ∧ t = playerId ∧ ty = "player"
  | Op_handleAction g _ (Attack t ty) => g = gameId ∧ t = playerId ∧ ty ≠ "monster"
  | Op_handleAction g _ (CastSpell _ _ ty t) => g = gameId ∧ t = playerId ∧ ty = "player"
  | _ => False
  end.

(** The operation is [createCharacter] for [playerId] of [gameId] with
    a payload that carries the status [s]. *)
Definition supplies_status (o : op) (gameId playerId : string) (s : string) : Prop :=
  match o with
  | Op_createCharacter g p c => g = gameId ∧ p = playerId ∧ Character.status c = Some s
  | _ => False
  end.

(** Between two registries no monster changed, except that the monster
    [instanceId] of [gameId] may have taken some damage [d]: it is gone
    if that brought its hit points to [<= 0], and has the lower hit
    points otherwise. *)
Definition smitten (gameId instanceId : string) : relation (gmap string Game.t) :=
  λ gs gs', ∀ g i,
    monster_at gs' g i = monster_at gs g i
    ∨ (g = gameId ∧ i = instanceId
       ∧ ∃ m d,
           monster_at gs g i = Some m
           ∧ monster_at gs' g i =
               if Monster.hp m - d <=? 0 then None
               else Some (Monster.set_hp (Monster.hp m - d) m)).

(** The monster that [spawnMonster] makes from a rule. *)
Definition spawn (instanceId monsterType : string) (rule : MonsterRule.t) : Monster.t :=
  {| Monster.instanceId := instanceId;
     Monster.type := monsterType;
     Monster.hp := models.spawn_hp rule;
     Monster.ac := num_or (MonsterRule.armorClass rule) 10;
     Monster.status := "alive" |}.

(** Between two registries no monster changed, except that a monster of
    the given type may have been spawned in [gameId]. *)
Definition spawned (gameId monsterType : string) (rule : MonsterRule.t)
    : relation (gmap string Game.t) :=
  λ gs gs', ∀ g i,
    monster_at gs' g i = monster_at gs g i
    ∨ (g = gameId ∧ monster_at gs' g i = Some (spawn i monsterType rule)).

(** The operation is damage aimed at the monster [instanceId] of
    [gameId]: [attackMonster] or a spell on a monster, directly or
    through [handleAction]. *)
Definition strikes_monster (o : op) (gameId instanceId : string) : Prop :=
  match o with
  | Op_attackMonster g _ i => g = gameId ∧ i = instanceId
  | Op_castSpell g _ _ ty t => g = gameId ∧ t = instanceId ∧ ty = "monster"
  | Op_handleAction g _ (Attack t ty) => g = gameId ∧ t = instanceId ∧ ty = "monster"
  | Op_handleAction g _ (CastSpell _ _ ty t) =>
      g = gameId ∧ t = instanceId ∧ ty = "monster"
  | _ => False
  end.

(** The monster rules give hit points and hit dice that are not
    negative. *)
Definition sane_monster_rules (T : tables) : Prop :=
  ∀ ty rule, monsterRules T !! ty = Some rule →
    0 ≤ default 0 (MonsterRule.hitPoints rule)
    ∧ 0 ≤ default 0 (MonsterRule.hitDice rule).

(** A relation between registries that only looks at the monsters. *)
Class OnMonsters (R : relation (gmap string Game.t)) : Prop := {
  on_monsters_same gs gs' : same_monsters gs gs' → R gs gs';
  on_monsters_before gs1 gs2 gs3 : same_monsters gs1 gs2 → R gs2 gs3 → R gs1 gs3;
  on_monsters_after gs1 gs2 gs3 : R gs1 gs2 → same_monsters gs2 gs3 → R gs1 gs3;
}.

(** A monster as [spawnMonster] leaves it and damage keeps it: positive
    hit points and the status "alive". *)
Definition alive (m : Monster.t) : Prop :=
  0 < Monster.hp m ∧ Monster.status m = "alive".

(** The operation is a [spawnMonster] in [gameId] and [m] is the
    monster it makes under the identifier [instanceId]. *)
Definition spawns (T : tables) (o : op) (gameId instanceId : string)
    (m : Monster.t) : Prop :=
  match o with
  | Op_spawnMonster g ty =>
      g = gameId ∧ ∃ rule, monsterRules T !! ty = Some rule ∧ m = spawn instanceId ty rule
  | _ => False
  end.

(** The world after [n] more calls of [Math.random()]. *)
Definition advance (n : nat) (w : world) : world :=
  {| games := games w; draws := draws w; drawn := (n + drawn w)%nat; now := now w |}.

(** The draws of a world are results of [Math.random()]: in [0, 1). *)
Definition fair (w : world) : Prop := ∀ n, 0 ≤ draws w n < two53.

(** ** The object graph of an exported Character *)

Module Heap.
Definition loc := positive.

(** The primitive-valued properties of a Character object. *)
Record scalars := {
  name : option string;
  race : option string;
  class : option string;
  hp : jsval;
  ac : option Z;
  experience : option Z;
  level : option Z;
  status : option string;
}.

(** Heap objects: a Character object, whose [inventory],
    [abilityScores] and [savingThrows] properties are references, an
    array of item identifiers, and a table of named numbers. *)
Inductive cell : Type :=
| CharObj (own : scalars) (inventory abilityScores savingThrows : option loc)
| ArrObj (items : list string)
| TabObj (entries : gmap string Z).

Definition ref_set (r : option loc) : gset loc :=
  match r with
  | Some l => {[l]}
  | None => ∅
  end.

(** The references an object holds. *)
Definition refs (c : cell) : gset loc :=
  match c with
  | CharObj _ i a s => ref_set i ∪ ref_set a ∪ ref_set s
  | ArrObj _ | TabObj _ => ∅
  end.

Definition read_arr (h : gmap loc cell) (r : option loc)
    : option (option (list string)) :=
  match r with
  | None => Some None
  | Some l =>
      match h !! l with
      | Some (ArrObj items) => Some (Some items)
      | _ => None
      end
  end.

Definition read_tab (h : gmap loc cell) (r : option loc)
    : option (option (gmap string Z)) :=
  match r with
  | None => Some None
  | Some l =>
      match h !! l with
      | Some (TabObj entries) => Some (Some entries)
      | _ => None
      end
  end.

(** What [JSON.stringify] reads: the content of the Character object
    at [root], through its references. *)
Definition content (h : gmap loc cell) (root : loc) : option Character.t :=
  match h !! root with
  | Some (CharObj own i a s) =>
      inv ← read_arr h i;
      abil ← read_tab h a;
      sav ← read_tab h s;
      Some {| Character.name := name own; Character.race := race own;
              Character.class := class own; Character.hp := hp own;
              Character.ac := ac own; Character.abilityScores := abil;
              Character.savingThrows := sav;
              Character.experience := experience own;
              Character.level := level own; Character.inventory := inv;
              Character.status := status own |}
  | _ => None
  end.

(** The objects a Character object consists of. *)
Definition footprint (h : gmap loc cell) (root : loc) : gset loc :=
  {[root]} ∪ match h !! root with
             | Some c => refs c
             | None => ∅
             end.

(** Allocation of a new object. *)
Definition alloc (c : cell) (h : gmap loc cell) : loc * gmap loc cell :=
  let l := fresh (dom h) in (l, <[l := c]> h).

Definition alloc_opt (c : option cell) (h : gmap loc cell)
    : option loc * gmap loc cell :=
  match c with
  | Some c => let '(l, h') := alloc c h in (Some l, h')
  | None => (None, h)
  end.

(** What [JSON.parse] builds: a new object graph with the given
    content. *)
Definition build (c : Character.t) (h : gmap loc cell) : loc * gmap loc cell :=
  let '(i, h1) := alloc_opt (ArrObj <$> Character.inventory c) h in
  let '(a, h2) := alloc_opt (TabObj <$> Character.abilityScores c) h1 in
  let '(s, h3) := alloc_opt (TabObj <$> Character.savingThrows c) h2 in
  alloc (CharObj {| name := Character.name c; race := Character.race c;
                    class := Character.class c; hp := Character.hp c;
                    ac := Character.ac c; experience := Character.experience c;
                    level := Character.level c; status := Character.status c |}
           i a s) h3.

(** [JSON.parse(JSON.stringify(player.character))] for the Character
    object at [root]. *)
Definition exportCharacter (h : gmap loc cell) (root : loc)
    : option (loc * gmap loc cell) :=
  c ← content h root; Some (build (Character.json_roundtrip c) h).

(** What the receiver of an exported object can do with it: overwrite
    an object it can reach with properties or elements of its choice,
    or create an object; the references it stores are to objects it
    can reach. *)
Inductive mutation : Type :=
| Assign (l : loc) (c : cell)
| New (c : cell).

Definition mutate (st : gset loc * gmap loc cell) (m : mutation)
    : option (gset loc * gmap loc cell) :=
  let '(known, h) := st in
  match m with
  | Assign l c =>
      if decide (l ∈ known ∧ refs c ⊆ known) then Some (known, <[l := c]> h)
      else None
  | New c =>
      if decide (refs c ⊆ known) then
        let '(l, h') := alloc c h in Some ({[l]} ∪ known, h')
      else None
  end.

(** One heap extends another: the objects of the first are in the
    second, unchanged. *)
Definition extends (h h' : gmap loc cell) : Prop :=
  ∀ l, is_Some (h !! l) → h' !! l = h !! l.

Fixpoint mutate_all (st : gset loc * gmap loc cell) (ms : list mutation)
    : option (gset loc * gmap loc cell) :=
  match ms with
  | [] => Some st
  | m :: rest =>
      match mutate st m with
      | Some st' => mutate_all st' rest
      | None => None
      end
  end.
End Heap.

(** The armour class of a player as [monsterAttack] and [castSpell]
    read it: the Character's [ac], 10 when there is no Character or no
    [ac]. *)
Definition armour_class (p : Player.t) : Z :=
  default 10 (Player.character p ≫= Character.ac).

(** The hit points of a player before damage is applied by [attack]:
    the Character's [hp] when it is a number, [0] otherwise. *)
Definition hit_points (p : Player.t) : jsval :=
  match Player.character p with
  | Some c => if typeof_number (Character.hp c) then Character.hp c else Number 0
  | None => Number 0
  end.

(** ** Further observations of the registry *)

(** A player object with the identifier and display name of another. *)
Definition same_identity (pl pl' : Player.t) : Prop :=
  Player.id pl' = Player.id pl ∧ Player.name pl' = Player.name pl.

(** A game later on: the same identifier, a log that starts with the
    old one, and every player still there, under the same key and with
    the same identifier and display name. *)
Definition game_grows (game game' : Game.t) : Prop :=
  Game.id game' = Game.id game
  ∧ Game.log game `prefix_of` Game.log game'
  ∧ ∀ p pl, Game.players game !! p = Some pl →
      ∃ pl', Game.players game' !! p = Some pl' ∧ same_identity pl pl'.

(** A registry later on: every game still there, and grown. *)
Definition grows : relation (gmap string Game.t) :=
  λ gs gs', ∀ g game, gs !! g = Some game →
    ∃ game', gs' !! g = Some game' ∧ game_grows game game'.

(** Every object is registered under its own identifier. *)
Definition game_keyed (g : string) (game : Game.t) : Prop :=
  Game.id game = g
  ∧ (∀ p pl, Game.players game !! p = Some pl → Player.id pl = p)
  ∧ (∀ i m, Game.monsters game !! i = Some m → Monster.instanceId m = i).

Definition well_keyed (gs : gmap string Game.t) : Prop :=
  ∀ g game, gs !! g = Some game → game_keyed g game.

(** The property [P] of registries is kept. *)
Definition keeps (P : gmap string Game.t → Prop) : relation (gmap string Game.t) :=
  λ gs gs', P gs → P gs'.

(** The spells of the tables, in the order [findSpellByName] visits
    them. *)
Definition all_spells (T : tables) : list Spell.t :=
  flat_map (λ cls, flat_map snd (snd cls)) (spellRules T).

(** The damage roll of [monsterAttack]: the monster type's notation
    when it parses, one d6 otherwise. *)
Definition monster_damage_roll (T : tables) (monsterType : string) : M Z :=
  match regex_match true (damage_notation T monsterType) with
  | Some m => roll_match m
  | None => rollDie 6
  end.

(** ** Sample tables and worlds *)

Module Sample.
Definition tables : tables :=
  {| classRules :=
       {[ "fighter" := {| ClassRule.hitDie := Some 10;
                          ClassRule.savingThrows := None |} ]};
     spellRules :=
       [("cleric",
         [("1", [{| Spell.name := "Cure Light Wounds";
                    Spell.eff := Some {| Spell.heal := Some "1d6+1";
                                         Spell.damage := None |} |}])]);
        ("magic-user",
         [("1", [{| Spell.name := "Magic Missile";
                    Spell.eff := Some {| Spell.heal := None;
                                         Spell.damage := Some "1d4+1" |} |}])])];
     monsterRules :=
       {[ "orc" := {| MonsterRule.hitPoints := None;
                      MonsterRule.hitDice := Some 1;
                      MonsterRule.armorClass := Some 13;
                      MonsterRule.attacks :=
                        Some [{| MonsterRule.damage := Some "1d8" |}] |} ]};
     itemRules :=
       {[ "potion" := {| Item.name := "Potion of Healing";
                         Item.eff := Some {| Item.heal := Some "1d8";
                                             Item.acBonus := None |} |} ]};
     campaignFiles := ∅;
     dialogueFiles := ∅ |}.

(** A world with the given registry in which every [Math.random()]
    returns [u / 2^53]. *)
Definition world_of (gs : gmap string Game.t) (u : Z) : world :=
  {| games := gs; draws := λ _, u; drawn := 0; now := 1700000000000 |}.

Definition rowan : Player.t :=
  {| Player.id := "p1"; Player.name := "Rowan"; Player.character := None |}.

(** A level-1 fighter with 8 hit points. *)
Definition fighter : Character.t :=
  {| Character.name := Some "Mira"; Character.race := Some "human";
     Character.class := Some "fighter"; Character.hp := Number 8;
     Character.ac := Some 10; Character.abilityScores := None;
     Character.savingThrows := None; Character.experience := Some 0;
     Character.level := Some 1; Character.inventory := Some ["potion"];
     Character.status := None |}.

Definition mira : Player.t :=
  {| Player.id := "p2"; Player.name := "Mira"; Player.character := Some fighter |}.

(** The game ["g1"] with Rowan, who has no Character, and Mira. *)
Definition game : Game.t :=
  {| Game.id := "g1"; Game.players := {[ "p1" := rowan; "p2" := mira ]};
     Game.log := []; Game.campaign := None; Game.monsters := ∅ |}.

Definition registry : gmap string Game.t := {[ "g1" := game ]}.

(** Mira with armour class 0. *)
Definition mira_ac0 : Player.t :=
  Player.set_character (Some (Character.set_ac (Some 0) fighter)) mira.

Definition registry_ac0 : gmap string Game.t :=
  {[ "g1" := Game.set_players {[ "p1" := rowan; "p2" := mira_ac0 ]} game ]}.

(** The world after Rowan, who has no Character, is given a potion and
    is then hit by Mira's Magic Missile, every draw being the highest
    possible. *)
Definition nan_world : world :=
  (castSpell tables "g1" "p2" "magic missile" "player" "p1"
     (giveItem tables "g1" "p1" "potion" (world_of registry (two53 - 1))).2).2.

(** The world after Rowan joins the game ["g1"] of an empty registry
    and an orc is spawned there, every draw being the highest
    possible. *)
Definition arena : world :=
  (exec tables (Op_spawnMonster "g1" "orc")
     (exec tables (Op_joinGame "g1" "p1" "Rowan") (world_of ∅ (two53 - 1))).2).2.

(** The game ["g1"] of that world, and the orc in it. *)
Definition arena_game : Game.t :=
  default (new_game "g1") (games arena !! "g1").

Definition orc : Monster.t :=
  {| Monster.instanceId := "m_1700000000000_999"; Monster.type := "orc";
     Monster.hp := 4; Monster.ac := 13; Monster.status := "alive" |}.

(** The object graph of Mira's Character in an otherwise empty heap. *)
Definition fighter_root : Heap.loc := (Heap.build fighter ∅).1.
Definition fighter_heap : gmap Heap.loc Heap.cell := (Heap.build fighter ∅).2.
End Sample.

(** * Properties *)

(** ** Dice *)

Lemma rollDie_of_range sides u :
  1 ≤ sides → 0 ≤ u < two53 → 1 ≤ rollDie_of sides u ≤ sides.
Proof.
  intros Hs [Hu0 Hu1]. unfold rollDie_of.
  assert (H53 : 0 < two53) by (unfold two53; lia).
  assert (0 ≤ u * sides / two53) by (apply Z.div_pos; nia).
  assert (u * sides / two53 < sides) by (apply Z.div_lt_upper_bound; nia).
  lia.
Qed.

(** Every face of a die with at most [2^53] sides is the result of some
    draw. *)
Lemma rollDie_of_onto sides v :
  1 ≤ v ≤ sides → sides ≤ two53 →
  ∃ u, 0 ≤ u < two53 ∧ rollDie_of sides u = v.
Proof.
  intros Hv Hs. assert (H53 : 0 < two53) by (unfold two53; lia).
  (* the least draw that reaches face [v] *)
  set (a := (v - 1) * two53 + sides - 1).
  exists (a / sides).
  pose proof (Z.div_mod a sides ltac:(lia)) as Hdm.
  pose proof (Z.mod_pos_bound a sides ltac:(lia)) as Hmod.
  assert (Hq0 : 0 ≤ a / sides) by (apply Z.div_pos; subst a; nia).
  assert (Hlo : (v - 1) * two53 ≤ a / sides * sides) by (subst a; nia).
  assert (Hhi : a / sides * sides ≤ a) by nia.
  split.
  - split; [done|]. apply Z.div_lt_upper_bound; [lia|]. subst a. nia.
  - unfold rollDie_of.
    assert (a / sides * sides / two53 = v - 1) as ->; [|lia].
    symmetry.
    apply Z.div_unique with (r := a / sides * sides - (v - 1) * two53);
      [left; subst a|]; lia.
Qed.

(** ** The leveling loop *)

Lemma level_loop_eq name e l log :
  level_loop name e l log =
  if loop_guard (e, l, log) then
    level_loop name (e - l * 1000) (l + 1) (log ++ [level_up_line name (l + 1)])
  else (e, l, log).
Proof.
  unfold loop_guard.
  etransitivity; [apply level_loop_equation_1|].
  destruct (decide (l * 1000 ≤ e)) as [H|H]; simpl.
  - by rewrite bool_decide_eq_true_2.
  - by rewrite bool_decide_eq_false_2.
Qed.

Lemma spent_nil l : spent l l = 0.
Proof. unfold spent. by rewrite Z.sub_diag. Qed.

Lemma spent_step l l' : l < l' → spent l l' = l * 1000 + spent (l + 1) l'.
Proof.
  intros H. unfold spent. rewrite (seqZ_cons l (l' - l)) by lia. simpl.
  by replace (Z.succ l) with (l + 1) by lia;
     replace (Z.pred (l' - l)) with (l' - (l + 1)) by lia.
Qed.

Lemma level_lines_step name l l' :
  l < l' →
  level_up_line name <$> seqZ (l + 1) (l' - l) =
  level_up_line name (l + 1) :: (level_up_line name <$> seqZ (l + 1 + 1) (l' - (l + 1))).
Proof.
  intros H. rewrite (seqZ_cons (l + 1) (l' - l)) by lia. simpl.
  by replace (Z.succ (l + 1)) with (l + 1 + 1) by lia;
     replace (Z.pred (l' - l)) with (l' - (l + 1)) by lia.
Qed.

(** What the loop computes, for all integers. *)
Lemma level_loop_spec name e l log e' l' log' :
  level_loop name e l log = (e', l', log') →
  l ≤ l' ∧ e' < l' * 1000 ∧ e = e' + spent l l'
  ∧ log' = log ++ (level_up_line name <$> seqZ (l + 1) (l' - l))
  ∧ (0 ≤ l → 0 ≤ e → 0 ≤ e').
Proof.
  funelim (level_loop name e l log); intros Hres.
  - match goal with IH : ∀ _ _ _, _ → _ |- _ =>
      destruct (IH _ _ _ Hres) as (Hl & He & Hs & Hlog & Hpos) end.
    repeat split.
    + lia.
    + done.
    + rewrite (spent_step l l') by lia. lia.
    + rewrite Hlog, (level_lines_step name l l') by lia.
      by rewrite <- app_assoc.
    + intros. apply Hpos; lia.
  - inversion Hres; subst.
    rewrite spent_nil, Z.sub_diag. simpl. rewrite app_nil_r.
    repeat split; lia.
Qed.

(** The loop is the body iterated as long as the guard holds; for a
    level of at least 1 every iteration raises the level by one and
    lowers the experience by at least 1000, so at most [e / 1000]
    iterations happen. *)
Lemma level_loop_iterations name e l log :
  1 ≤ l →
  ∃ n : nat,
    Z.of_nat n ≤ Z.max 0 (e / 1000)
    ∧ level_loop name e l log = Nat.iter n (loop_body name) (e, l, log)
    ∧ loop_guard (Nat.iter n (loop_body name) (e, l, log)) = false
    ∧ ∀ k, (k < n)%nat →
        let '(ek, lk, _) := Nat.iter k (loop_body name) (e, l, log) in
        let '(ek', lk', _) := Nat.iter (S k) (loop_body name) (e, l, log) in
        loop_guard (Nat.iter k (loop_body name) (e, l, log)) = true
        ∧ 1 ≤ lk ∧ lk' = lk + 1 ∧ ek' = ek - lk * 1000 ∧ ek' ≤ ek - 1000.
Proof.
  funelim (level_loop name e l log); intros Hl.
  - match goal with IH : 1 ≤ _ → _ |- _ =>
      destruct (IH ltac:(lia)) as (n & Hn & Hrun & Hstop & Hsteps) end.
    exists (S n).
    assert (Hshift : ∀ k, Nat.iter k (loop_body name)
                            (e - l * 1000, l + 1, log ++ [level_up_line name (l + 1)])
                          = Nat.iter (S k) (loop_body name) (e, l, log)).
    { intros k. by rewrite Nat.iter_succ_r. }
    repeat split.
    + assert ((e - l * 1000) / 1000 ≤ e / 1000 - 1).
      { replace (e - l * 1000) with (e + (- l) * 1000) by lia.
        rewrite Z.div_add by lia. lia. }
      assert (0 ≤ (e - l * 1000) / 1000) by (apply Z.div_pos; lia). lia.
    + by rewrite <- Hshift.
    + by rewrite <- Hshift.
    + intros [|k] Hk.
      * simpl. rewrite bool_decide_eq_true_2 by done. repeat split; lia.
      * specialize (Hsteps k ltac:(lia)).
        by rewrite <- !Hshift.
  - exists O. simpl. rewrite bool_decide_eq_false_2 by done.
    repeat split; [|lia].
    assert (0 ≤ Z.max 0 (e / 1000)) by lia. lia.
Qed.

(** ** Running the registry primitives *)

Lemma bind_run {A B} (m : M A) (f : A → M B) w :
  (m ≫= f) w = match m w with
               | (Ok a, w') => f a w'
               | (Throw e, w') => (Throw e, w')
               end.
Proof. reflexivity. Qed.

Lemma set_games_same w : set_games (games w) w = w.
Proof. by destruct w. Qed.

Lemma set_games_twice v v' w : set_games v (set_games v' w) = set_games v w.
Proof. reflexivity. Qed.

Lemma alter_Some {A} (f : A → A) (m : gmap string A) k x :
  m !! k = Some x → alter f k m = <[k := f x]> m.
Proof.
  intros H. apply map_eq. intros j. destruct (decide (k = j)) as [->|Hne].
  - by rewrite lookup_alter_eq, lookup_insert_eq, H.
  - by rewrite lookup_alter_ne, lookup_insert_ne.
Qed.

Lemma alter_None {A} (f : A → A) (m : gmap string A) k :
  m !! k = None → alter f k m = m.
Proof.
  intros H. apply map_eq. intros j. destruct (decide (k = j)) as [->|Hne].
  - by rewrite lookup_alter_eq, H.
  - by rewrite lookup_alter_ne.
Qed.

Lemma createGame_old id game w :
  games w !! id = Some game → createGame id w = (Ok game, w).
Proof. intros H. unfold createGame. rewrite bind_run. simpl. by rewrite H. Qed.

Lemma createGame_new id w :
  games w !! id = None →
  createGame id w = (Ok (new_game id), set_games (<[id := new_game id]> (games w)) w).
Proof. intros H. unfold createGame. rewrite bind_run. simpl. by rewrite H. Qed.

Lemma modify_game_run id f w :
  modify_game id f w = (Ok tt, set_games (alter f id (games w)) w).
Proof. reflexivity. Qed.

Lemma appendLog_old id game message w :
  games w !! id = Some game →
  appendLog id message w =
  (Ok tt, set_games (<[id := Game.set_log (Game.log game ++ [message]) game]> (games w)) w).
Proof.
  intros H. unfold appendLog. rewrite bind_run, (createGame_old _ _ _ H).
  rewrite modify_game_run. by rewrite (alter_Some _ _ _ _ H).
Qed.

Lemma appendLog_new id message w :
  games w !! id = None →
  appendLog id message w =
  (Ok tt, set_games (<[id := Game.set_log [message] (new_game id)]> (games w)) w).
Proof.
  intros H. unfold appendLog. rewrite bind_run, (createGame_new _ _ H).
  rewrite modify_game_run. simpl.
  by rewrite (alter_Some _ _ _ (new_game id)), insert_insert_eq
    by apply lookup_insert_eq.
Qed.

Lemma mutate_character_run gameId playerId f game player w :
  games w !! gameId = Some game →
  Game.players game !! playerId = Some player →
  mutate_character gameId playerId f w =
  (Ok tt,
   set_games
     (<[gameId := Game.set_players
                    (<[playerId := Player.set_character (f (Player.character player))
                                     player]> (Game.players game)) game]>
        (games w)) w).
Proof.
  intros Hg Hp. unfold mutate_character. rewrite modify_game_run.
  by rewrite (alter_Some _ _ _ _ Hg), (alter_Some _ _ _ _ Hp).
Qed.

Lemma store_player_run gameId playerId player game w :
  games w !! gameId = Some game →
  store_player gameId playerId player w =
  (Ok tt, set_games (<[gameId := Game.set_players
                                   (<[playerId := player]> (Game.players game)) game]>
                       (games w)) w).
Proof.
  intros H. unfold store_player. rewrite modify_game_run.
  by rewrite (alter_Some _ _ _ _ H).
Qed.

(** ** Experience and levels *)



Lemma setCharacter_run gameId playerId character w :
  let game := default (new_game gameId) (games w !! gameId) in
  let player :=
    default {| Player.id := playerId; Player.name := "Unknown";
               Player.character := None |}
            (Game.players game !! playerId) in
  let player' :=
    Player.set_character
      (Some (merge_character character (Player.character player))) player in
  setCharacter gameId playerId character w =
  (Ok player',
   set_games (<[gameId := Game.set_players
                            (<[playerId := player']> (Game.players game)) game]>
                (games w)) w).
Proof.
  cbv zeta. unfold setCharacter. rewrite bind_run.
  destruct (games w !! gameId) as [game|] eqn:Hg.
  - rewrite (createGame_old _ _ _ Hg), bind_run.
    destruct (Game.players game !! playerId) as [player|] eqn:Hp.
    + unfold mret, M_ret at 1.
      rewrite bind_run, (mutate_character_run _ _ _ _ _ _ Hg Hp).
      simpl. by rewrite Hp.
    + rewrite (store_player_run _ _ _ _ _ Hg), bind_run.
      erewrite mutate_character_run
        by (simpl; first [apply lookup_insert_eq|done]).
      simpl. by rewrite Hp, !insert_insert_eq.
  - rewrite (createGame_new _ _ Hg), bind_run.
    change (Game.players (new_game gameId) !! playerId)
      with ((∅ : gmap string Player.t) !! playerId).
    rewrite lookup_empty.
    rewrite (store_player_run _ _ _ (new_game gameId)) by apply lookup_insert_eq.
    rewrite bind_run.
    erewrite mutate_character_run
      by (simpl; first [apply lookup_insert_eq|done]).
    simpl. by rewrite !insert_insert_eq.
Qed.

Lemma default_progress_level c :
  Character.level (default_progress c) = Some (default 1 (Character.level c)).
Proof.
  unfold default_progress.
  destruct (Character.experience c), (Character.level c) eqn:Hl; simpl;
    by rewrite ?Hl.
Qed.



(** ** Dice notation *)

(** The two patterns match at the same places and capture the same
    count and sides. *)
Lemma match_here_patterns s :
  match_here false s = without_bonus <$> match_here true s.
Proof.
  unfold match_here. destruct (span_digits s) as [[|c cs] [|a r]]; try done.
  destruct (Ascii.eqb_spec a "d") as [->|Hne].
  - by destruct (span_digits r) as [[|d ds] rest].
  - destruct a as [[] [] [] [] [] [] [] []]; try done.
Qed.

Lemma regex_match_patterns s :
  regex_match false s = without_bonus <$> regex_match true s.
Proof.
  induction s as [|a s IH]; simpl.
  - done.
  - rewrite match_here_patterns.
    destruct (match_here true (String a s)); simpl; [done|apply IH].
Qed.

Lemma roll_loop_bonus n sides bonus w :
  roll_loop n sides bonus w =
  match roll_loop n sides 0 w with
  | (Ok r, w') => (Ok (bonus + r), w')
  | (Throw e, w') => (Throw e, w')
  end.
Proof.
  revert bonus w. induction n as [|n IH]; intros bonus w; simpl.
  - unfold mret, M_ret. f_equal. f_equal. lia.
  - rewrite !bind_run. unfold rollDie. rewrite !bind_run. simpl.
    rewrite (IH (bonus + _)), (IH (0 + _)).
    destruct (roll_loop n sides 0 _) as [[r|e] w']; [|done].
    do 2 f_equal. lia.
Qed.

(** Rolling never throws. *)
Lemma roll_loop_ok n sides total w :
  ∃ r, roll_loop n sides total w =
       (Ok r, {| games := games w; draws := draws w;
                 drawn := (n + drawn w)%nat; now := now w |}).
Proof.
  revert total w. induction n as [|n IH]; intros total w; simpl.
  - exists total. by destruct w.
  - rewrite bind_run. unfold rollDie. rewrite bind_run. simpl.
    destruct (IH (total + rollDie_of sides (draws w (drawn w)))
                {| games := games w; draws := draws w;
                   drawn := S (drawn w); now := now w |}) as (r & Hr).
    exists r. rewrite Hr. simpl. do 3 f_equal. lia.
Qed.

(** For the same notation and the same draws, the spell parser returns
    the item parser's result plus the bonus the notation carries. *)
Lemma rollFromNotation_item_heal_roll notation w :
  rollFromNotation notation w =
  match item_heal_roll notation w with
  | (Ok r, w') =>
      (Ok (match regex_match true notation ≫= bonus_str with
           | Some ds => parseInt ds
           | None => 0
           end + r), w')
  | (Throw e, w') => (Throw e, w')
  end.
Proof.
  unfold rollFromNotation, item_heal_roll. rewrite regex_match_patterns.
  destruct (regex_match true notation) as [m|]; simpl; [|done].
  unfold roll_match. by rewrite roll_loop_bonus.
Qed.

(** On a notation without a bonus the two parsers agree. *)
Lemma parsers_agree_without_bonus notation w :
  regex_match true notation ≫= bonus_str = None →
  rollFromNotation notation w = item_heal_roll notation w.
Proof.
  intros H. rewrite rollFromNotation_item_heal_roll, H.
  by destruct (item_heal_roll notation w) as [[r|e] w'].
Qed.

(** On a string that does not contain [<count>d<sides>] both return 0
    and consume no draw. *)
Lemma parsers_malformed notation w :
  regex_match false notation = None →
  rollFromNotation notation w = (Ok 0, w) ∧ item_heal_roll notation w = (Ok 0, w).
Proof.
  intros H. unfold rollFromNotation, item_heal_roll. rewrite H.
  rewrite regex_match_patterns in H.
  by destruct (regex_match true notation).
Qed.

(** C5.  The notation ["1d8+2"] read by the two parsers on the same
    draws: [useItem]'s heal roll is the d8 alone, [rollFromNotation] is
    the same d8 plus 2. *)
Theorem dice_notation_bonus_dropped w :
  let d8 := rollDie_of 8 (draws w (drawn w)) in
  let w' := {| games := games w; draws := draws w; drawn := S (drawn w);
               now := now w |} in
  item_heal_roll "1d8+2" w = (Ok d8, w')
  ∧ rollFromNotation "1d8+2" w = (Ok (2 + d8), w')
  ∧ 2 + d8 ≠ d8.
Proof.
  simpl. split; [|split].
  - reflexivity.
  - unfold rollFromNotation. simpl. unfold roll_match. simpl.
    rewrite bind_run. unfold rollDie. rewrite bind_run. simpl. reflexivity.
  - lia.
Qed.

(** ** Joining *)

Lemma addPlayer_run gameId playerId playerName w :
  let game := default (new_game gameId) (games w !! gameId) in
  let player :=
    default {| Player.id := playerId; Player.name := playerName;
               Player.character := None |}
            (Game.players game !! playerId) in
  addPlayer gameId playerId playerName w =
  (Ok player,
   set_games (<[gameId := Game.set_players
                            (<[playerId := player]> (Game.players game)) game]>
                (games w)) w).
Proof.
  simpl. unfold addPlayer. rewrite bind_run.
  destruct (games w !! gameId) as [game|] eqn:Hg; simpl.
  - rewrite (createGame_old _ _ _ Hg).
    destruct (Game.players game !! playerId) as [player|] eqn:Hp; simpl.
    + rewrite (insert_id (Game.players game)) by done.
      replace (Game.set_players (Game.players game) game) with game
        by by destruct game.
      by rewrite insert_id, set_games_same.
    + by rewrite bind_run, (store_player_run _ _ _ _ _ Hg).
  - rewrite (createGame_new _ _ Hg). simpl. rewrite lookup_empty.
    rewrite bind_run.
    rewrite (store_player_run _ _ _ (new_game gameId)) by apply lookup_insert_eq.
    simpl. by rewrite insert_insert_eq.
Qed.

Lemma joinGame_run gameId playerId playerName w :
  let game := default (new_game gameId) (games w !! gameId) in
  let player :=
    default {| Player.id := playerId; Player.name := playerName;
               Player.character := None |}
            (Game.players game !! playerId) in
  joinGame gameId playerId playerName w =
  (Ok player,
   set_games
     (<[gameId := Game.set_log (Game.log game ++ [playerName +:+ " joined the game."])
                    (Game.set_players (<[playerId := player]> (Game.players game))
                       game)]> (games w)) w).
Proof.
  simpl. unfold joinGame. rewrite bind_run, addPlayer_run. simpl.
  rewrite bind_run.
  erewrite appendLog_old by (simpl; apply lookup_insert_eq).
  simpl. by rewrite insert_insert_eq.
Qed.



(** ** Player against player *)

Lemma rollDie_run sides w :
  rollDie sides w =
  (Ok (rollDie_of sides (draws w (drawn w))),
   {| games := games w; draws := draws w; drawn := S (drawn w); now := now w |}).
Proof. reflexivity. Qed.

Lemma attack_run w gameId attackerId targetId game attacker target :
  games w !! gameId = Some game →
  Game.players game !! attackerId = Some attacker →
  Game.players game !! targetId = Some target →
  let roll := rollDie_of 20 (draws w (drawn w)) in
  let damage := rollDie_of 6 (draws w (S (drawn w))) in
  let c := wound damage (Player.character target) in
  attack gameId attackerId targetId w =
  if num_or (Player.character target ≫= Character.ac) 10 <=? roll then
    (Ok {| AttackResult.attacker := Player.name attacker;
           AttackResult.target := Player.name target;
           AttackResult.roll := roll;
           AttackResult.hit := true;
           AttackResult.damage := damage;
           AttackResult.targetRemainingHp := Some (Character.hp c) |},
     {| games := <[gameId := Game.set_players
                               (<[targetId := Player.set_character (Some c) target]>
                                  (Game.players game)) game]> (games w);
        draws := draws w; drawn := S (S (drawn w)); now := now w |})
  else
    (Ok {| AttackResult.attacker := Player.name attacker;
           AttackResult.target := Player.name target;
           AttackResult.roll := roll;
           AttackResult.hit := false;
           AttackResult.damage := 0;
           AttackResult.targetRemainingHp := Character.hp <$> Player.character target |},
     {| games := games w; draws := draws w; drawn := S (drawn w); now := now w |}).
Proof.
  intros Hg Ha Ht. simpl. unfold attack, getGame.
  rewrite !bind_run. simpl. rewrite Hg, Ha, Ht.
  rewrite bind_run, rollDie_run.
  destruct (_ <=? _); [|done].
  rewrite bind_run, rollDie_run, bind_run.
  by erewrite mutate_character_run by first [exact Hg|exact Ht].
Qed.

Lemma num_or_armour_class target :
  num_or (Player.character target ≫= Character.ac) 10 =
  if armour_class target =? 0 then 10 else armour_class target.
Proof.
  unfold armour_class, num_or.
  destruct (Player.character target ≫= Character.ac) as [z|]; simpl; [|done].
  by destruct (z =? 0).
Qed.

Lemma wound_hp damage target :
  Character.hp (wound damage (Player.character target)) =
  js_sub (hit_points target) damage.
Proof.
  unfold wound, hit_points.
  destruct (Player.character target) as [c|]; simpl.
  - destruct (typeof_number (Character.hp c)) eqn:Hty; simpl;
      by destruct (js_le0 _).
  - by destruct (js_le0 _).
Qed.

Lemma fair_sample gs u : 0 ≤ u < two53 → fair (Sample.world_of gs u).
Proof. intros H n. exact H. Qed.




(** C9.  For a target without a Character: when [attack] hits, the
    target afterwards has the Character [{ hp: -damage, status:
    'unconscious' }] and the report gives [-damage] as the remaining hit
    points; when it misses, the target still has no Character.  And for
    any target, the [null] report is given exactly when the target has
    no Character and the attack misses. *)
Theorem attack_characterless_target w gameId attackerId targetId game attacker target :
  games w !! gameId = Some game →
  Game.players game !! attackerId = Some attacker →
  Game.players game !! targetId = Some target →
  fair w →
  ∃ res w',
    attack gameId attackerId targetId w = (Ok res, w')
    ∧ (Player.character target = None → AttackResult.hit res = true →
         1 ≤ AttackResult.damage res ≤ 6
         ∧ char_at (games w') gameId targetId =
             Some (Character.set_status (Some "unconscious")
                     (Character.set_hp (Number (- AttackResult.damage res))
                        Character.empty))
         ∧ AttackResult.targetRemainingHp res =
             Some (Number (- AttackResult.damage res)))
    ∧ (Player.character target = None → AttackResult.hit res = false →
         char_at (games w') gameId targetId = None)
    ∧ (AttackResult.targetRemainingHp res = None
       ↔ Player.character target = None ∧ AttackResult.hit res = false).
Proof.
  intros Hg Ha Ht Hfair.
  rewrite (attack_run _ _ _ _ _ _ _ Hg Ha Ht).
  pose proof (rollDie_of_range 6 _ ltac:(lia) (Hfair (S (drawn w)))) as Hdmg.
  set (damage := rollDie_of 6 (draws w (S (drawn w)))) in *.
  destruct (_ <=? _); eexists _, _; (split; [reflexivity|]); simpl.
  - split; [|split; [done|]].
    + intros Hnone _. rewrite Hnone. split; [done|].
      unfold char_at, player_at. rewrite lookup_insert_eq. simpl.
      rewrite lookup_insert_eq. simpl. unfold wound, js_le0, js_sub. simpl.
      replace (0 - damage <=? 0) with true by (symmetry; apply Z.leb_le; lia).
      by replace (0 - damage) with (- damage) by lia.
    + split; [done|]. by intros [_ ?].
  - split; [done|]. split.
    + intros Hnone _. unfold char_at, player_at. rewrite Hg. simpl.
      rewrite Ht. simpl. done.
    + destruct (Player.character target); simpl; split; try done.
      by intros [? _].
Qed.

Lemma attack_characterless_target_witness :
  ∃ res w',
    attack "g1" "p2" "p1" (Sample.world_of Sample.registry (2 ^ 52)) = (Ok res, w')
    ∧ char_at (games w') "g1" "p1" =
        Some (Character.set_status (Some "unconscious")
                (Character.set_hp (Number (- 4)) Character.empty))
    ∧ AttackResult.targetRemainingHp res = Some (Number (- 4)).
Proof.
  destruct (attack_characterless_target (Sample.world_of Sample.registry (2 ^ 52))
              "g1" "p2" "p1" Sample.game Sample.mira Sample.rowan
              eq_refl eq_refl eq_refl
              (fair_sample Sample.registry (2 ^ 52)
                 ltac:(vm_compute; split; [discriminate|reflexivity])))
    as (res & w' & Hrun & Hhit & _).
  exists res, w'. split; [exact Hrun|].
  assert (Hres : (Ok res, w')
                 = attack "g1" "p2" "p1" (Sample.world_of Sample.registry (2 ^ 52)))
    by (symmetry; exact Hrun).
  vm_compute in Hres. inversion Hres as [[Hr Hw]].
  destruct (Hhit eq_refl ltac:(by rewrite Hr)) as (_ & Hc & Hrep).
  rewrite Hr in Hc, Hrep. rewrite Hw in Hc. split; [exact Hc|exact Hrep].
Defined.

(** ** Effects on the registry, compositionally *)

Create HintDb engine.

Section Effects.
Context (R : relation (gmap string Game.t)) `{!PreOrder R}.

Lemma preserves_ret {A} (a : A) : preserves R (mret a).
Proof. intros w. reflexivity. Qed.

Lemma preserves_throw {A} (e : exn) : preserves R (throw (A := A) e).
Proof. intros w. reflexivity. Qed.

Lemma preserves_bind {A B} (m : M A) (f : A → M B) :
  preserves R m → (∀ a, preserves R (f a)) → preserves R (m ≫= f).
Proof.
  intros Hm Hf w. rewrite bind_run. specialize (Hm w).
  destruct (m w) as [[a|e] w'] eqn:Hmw; simpl in *; [|done].
  etransitivity; [exact Hm|apply Hf].
Qed.

Lemma preserves_get_games : preserves R get_games.
Proof. intros w. reflexivity. Qed.

Lemma preserves_Math_random : preserves R Math_random.
Proof. intros w. reflexivity. Qed.

Lemma preserves_Date_now : preserves R Date_now.
Proof. intros w. reflexivity. Qed.

Lemma preserves_rollDie sides : preserves R (rollDie sides).
Proof. intros w. reflexivity. Qed.

Lemma preserves_roll_loop n sides total : preserves R (roll_loop n sides total).
Proof.
  intros w. destruct (roll_loop_ok n sides total w) as (r & ->). reflexivity.
Qed.

Lemma preserves_getGame id : preserves R (getGame id).
Proof. intros w. reflexivity. Qed.

Lemma preserves_getPlayer g p : preserves R (getPlayer g p).
Proof.
  intros w. unfold getPlayer. rewrite bind_run. simpl.
  destruct (games w !! g); reflexivity.
Qed.

Lemma preserves_getMonster g i : preserves R (getMonster g i).
Proof.
  intros w. unfold getMonster. rewrite bind_run. simpl.
  destruct (games w !! g); reflexivity.
Qed.

Lemma preserves_exportCharacter g p : preserves R (exportCharacter g p).
Proof.
  intros w. unfold exportCharacter. rewrite bind_run. simpl.
  destruct (games w !! g) as [game|]; [|reflexivity].
  destruct (Game.players game !! p) as [player|]; [|reflexivity].
  destruct (Player.character player); reflexivity.
Qed.

Lemma preserves_roll_match m : preserves R (roll_match m).
Proof. apply preserves_roll_loop. Qed.

Lemma preserves_rollFromNotation s : preserves R (rollFromNotation s).
Proof.
  unfold rollFromNotation. destruct (regex_match true s).
  - apply preserves_roll_match.
  - apply preserves_ret.
Qed.

Lemma preserves_item_heal_roll s : preserves R (item_heal_roll s).
Proof.
  unfold item_heal_roll. destruct (regex_match false s).
  - apply preserves_roll_loop.
  - apply preserves_ret.
Qed.
End Effects.

Global Hint Resolve preserves_ret preserves_throw preserves_get_games
  preserves_Math_random preserves_Date_now preserves_rollDie preserves_roll_loop
  preserves_getGame preserves_getPlayer preserves_getMonster
  preserves_exportCharacter preserves_roll_match preserves_rollFromNotation
  preserves_item_heal_roll : engine.

Lemma never_ret {A} (a : A) : never_throws (mret a).
Proof. intros w. by exists a. Qed.

Lemma never_bind {A B} (m : M A) (f : A → M B) :
  never_throws m → (∀ a, never_throws (f a)) → never_throws (m ≫= f).
Proof.
  intros Hm Hf w. rewrite bind_run. destruct (Hm w) as (a & Ha).
  destruct (m w) as [[a'|e] w']; simpl in *; [|done]. apply Hf.
Qed.

Lemma never_modify_game id f : never_throws (modify_game id f).
Proof. intros w. by exists tt. Qed.

Lemma never_store_player g p player : never_throws (store_player g p player).
Proof. apply never_modify_game. Qed.

Lemma never_mutate_character g p f : never_throws (mutate_character g p f).
Proof. apply never_modify_game. Qed.

Lemma never_store_monster g i m : never_throws (store_monster g i m).
Proof. apply never_modify_game. Qed.

Lemma never_strike_monster g i d : never_throws (strike_monster g i d).
Proof. apply never_modify_game. Qed.

Lemma never_createGame id : never_throws (createGame id).
Proof.
  intros w. unfold createGame. rewrite bind_run. simpl.
  destruct (games w !! id); by eexists.
Qed.

Lemma never_appendLog id message : never_throws (appendLog id message).
Proof. apply never_bind; [apply never_createGame|intros; apply never_modify_game]. Qed.

Lemma never_rollDie sides : never_throws (rollDie sides).
Proof. intros w. by eexists. Qed.

Lemma never_roll_loop n sides total : never_throws (roll_loop n sides total).
Proof. intros w. destruct (roll_loop_ok n sides total w) as (r & ->). by exists r. Qed.

Lemma never_Date_now : never_throws Date_now.
Proof. intros w. by eexists. Qed.

Lemma never_Math_random : never_throws Math_random.
Proof. intros w. by eexists. Qed.

Global Hint Resolve never_ret never_modify_game never_store_player
  never_mutate_character
  never_store_monster never_strike_monster never_createGame never_appendLog
  never_rollDie never_roll_loop never_Date_now never_Math_random : engine.

Lemma atomic_preserves {A} (m : M A) : preserves eq m → atomic m.
Proof. intros H w e _. symmetry. apply H. Qed.

Lemma atomic_never {A} (m : M A) : never_throws m → atomic m.
Proof. intros H w e He. destruct (H w) as (a & Ha). congruence. Qed.

Lemma atomic_throw {A} (e : exn) : atomic (throw (A := A) e).
Proof. by intros w e' _. Qed.

Lemma atomic_bind {A B} (m : M A) (f : A → M B) :
  preserves eq m → (∀ a, atomic (f a)) → atomic (m ≫= f).
Proof.
  intros Hm Hf w e. rewrite bind_run. specialize (Hm w).
  destruct (m w) as [[a|e'] w'] eqn:Hmw; simpl in *; [|by intros].
  intros He. rewrite (Hf a w' e He). done.
Qed.

Lemma atomic_bind_never {A B} (m : M A) (f : A → M B) :
  atomic m → (∀ a, never_throws (f a)) → atomic (m ≫= f).
Proof.
  intros Hm Hf w e. rewrite bind_run. specialize (Hm w).
  destruct (m w) as [[a|e'] w'] eqn:Hmw; simpl in *.
  - intros He. destruct (Hf a w') as (b & Hb). congruence.
  - intros _. by apply (Hm e').
Qed.

(** Structural proofs: a prefix that leaves the registry alone, ended
    by a [throw], or followed by steps that cannot fail. *)
Ltac never_tac :=
  repeat first
    [ progress cbv zeta
    | match goal with
      | |- never_throws (mret _) => apply never_ret
      | |- never_throws (_ ≫= _) => apply never_bind; [|intros ?]
      | |- never_throws (match ?x with _ => _ end) => destruct x
      end
    | solve [eauto with engine] ].

Ltac atomic_tac :=
  repeat first
    [ progress cbv zeta
    | match goal with
      | |- atomic (throw _) => apply atomic_throw
      | |- atomic (_ ≫= _) =>
          first
            [ apply atomic_bind;
              [solve [eauto with engine typeclass_instances]|intros ?]
            | apply atomic_bind_never; [|intros ?; solve [never_tac]] ]
      | |- atomic (match ?x with _ => _ end) => destruct x
      end
    | apply atomic_never; solve [never_tac] ].

(** ** Failures of the operations *)

Lemma attack_atomic g a t : atomic (attack g a t).
Proof. unfold attack. atomic_tac. Qed.

Lemma attackMonster_atomic g a m : atomic (attackMonster g a m).
Proof. unfold attackMonster. atomic_tac. Qed.

Lemma monsterAttack_atomic T g m t : atomic (monsterAttack T g m t).
Proof. unfold monsterAttack. atomic_tac. Qed.

Lemma spawnMonster_atomic T g ty : atomic (spawnMonster T g ty).
Proof. unfold spawnMonster, models.spawnMonster. atomic_tac. Qed.

Lemma startDialogue_atomic T g p d c : atomic (startDialogue T g p d c).
Proof.
  unfold startDialogue. atomic_tac.
Qed.

Lemma selectCampaign_atomic T g c : atomic (selectCampaign T g c).
Proof. unfold selectCampaign. atomic_tac. Qed.

Lemma castSpell_atomic T g c s ty t : atomic (castSpell T g c s ty t).
Proof. unfold castSpell. atomic_tac. Qed.

(** [giveItem] for a game that is not registered: the game is created
    by [addItemToPlayer], and then [player.name] fails on [null]. *)
Lemma giveItem_unknown_game T g p i item w :
  itemRules T !! i = Some item →
  games w !! g = None →
  giveItem T g p i w =
  (Throw (TypeError "Cannot read properties of null (reading 'name')"),
   set_games (<[g := new_game g]> (games w)) w).
Proof.
  intros Hi Hg. unfold giveItem, addItemToPlayer. rewrite Hi.
  rewrite !bind_run, (createGame_new _ _ Hg). simpl.
  by rewrite lookup_empty.
Qed.

(** When the game is registered a failure of [giveItem] leaves the
    registry as it was. *)
Lemma giveItem_atomic_known_game T g p i w e :
  is_Some (games w !! g) →
  (giveItem T g p i w).1 = Throw e →
  games (giveItem T g p i w).2 = games w.
Proof.
  intros [game Hg]. unfold giveItem, addItemToPlayer.
  destruct (itemRules T !! i) as [item|]; [|done].
  rewrite !bind_run, (createGame_old _ _ _ Hg).
  destruct (Game.players game !! p) as [player|] eqn:Hp; [|done].
  rewrite bind_run, (mutate_character_run _ _ _ _ _ _ Hg Hp). simpl.
  erewrite bind_run, appendLog_old by apply lookup_insert_eq. done.
Qed.

(** C6.  [giveItem] of a known item in a game that does not exist
    fails with a [TypeError] and leaves a new, empty game ["g2"] in the
    registry. *)
Theorem giveItem_not_atomic :
  let w := Sample.world_of Sample.registry 0 in
  games w !! "g2" = None
  ∧ ∃ w',
      giveItem Sample.tables "g2" "p1" "potion" w =
        (Throw (TypeError "Cannot read properties of null (reading 'name')"), w')
      ∧ games w' !! "g2" = Some (new_game "g2")
      ∧ games w' ≠ games w.
Proof.
  simpl. split; [reflexivity|].
  eexists. split; [by eapply giveItem_unknown_game|].
  simpl. split; [apply lookup_insert_eq|].
  intros H. apply (f_equal (λ gs, gs !! "g2")) in H.
  rewrite lookup_insert_eq in H. discriminate H.
Qed.

(** ** Exporting a Character *)

Lemma exportCharacter_run g p w :
  exportCharacter g p w =
  (Ok (Character.json_roundtrip <$> char_at (games w) g p), w).
Proof.
  unfold exportCharacter, char_at, player_at. rewrite bind_run. simpl.
  destruct (games w !! g) as [game|]; simpl; [|done].
  destruct (Game.players game !! p) as [player|]; simpl; [|done].
  by destruct (Player.character player).
Qed.

Lemma char_at_None gs g p :
  char_at gs g p = None ↔
  gs !! g = None
  ∨ (∃ game, gs !! g = Some game ∧ Game.players game !! p = None)
  ∨ (∃ game player, gs !! g = Some game ∧ Game.players game !! p = Some player
                    ∧ Player.character player = None).
Proof.
  unfold char_at, player_at.
  destruct (gs !! g) as [game|]; simpl; [|by split; [left|]].
  destruct (Game.players game !! p) as [player|] eqn:Hp; simpl.
  - split.
    + intros Hc. right. right. by exists game, player.
    + intros [H|[(g0 & H1 & H2)|(g0 & p0 & H1 & H2 & H3)]].
      * discriminate H.
      * congruence.
      * congruence.
  - split; [|done]. intros _. right. left. by exists game.
Qed.

Lemma json_roundtrip_id c :
  Character.hp c ≠ NaN → Character.json_roundtrip c = c.
Proof.
  intros H. unfold Character.json_roundtrip. destruct c as [? ? ? hp0 ? ? ? ? ? ? ?].
  simpl in *. by destruct hp0.
Qed.

Module HeapFacts.
Import Heap.

Lemma alloc_spec c (h : gmap loc cell) :
  h !! (alloc c h).1 = None ∧ (alloc c h).2 = <[(alloc c h).1 := c]> h.
Proof.
  unfold alloc. simpl. split; [|done].
  apply not_elem_of_dom, is_fresh.
Qed.

Lemma extends_refl h : extends h h.
Proof. by intros l _. Qed.

Lemma extends_trans h1 h2 h3 : extends h1 h2 → extends h2 h3 → extends h1 h3.
Proof.
  intros H12 H23 l Hl. rewrite <- (H12 l Hl). apply H23. by rewrite (H12 l Hl).
Qed.

Lemma extends_insert h l c : h !! l = None → extends h (<[l := c]> h).
Proof.
  intros Hl l' [c' Hl']. apply lookup_insert_ne. intros ->. congruence.
Qed.

Lemma alloc_opt_spec co (h : gmap loc cell) i h' :
  alloc_opt co h = (i, h') →
  extends h h'
  ∧ match co with
    | Some c => ∃ l, i = Some l ∧ h !! l = None ∧ h' !! l = Some c
    | None => i = None
    end.
Proof.
  destruct co as [c|]; unfold alloc; simpl; intros Heq;
    injection Heq as <- <-.
  - destruct (alloc_spec c h) as [Hfresh _]. unfold alloc in *. simpl in *.
    split; [by apply extends_insert|].
    eexists. split; [done|]. split; [done|apply lookup_insert_eq].
  - split; [apply extends_refl|done].
Qed.

Lemma content_char (h : gmap loc cell) root own i a s :
  h !! root = Some (CharObj own i a s) →
  content h root =
  inv ← read_arr h i;
  abil ← read_tab h a;
  sav ← read_tab h s;
  Some {| Character.name := name own; Character.race := race own;
          Character.class := class own; Character.hp := hp own;
          Character.ac := ac own; Character.abilityScores := abil;
          Character.savingThrows := sav;
          Character.experience := experience own;
          Character.level := level own; Character.inventory := inv;
          Character.status := status own |}.
Proof. intros H. unfold content. by rewrite H. Qed.

Lemma content_extends h h' root c :
  content h root = Some c → extends h h' → content h' root = Some c.
Proof.
  unfold content. intros Hc Hext.
  destruct (h !! root) as [[own i a s| |]|] eqn:Hroot; try done.
  rewrite (Hext root) by (by rewrite Hroot). rewrite Hroot.
  assert (Harr : ∀ r v, read_arr h r = Some v → read_arr h' r = Some v).
  { intros [l|] v; simpl; [|done].
    destruct (h !! l) as [cl|] eqn:Hl; [|done].
    by rewrite (Hext l), Hl by (by rewrite Hl). }
  assert (Htab : ∀ r v, read_tab h r = Some v → read_tab h' r = Some v).
  { intros [l|] v; simpl; [|done].
    destruct (h !! l) as [cl|] eqn:Hl; [|done].
    by rewrite (Hext l), Hl by (by rewrite Hl). }
  destruct (read_arr h i) as [inv|] eqn:Hi; [|done].
  destruct (read_tab h a) as [abil|] eqn:Ha; [|done].
  destruct (read_tab h s) as [sav|] eqn:Hs; [|done].
  by rewrite (Harr _ _ Hi), (Htab _ _ Ha), (Htab _ _ Hs).
Qed.

(** The graph built for [c]: it has content [c], all its objects are
    new, it refers only to its own objects, and the heap it was built
    in is extended. *)
Lemma build_spec c (h : gmap loc cell) :
  let root := (build c h).1 in
  let h' := (build c h).2 in
  extends h h'
  ∧ content h' root = Some c
  ∧ (∀ l, l ∈ footprint h' root → h !! l = None)
  ∧ (∀ l cl, l ∈ footprint h' root → h' !! l = Some cl → refs cl ⊆ footprint h' root).
Proof.
  unfold build.
  destruct (alloc_opt (ArrObj <$> Character.inventory c) h) as [i h1] eqn:X1.
  destruct (alloc_opt (TabObj <$> Character.abilityScores c) h1) as [a h2] eqn:X2.
  destruct (alloc_opt (TabObj <$> Character.savingThrows c) h2) as [s h3] eqn:X3.
  destruct (alloc_opt_spec _ _ _ _ X1) as [E1 A1].
  destruct (alloc_opt_spec _ _ _ _ X2) as [E2 A2].
  destruct (alloc_opt_spec _ _ _ _ X3) as [E3 A3].
  clear X1 X2 X3. unfold alloc. simpl.
  set (root := fresh (dom h3)).
  match goal with |- context [<[root := ?cl]> h3] => set (root_cell := cl) end.
  assert (Hfresh : h3 !! root = None) by apply not_elem_of_dom, is_fresh.
  assert (E4 : extends h3 (<[root := root_cell]> h3)) by by apply extends_insert.
  assert (E03 : extends h h3) by eauto using extends_trans.
  assert (E13 : extends h1 h3) by eauto using extends_trans.
  assert (Hold : ∀ l, is_Some (h !! l) → l ≠ root).
  { intros l Hl ->. rewrite (E03 root Hl) in Hfresh.
    destruct Hl as [x Hx]. congruence. }
  assert (Hi : ∀ l, i = Some l →
            h !! l = None
            ∧ <[root := root_cell]> h3 !! l
              = ArrObj <$> Character.inventory c).
  { intros l ->. destruct (Character.inventory c) as [inv|]; simpl in *; [|done].
    destruct A1 as (l' & Heq & Hn & Hl); assert (l' = l) as -> by congruence.
    split; [done|].
    assert (S1 : is_Some (h1 !! l)) by by rewrite Hl.
    assert (S3 : is_Some (h3 !! l)) by by rewrite (E13 l S1).
    by rewrite (E4 l S3), (E13 l S1). }
  assert (Ha : ∀ l, a = Some l →
            h !! l = None
            ∧ <[root := root_cell]> h3 !! l
              = TabObj <$> Character.abilityScores c).
  { intros l ->. destruct (Character.abilityScores c) as [abil|]; simpl in *; [|done].
    destruct A2 as (l' & Heq & Hn & Hl); assert (l' = l) as -> by congruence.
    split.
    - destruct (h !! l) eqn:Hhl; [|done].
      assert (S0 : is_Some (h !! l)) by by rewrite Hhl.
      rewrite (E1 l S0) in Hn. congruence.
    - assert (S2 : is_Some (h2 !! l)) by by rewrite Hl.
      assert (S3 : is_Some (h3 !! l)) by by rewrite (E3 l S2).
      by rewrite (E4 l S3), (E3 l S2). }
  assert (Hs : ∀ l, s = Some l →
            h !! l = None
            ∧ <[root := root_cell]> h3 !! l
              = TabObj <$> Character.savingThrows c).
  { intros l ->. destruct (Character.savingThrows c) as [sav|]; simpl in *; [|done].
    destruct A3 as (l' & Heq & Hn & Hl); assert (l' = l) as -> by congruence.
    split.
    - destruct (h !! l) eqn:Hhl; [|done].
      assert (S0 : is_Some (h !! l)) by by rewrite Hhl.
      assert (S1 : is_Some (h1 !! l)) by by rewrite (E1 l S0).
      rewrite (E2 l S1), (E1 l S0) in Hn. congruence.
    - assert (S3 : is_Some (h3 !! l)) by by rewrite Hl.
      by rewrite (E4 l S3). }
  assert (Hfoot : footprint (<[root := root_cell]> h3) root
                  = {[root]} ∪ (ref_set i ∪ ref_set a ∪ ref_set s)).
  { unfold footprint. by rewrite lookup_insert_eq. }
  split; [eauto using extends_trans|]. split; [|split].
  - assert (Ri : read_arr (<[root := root_cell]> h3) i = Some (Character.inventory c)).
    { destruct (Character.inventory c) as [inv|]; simpl in *.
      - destruct A1 as (l & Heq & _). destruct (Hi l Heq) as [_ Hl].
        rewrite Heq. simpl. by rewrite Hl.
      - by rewrite A1. }
    assert (Ra : read_tab (<[root := root_cell]> h3) a
                 = Some (Character.abilityScores c)).
    { destruct (Character.abilityScores c) as [abil|]; simpl in *.
      - destruct A2 as (l & Heq & _). destruct (Ha l Heq) as [_ Hl].
        rewrite Heq. simpl. by rewrite Hl.
      - by rewrite A2. }
    assert (Rs : read_tab (<[root := root_cell]> h3) s
                 = Some (Character.savingThrows c)).
    { destruct (Character.savingThrows c) as [sav|]; simpl in *.
      - destruct A3 as (l & Heq & _). destruct (Hs l Heq) as [_ Hl].
        rewrite Heq. simpl. by rewrite Hl.
      - by rewrite A3. }
    erewrite content_char by apply lookup_insert_eq.
    rewrite Ri, Ra, Rs. simpl. by destruct c.
  - intros l. rewrite Hfoot.
    rewrite !elem_of_union, elem_of_singleton.
    intros [->|[[Hl|Hl]|Hl]].
    + destruct (h !! root) eqn:Hr; [|done]. by destruct (Hold root).
    + destruct i as [l'|]; simpl in Hl; [|set_solver].
      apply elem_of_singleton in Hl as ->. by destruct (Hi l' eq_refl).
    + destruct a as [l'|]; simpl in Hl; [|set_solver].
      apply elem_of_singleton in Hl as ->. by destruct (Ha l' eq_refl).
    + destruct s as [l'|]; simpl in Hl; [|set_solver].
      apply elem_of_singleton in Hl as ->. by destruct (Hs l' eq_refl).
  - intros l cl. rewrite Hfoot.
    rewrite !elem_of_union, elem_of_singleton.
    intros [->|[[Hl|Hl]|Hl]] Hcl.
    + rewrite lookup_insert_eq in Hcl. inversion Hcl; subst cl. subst root_cell.
      simpl. set_solver.
    + destruct i as [l'|]; simpl in Hl; [|set_solver].
      apply elem_of_singleton in Hl as ->. destruct (Hi l' eq_refl) as [_ Hl].
      rewrite Hl in Hcl. destruct (Character.inventory c); simpl in Hcl; [|done].
      injection Hcl as <-. set_solver.
    + destruct a as [l'|]; simpl in Hl; [|set_solver].
      apply elem_of_singleton in Hl as ->. destruct (Ha l' eq_refl) as [_ Hl].
      rewrite Hl in Hcl. destruct (Character.abilityScores c); simpl in Hcl; [|done].
      injection Hcl as <-. set_solver.
    + destruct s as [l'|]; simpl in Hl; [|set_solver].
      apply elem_of_singleton in Hl as ->. destruct (Hs l' eq_refl) as [_ Hl].
      rewrite Hl in Hcl. destruct (Character.savingThrows c); simpl in Hcl; [|done].
      injection Hcl as <-. set_solver.
Qed.

(** Mutations by the receiver touch no object of the heap [h] in which
    the export was made. *)
Lemma mutate_all_extends (h : gmap loc cell) ms known hc known' hc' :
  (∀ l, l ∈ known → h !! l = None) →
  extends h hc →
  mutate_all (known, hc) ms = Some (known', hc') →
  extends h hc'.
Proof.
  revert known hc. induction ms as [|m ms IH]; intros known hc Hknown Hext Hrun.
  - simpl in Hrun. by injection Hrun as <- <-.
  - simpl in Hrun. destruct m as [l c|c]; simpl in Hrun.
    + destruct (decide (l ∈ known ∧ refs c ⊆ known)) as [[Hl _]|]; [|done].
      eapply IH; [exact Hknown| |exact Hrun].
      intros l' Hl'. rewrite lookup_insert_ne; [by apply Hext|].
      intros ->. rewrite (Hknown _ Hl) in Hl'. by destruct Hl'.
    + destruct (decide (refs c ⊆ known)); [|done].
      destruct (alloc_spec c hc) as [Hfresh Heq]. unfold alloc in *. simpl in *.
      assert (Hnew : h !! fresh (dom hc) = None).
      { destruct (h !! fresh (dom hc)) eqn:Hh; [|done].
        pose proof (Hext _ (mk_is_Some _ _ Hh)). congruence. }
      eapply IH; [| |exact Hrun].
      * intros l. rewrite elem_of_union, elem_of_singleton. intros [->|Hl]; auto.
      * intros l' Hl'. rewrite lookup_insert_ne; [by apply Hext|].
        intros <-. rewrite Hnew in Hl'. by destruct Hl'.
Qed.
End HeapFacts.




(** ** Players and monsters across the registry primitives *)

Global Instance same_players_preorder : PreOrder same_players.
Proof.
  split; [by intros gs g p|].
  intros gs1 gs2 gs3 H12 H23 g p. by rewrite H23, H12.
Qed.

Global Instance same_monsters_preorder : PreOrder same_monsters.
Proof.
  split; [by intros gs g i|].
  intros gs1 gs2 gs3 H12 H23 g i. by rewrite H23, H12.
Qed.

Global Instance same_status_preorder : PreOrder same_status.
Proof.
  split; [by intros gs g p|].
  intros gs1 gs2 gs3 H12 H23 g p. by rewrite H23, H12.
Qed.

Lemma same_players_status gs gs' : same_players gs gs' → same_status gs gs'.
Proof. intros H g p. unfold status_at, char_at. by rewrite H. Qed.

Lemma player_at_alter f g gs g' p' :
  player_at (alter f g gs) g' p' =
  if decide (g = g') then gs !! g ≫= λ game, Game.players (f game) !! p'
  else player_at gs g' p'.
Proof.
  unfold player_at. destruct (decide (g = g')) as [->|Hne].
  - rewrite lookup_alter_eq. by destruct (gs !! g').
  - by rewrite lookup_alter_ne.
Qed.

Lemma monster_at_alter f g gs g' i' :
  monster_at (alter f g gs) g' i' =
  if decide (g = g') then gs !! g ≫= λ game, Game.monsters (f game) !! i'
  else monster_at gs g' i'.
Proof.
  unfold monster_at. destruct (decide (g = g')) as [->|Hne].
  - rewrite lookup_alter_eq. by destruct (gs !! g').
  - by rewrite lookup_alter_ne.
Qed.

Lemma player_at_new_game g gs g' p' :
  gs !! g = None → player_at (<[g := new_game g]> gs) g' p' = player_at gs g' p'.
Proof.
  intros Hg. unfold player_at. destruct (decide (g = g')) as [->|Hne].
  - rewrite lookup_insert_eq, Hg. simpl. apply lookup_empty.
  - by rewrite lookup_insert_ne.
Qed.

Lemma monster_at_new_game g gs g' i' :
  gs !! g = None → monster_at (<[g := new_game g]> gs) g' i' = monster_at gs g' i'.
Proof.
  intros Hg. unfold monster_at. destruct (decide (g = g')) as [->|Hne].
  - rewrite lookup_insert_eq, Hg. simpl. apply lookup_empty.
  - by rewrite lookup_insert_ne.
Qed.

Lemma createGame_players id : preserves same_players (createGame id).
Proof.
  intros w g p. destruct (games w !! id) as [game|] eqn:Hg.
  - by rewrite (createGame_old _ _ _ Hg).
  - rewrite (createGame_new _ _ Hg). simpl. by apply player_at_new_game.
Qed.

Lemma createGame_monsters id : preserves same_monsters (createGame id).
Proof.
  intros w g i. destruct (games w !! id) as [game|] eqn:Hg.
  - by rewrite (createGame_old _ _ _ Hg).
  - rewrite (createGame_new _ _ Hg). simpl. by apply monster_at_new_game.
Qed.

Lemma modify_game_players id f :
  (∀ game, Game.players (f game) = Game.players game) →
  preserves same_players (modify_game id f).
Proof.
  intros Hf w g p. rewrite modify_game_run. simpl. rewrite player_at_alter.
  destruct (decide (id = g)) as [->|]; [|done].
  unfold player_at. destruct (games w !! g); simpl; [by rewrite Hf|done].
Qed.

Lemma modify_game_monsters id f :
  (∀ game, Game.monsters (f game) = Game.monsters game) →
  preserves same_monsters (modify_game id f).
Proof.
  intros Hf w g i. rewrite modify_game_run. simpl. rewrite monster_at_alter.
  destruct (decide (id = g)) as [->|]; [|done].
  unfold monster_at. destruct (games w !! g); simpl; [by rewrite Hf|done].
Qed.

Lemma appendLog_players id message : preserves same_players (appendLog id message).
Proof.
  apply preserves_bind; [apply _|apply createGame_players|].
  intros _. by apply modify_game_players.
Qed.

Lemma appendLog_monsters id message : preserves same_monsters (appendLog id message).
Proof.
  apply preserves_bind; [apply _|apply createGame_monsters|].
  intros _. by apply modify_game_monsters.
Qed.

Lemma appendLog_status id message : preserves same_status (appendLog id message).
Proof. intros w. apply same_players_status, appendLog_players. Qed.

Lemma createGame_status id : preserves same_status (createGame id).
Proof. intros w. apply same_players_status, createGame_players. Qed.

Lemma store_player_monsters g p player : preserves same_monsters (store_player g p player).
Proof. by apply modify_game_monsters. Qed.

Lemma mutate_character_monsters g p f :
  preserves same_monsters (mutate_character g p f).
Proof. by apply modify_game_monsters. Qed.

Lemma store_monster_players g i m : preserves same_players (store_monster g i m).
Proof. by apply modify_game_players. Qed.

Lemma strike_monster_players g i d : preserves same_players (strike_monster g i d).
Proof. by apply modify_game_players. Qed.

Lemma store_monster_status g i m : preserves same_status (store_monster g i m).
Proof. intros w. apply same_players_status, store_monster_players. Qed.

Lemma strike_monster_status g i d : preserves same_status (strike_monster g i d).
Proof. intros w. apply same_players_status, strike_monster_players. Qed.

Lemma set_log_players g l : preserves same_players (modify_game g (Game.set_log l)).
Proof. by apply modify_game_players. Qed.

Lemma set_log_monsters g l : preserves same_monsters (modify_game g (Game.set_log l)).
Proof. by apply modify_game_monsters. Qed.

Lemma set_campaign_players g c :
  preserves same_players (modify_game g (Game.set_campaign c)).
Proof. by apply modify_game_players. Qed.

Lemma set_campaign_monsters g c :
  preserves same_monsters (modify_game g (Game.set_campaign c)).
Proof. by apply modify_game_monsters. Qed.

Global Hint Resolve createGame_players createGame_monsters createGame_status
  appendLog_players appendLog_monsters appendLog_status
  store_player_monsters mutate_character_monsters
  store_monster_players strike_monster_players
  store_monster_status strike_monster_status
  set_log_players set_log_monsters set_campaign_players set_campaign_monsters
  : engine.

(** Structural proofs that a computation keeps a relation. *)
Ltac preserves_tac :=
  repeat first
    [ progress cbv zeta
    | match goal with
      | |- preserves _ (mret _) => apply preserves_ret; apply _
      | |- preserves _ (throw _) => apply preserves_throw; apply _
      | |- preserves _ (_ ≫= _) => apply preserves_bind; [apply _| |intros ?]
      | |- preserves _ (match ?x with _ => _ end) => destruct x
      end
    | solve [eauto with engine typeclass_instances] ].

(** ** Characters across the registry primitives *)

Lemma char_at_mutate f g p gs g' p' :
  char_at
    (alter (λ game,
              Game.set_players
                (alter (λ player, Player.set_character (f (Player.character player))
                                    player) p (Game.players game)) game) g gs) g' p' =
  if decide (g = g' ∧ p = p')
  then player_at gs g p ≫= λ player, f (Player.character player)
  else char_at gs g' p'.
Proof.
  unfold char_at. rewrite player_at_alter. unfold player_at.
  destruct (decide (g = g')) as [->|Hg].
  - destruct (gs !! g') as [game|]; simpl.
    + destruct (decide (p = p')) as [->|Hp].
      * rewrite decide_True by done. rewrite lookup_alter_eq.
        by destruct (Game.players game !! p').
      * rewrite decide_False by (by intros [_ ?]). by rewrite lookup_alter_ne.
    + by destruct (decide _).
  - by rewrite decide_False by (by intros [? _]).
Qed.

Lemma mutate_character_games g p f w :
  games (mutate_character g p f w).2 =
  alter (λ game,
           Game.set_players
             (alter (λ player, Player.set_character (f (Player.character player))
                                 player) p (Game.players game)) game) g (games w).
Proof. reflexivity. Qed.

Lemma mutate_character_status g p f :
  (∀ c, f c ≫= Character.status = c ≫= Character.status) →
  preserves same_status (mutate_character g p f).
Proof.
  intros Hf w g' p'. rewrite mutate_character_games.
  unfold status_at. rewrite char_at_mutate.
  destruct (decide (g = g' ∧ p = p')) as [[-> ->]|]; [|done].
  unfold char_at. destruct (player_at (games w) g' p'); simpl; [apply Hf|done].
Qed.

Lemma push_item_status item c :
  Some (push_item item c) ≫= Character.status = c ≫= Character.status.
Proof. by destruct c. Qed.

Lemma mutate_push_item_status g p item :
  preserves same_status (mutate_character g p (λ c, Some (push_item item c))).
Proof. apply mutate_character_status, push_item_status. Qed.

Lemma mutate_fmap_status g p (f : Character.t → Character.t) :
  (∀ c, Character.status (f c) = Character.status c) →
  preserves same_status (mutate_character g p (fmap f)).
Proof.
  intros Hf. apply mutate_character_status. intros [c|]; simpl; [apply Hf|done].
Qed.

Lemma mutate_mend_status g p amount :
  preserves same_status (mutate_character g p (fmap (mend amount))).
Proof. by apply mutate_fmap_status. Qed.

Lemma mutate_mend_default_status g p amount :
  preserves same_status
    (mutate_character g p
       (λ c, Some (mend amount
                     (default (Character.set_hp (Number 0) Character.empty) c)))).
Proof. apply mutate_character_status. by intros [c|]. Qed.

Lemma mutate_inventory_status g p inv :
  preserves same_status
    (mutate_character g p (fmap (Character.set_inventory inv))).
Proof. by apply mutate_fmap_status. Qed.

Lemma mutate_ac_status g p (ac : Character.t → option Z) :
  preserves same_status
    (mutate_character g p (fmap (λ c, Character.set_ac (ac c) c))).
Proof. by apply mutate_fmap_status. Qed.

Lemma mutate_progress_status g p l e :
  preserves same_status
    (mutate_character g p
       (fmap (λ c, Character.set_level l (Character.set_experience e c)))).
Proof. by apply mutate_fmap_status. Qed.

Lemma store_player_status_new g p player w :
  player_at (games w) g p = None →
  Player.character player = None →
  same_status (games w) (games (store_player g p player w).2).
Proof.
  intros Hnew Hc g' p'. unfold store_player. rewrite modify_game_run. simpl.
  unfold status_at, char_at. rewrite player_at_alter.
  destruct (decide (g = g')) as [<-|]; [|done].
  unfold player_at in *. destruct (games w !! g) as [game|]; simpl in *; [|done].
  destruct (decide (p = p')) as [<-|].
  - by rewrite lookup_insert_eq, Hnew, ?Hc; simpl; rewrite ?Hc.
  - by rewrite lookup_insert_ne.
Qed.

Lemma set_log_status g l : preserves same_status (modify_game g (Game.set_log l)).
Proof. intros w. apply same_players_status, set_log_players. Qed.

Lemma set_campaign_status g c :
  preserves same_status (modify_game g (Game.set_campaign c)).
Proof. intros w. apply same_players_status, set_campaign_players. Qed.

Global Hint Resolve set_log_status set_campaign_status : engine.

(** The mutators are told apart by their shape, without unfolding them. *)
Global Hint Extern 1
  (preserves same_status (mutate_character _ _ (λ c, Some (push_item _ c)))) =>
  apply mutate_push_item_status : engine.
Global Hint Extern 1
  (preserves same_status (mutate_character _ _ (fmap (mend _)))) =>
  apply mutate_mend_status : engine.
Global Hint Extern 1
  (preserves same_status (mutate_character _ _ (λ c, Some (mend _ (default _ c))))) =>
  apply mutate_mend_default_status : engine.
Global Hint Extern 1
  (preserves same_status (mutate_character _ _ (fmap (Character.set_inventory _)))) =>
  apply mutate_inventory_status : engine.
Global Hint Extern 1
  (preserves same_status
     (mutate_character _ _ (fmap (λ c, Character.set_ac _ c)))) =>
  apply mutate_ac_status : engine.
Global Hint Extern 1
  (preserves same_status
     (mutate_character _ _
        (fmap (λ c, Character.set_level _ (Character.set_experience _ c))))) =>
  apply mutate_progress_status : engine.

Lemma addPlayer_status g p n : preserves same_status (addPlayer g p n).
Proof.
  intros w. unfold addPlayer. rewrite bind_run.
  pose proof (createGame_status g w) as H1.
  destruct (games w !! g) as [game|] eqn:Hg.
  - rewrite (createGame_old _ _ _ Hg).
    destruct (Game.players game !! p) as [player|] eqn:Hp; [reflexivity|].
    rewrite bind_run. apply store_player_status_new; [|done].
    unfold player_at. by rewrite Hg.
  - rewrite (createGame_new _ _ Hg) in *. simpl in *. rewrite lookup_empty.
    rewrite bind_run. etransitivity; [exact H1|].
    apply store_player_status_new; [|done].
    unfold player_at. simpl. by rewrite lookup_insert_eq.
Qed.

Lemma addItemToPlayer_status g p i : preserves same_status (addItemToPlayer g p i).
Proof. unfold addItemToPlayer. preserves_tac. Qed.

Lemma removeItemFromPlayer_status g p i : preserves same_status (removeItemFromPlayer g p i).
Proof. unfold removeItemFromPlayer. preserves_tac. Qed.

Lemma addExperience_status g p xp : preserves same_status (addExperience g p xp).
Proof. unfold addExperience. preserves_tac. Qed.

Global Hint Resolve addPlayer_status addItemToPlayer_status
  removeItemFromPlayer_status addExperience_status : engine.

Lemma joinGame_status g p n : preserves same_status (joinGame g p n).
Proof. unfold joinGame. preserves_tac. Qed.

Lemma giveItem_status T g p i : preserves same_status (giveItem T g p i).
Proof. unfold giveItem. preserves_tac. Qed.

Lemma useItem_status T g p i : preserves same_status (useItem T g p i).
Proof. unfold useItem. preserves_tac. Qed.

Lemma spawnMonster_status T g ty : preserves same_status (spawnMonster T g ty).
Proof. unfold spawnMonster, models.spawnMonster. preserves_tac. Qed.

Lemma startDialogue_status T g p d c : preserves same_status (startDialogue T g p d c).
Proof. unfold startDialogue. preserves_tac. Qed.

Lemma selectCampaign_status T g c : preserves same_status (selectCampaign T g c).
Proof. unfold selectCampaign. preserves_tac. Qed.

Lemma attackMonster_status g a m : preserves same_status (attackMonster g a m).
Proof. unfold attackMonster. preserves_tac. Qed.

Lemma player_name_status g p : preserves same_status (player_name g p).
Proof. unfold player_name. preserves_tac. Qed.

Global Hint Resolve player_name_status : engine.

Lemma award_items_status g p items : preserves same_status (award_items g p items).
Proof. induction items as [|item rest IH]; simpl; preserves_tac. Qed.

Global Hint Resolve award_items_status : engine.

Lemma award_status g p reward : preserves same_status (award g p reward).
Proof. unfold award. preserves_tac. Qed.

Global Hint Resolve award_status : engine.

Lemma chooseDialogueOption_status T g p d c n i :
  preserves same_status (chooseDialogueOption T g p d c n i).
Proof. unfold chooseDialogueOption. preserves_tac. Qed.

(** ** Damage and the unconscious status *)

Lemma same_status_struck g p gs gs' : same_status gs gs' → struck g p gs gs'.
Proof. intros H g' p'. left. apply H. Qed.

Lemma struck_after_status g p gs1 gs2 gs3 :
  same_status gs1 gs2 → struck g p gs2 gs3 → struck g p gs1 gs3.
Proof.
  intros H12 H23 g' p'. destruct (H23 g' p') as [H|H]; [|by right].
  left. by rewrite H, H12.
Qed.

Lemma struck_before_players g p gs1 gs2 gs3 :
  struck g p gs1 gs2 → same_players gs2 gs3 → struck g p gs1 gs3.
Proof.
  intros H12 H23 g' p'.
  assert (Hc : ∀ g0 p0, char_at gs3 g0 p0 = char_at gs2 g0 p0)
    by (intros; unfold char_at; by rewrite H23).
  destruct (H12 g' p') as [H|(-> & -> & Hun & Hdown)].
  - left. unfold status_at in *. by rewrite Hc.
  - right. unfold unconscious, down, status_at in *. by rewrite !Hc.
Qed.

Lemma struck_bind_l {A B} g p (m : M A) (f : A → M B) :
  preserves same_status m → (∀ a, preserves (struck g p) (f a)) →
  preserves (struck g p) (m ≫= f).
Proof.
  intros Hm Hf w. rewrite bind_run. specialize (Hm w).
  destruct (m w) as [[a|e] w'] eqn:Hmw; simpl in *.
  - eapply struck_after_status; [exact Hm|apply Hf].
  - by apply same_status_struck.
Qed.

Lemma struck_bind_r {A B} g p (m : M A) (f : A → M B) :
  preserves (struck g p) m → (∀ a, preserves same_players (f a)) →
  preserves (struck g p) (m ≫= f).
Proof.
  intros Hm Hf w. rewrite bind_run. specialize (Hm w).
  destruct (m w) as [[a|e] w'] eqn:Hmw; simpl in *; [|done].
  eapply struck_before_players; [exact Hm|apply Hf].
Qed.

Lemma struck_weaken {A} g p (m : M A) :
  preserves same_status m → preserves (struck g p) m.
Proof. intros H w. apply same_status_struck, H. Qed.

Lemma wound_down damage c : down_means_unconscious (wound damage c).
Proof.
  intros z Hz Hle. unfold wound in *.
  destruct (js_le0 _) eqn:Hjs; [done|].
  unfold js_le0 in Hjs. rewrite Hz in Hjs. simpl in Hjs.
  apply Z.leb_gt in Hjs. lia.
Qed.

Lemma spell_wound_down damage c : down_means_unconscious (spell_wound damage c).
Proof.
  intros z Hz Hle. unfold spell_wound in *.
  destruct (js_le0 _) eqn:Hjs; [done|].
  unfold js_le0 in Hjs. rewrite Hz in Hjs. simpl in Hjs.
  apply Z.leb_gt in Hjs. lia.
Qed.

Lemma js_le0_down v : js_le0 v = true → typeof_number v = true →
  ∃ z, v = Number z ∧ z ≤ 0.
Proof.
  destruct v as [| |z|]; try done. intros H _. exists z. split; [done|].
  by apply Z.leb_le.
Qed.

Lemma wound_status damage c :
  Character.status (wound damage c) = c ≫= Character.status
  ∨ (Character.status (wound damage c) = Some "unconscious"
     ∧ ∃ z, Character.hp (wound damage c) = Number z ∧ z ≤ 0).
Proof.
  unfold wound.
  set (c1 := if typeof_number _ then _ else _).
  assert (Hs : Character.status c1 = c ≫= Character.status).
  { subst c1. destruct c as [c|]; simpl; [|done].
    by destruct (typeof_number (Character.hp c)). }
  assert (Ht : typeof_number (Character.hp c1) = true).
  { subst c1. destruct c as [c|]; simpl; [|done].
    by destruct (typeof_number (Character.hp c)) eqn:?. }
  destruct (js_le0 _) eqn:Hjs; [right|by left].
  split; [done|]. simpl in *. apply js_le0_down; [done|].
  unfold js_sub. by destruct (to_number _).
Qed.

Lemma spell_wound_status damage c :
  Character.status (spell_wound damage c) = c ≫= Character.status
  ∨ (Character.status (spell_wound damage c) = Some "unconscious"
     ∧ ∃ z, Character.hp (spell_wound damage c) = Number z ∧ z ≤ 0).
Proof.
  unfold spell_wound.
  set (c0 := match c with Some _ => _ | None => _ end).
  assert (Hs : Character.status c0 = c ≫= Character.status)
    by (subst c0; by destruct c).
  destruct (js_le0 _) eqn:Hjs; [right|by left].
  split; [done|]. simpl in *. apply js_le0_down; [done|].
  unfold js_sub. by destruct (to_number _).
Qed.

Lemma mutate_character_struck g p (f : option Character.t → Character.t) :
  (∀ c, Character.status (f c) = c ≫= Character.status
        ∨ (Character.status (f c) = Some "unconscious"
           ∧ ∃ z, Character.hp (f c) = Number z ∧ z ≤ 0)) →
  preserves (struck g p) (mutate_character g p (λ c, Some (f c))).
Proof.
  intros Hf w g' p'. rewrite mutate_character_games.
  unfold unconscious, down, status_at.
  rewrite !(char_at_mutate (λ c, Some (f c)) g p (games w)).
  destruct (decide (g = g' ∧ p = p')) as [[<- <-]|]; [|by left].
  unfold char_at. destruct (player_at (games w) g p) as [player|]; simpl; [|by left].
  destruct (Hf (Player.character player)) as [H|[H (z & Hz & Hle)]]; [by left|right].
  split; [done|]. split; [done|]. split; [done|]. by eexists _, _.
Qed.

Lemma mutate_wound_struck g p damage :
  preserves (struck g p) (mutate_character g p (λ c, Some (wound damage c))).
Proof. apply (mutate_character_struck g p (wound damage)), wound_status. Qed.

Lemma mutate_spell_wound_struck g p damage :
  preserves (struck g p) (mutate_character g p (λ c, Some (spell_wound damage c))).
Proof. apply (mutate_character_struck g p (spell_wound damage)), spell_wound_status. Qed.

Global Hint Extern 1
  (preserves (struck _ _) (mutate_character _ _ (λ c, Some (wound _ c)))) =>
  apply mutate_wound_struck : engine.
Global Hint Extern 1
  (preserves (struck _ _) (mutate_character _ _ (λ c, Some (spell_wound _ c)))) =>
  apply mutate_spell_wound_struck : engine.

(** Structural proofs of [struck]: steps that keep every status, then a
    step that strikes, then steps that keep every player. *)
Ltac struck_tac :=
  repeat first
    [ progress cbv zeta
    | match goal with
      | |- preserves (struck _ _) (_ ≫= _) =>
          first
            [ apply struck_bind_l; [solve [preserves_tac]|intros ?]
            | apply struck_bind_r; [|intros ?; solve [preserves_tac]] ]
      | |- preserves (struck _ _) (match ?x with _ => _ end) => destruct x
      end
    | solve [eauto with engine]
    | apply struck_weaken; solve [preserves_tac] ].

Lemma attack_struck g a t : preserves (struck g t) (attack g a t).
Proof. unfold attack. struck_tac. Qed.

Lemma monsterAttack_struck T g m t : preserves (struck g t) (monsterAttack T g m t).
Proof. unfold monsterAttack. struck_tac. Qed.

Lemma castSpell_struck T g c s ty t : preserves (struck g t) (castSpell T g c s ty t).
Proof. unfold castSpell. struck_tac. Qed.

Lemma castSpell_status T g c s ty t :
  ty ≠ "player" → preserves same_status (castSpell T g c s ty t).
Proof.
  intros Hty. unfold castSpell.
  destruct (findSpellByName T s); [|preserves_tac].
  apply preserves_bind; [apply _|preserves_tac|]. intros [game|]; [|preserves_tac].
  destruct (Game.players game !! c); [|preserves_tac].
  rewrite decide_False by done.
  destruct (decide (ty = "monster")); [|preserves_tac].
  destruct (Game.monsters game !! t); simpl; preserves_tac.
Qed.

Lemma same_players_char gs gs' g p :
  same_players gs gs' → char_at gs' g p = char_at gs g p.
Proof. intros H. unfold char_at. by rewrite H. Qed.

Lemma hurt_bind_l {A B} g p (m : M A) (f : A → M B) :
  preserves same_players m → (∀ a, preserves (hurt g p) (f a)) →
  preserves (hurt g p) (m ≫= f).
Proof.
  intros Hm Hf w. rewrite bind_run. specialize (Hm w).
  destruct (m w) as [[a|e] w'] eqn:Hmw; simpl in *.
  - unfold hurt. rewrite <- (same_players_char _ _ g p Hm). apply Hf.
  - left. by apply same_players_char.
Qed.

Lemma hurt_bind_r {A B} g p (m : M A) (f : A → M B) :
  preserves (hurt g p) m → (∀ a, preserves same_players (f a)) →
  preserves (hurt g p) (m ≫= f).
Proof.
  intros Hm Hf w. rewrite bind_run. specialize (Hm w).
  destruct (m w) as [[a|e] w'] eqn:Hmw; simpl in *; [|done].
  unfold hurt. by rewrite (same_players_char _ _ g p (Hf a w')).
Qed.

Lemma hurt_weaken {A} g p (m : M A) :
  preserves same_players m → preserves (hurt g p) m.
Proof. intros H w. left. apply same_players_char, H. Qed.

Lemma mutate_character_hurt g p (f : option Character.t → Character.t) :
  (∀ c, down_means_unconscious (f c)) →
  preserves (hurt g p) (mutate_character g p (λ c, Some (f c))).
Proof.
  intros Hf w. unfold hurt. rewrite mutate_character_games.
  rewrite (char_at_mutate (λ c, Some (f c)) g p (games w)).
  rewrite decide_True by done. unfold char_at.
  destruct (player_at (games w) g p) as [player|]; simpl; [|by left].
  right. eexists. split; [done|]. apply Hf.
Qed.

Lemma mutate_wound_hurt g p damage :
  preserves (hurt g p) (mutate_character g p (λ c, Some (wound damage c))).
Proof. apply (mutate_character_hurt g p (wound damage)), wound_down. Qed.

Lemma mutate_spell_wound_hurt g p damage :
  preserves (hurt g p) (mutate_character g p (λ c, Some (spell_wound damage c))).
Proof. apply (mutate_character_hurt g p (spell_wound damage)), spell_wound_down. Qed.

Global Hint Extern 1
  (preserves (hurt _ _) (mutate_character _ _ (λ c, Some (wound _ c)))) =>
  apply mutate_wound_hurt : engine.
Global Hint Extern 1
  (preserves (hurt _ _) (mutate_character _ _ (λ c, Some (spell_wound _ c)))) =>
  apply mutate_spell_wound_hurt : engine.

Ltac hurt_tac :=
  repeat first
    [ progress cbv zeta
    | match goal with
      | |- preserves (hurt _ _) (_ ≫= _) =>
          first
            [ apply hurt_bind_l; [solve [preserves_tac]|intros ?]
            | apply hurt_bind_r; [|intros ?; solve [preserves_tac]] ]
      | |- preserves (hurt _ _) (match ?x with _ => _ end) => destruct x
      end
    | solve [eauto with engine]
    | apply hurt_weaken; solve [preserves_tac] ].

Lemma attack_hurt g a t : preserves (hurt g t) (attack g a t).
Proof. unfold attack. hurt_tac. Qed.

Lemma monsterAttack_hurt T g m t : preserves (hurt g t) (monsterAttack T g m t).
Proof. unfold monsterAttack. hurt_tac. Qed.

(** A spell whose effect is not healing. *)
Lemma castSpell_hurt T g c s ty t spell :
  findSpellByName T s = Some spell →
  str_or (Spell.eff spell ≫= Spell.heal) "" = "" →
  preserves (hurt g t) (castSpell T g c s ty t).
Proof.
  intros Hs Hheal. unfold castSpell. rewrite Hs.
  apply hurt_bind_l; [preserves_tac|]. intros [game|]; [|hurt_tac].
  destruct (Game.players game !! c); [|hurt_tac].
  cbv zeta. destruct (_ : option spell_target); [|hurt_tac].
  rewrite Hheal. rewrite decide_False by (by intros H; apply H).
  hurt_tac.
Qed.

(** *** [handleAction] *)

Lemma handleAction_struck T g p t ty :
  preserves (struck g t) (handleAction T g p (Attack t ty)).
Proof.
  unfold handleAction.
  pose proof (attack_struck g p t). pose proof (attackMonster_status g p t).
  struck_tac.
Qed.

Lemma handleAction_attack_monster_status T g p t :
  preserves same_status (handleAction T g p (Attack t "monster")).
Proof.
  unfold handleAction. pose proof (attackMonster_status g p t).
  apply preserves_bind; [apply _|preserves_tac|]. intros [game|]; [|preserves_tac].
  destruct (Game.players game !! p); [|preserves_tac].
  rewrite decide_True by done. preserves_tac.
Qed.

Lemma handleAction_cast_struck T g p sn si ty t :
  preserves (struck g t) (handleAction T g p (CastSpell sn si ty t)).
Proof.
  unfold handleAction.
  pose proof (castSpell_struck T g p (str_or sn (str_or si "")) ty t).
  struck_tac.
Qed.

Lemma handleAction_cast_status T g p sn si ty t :
  ty ≠ "player" →
  preserves same_status (handleAction T g p (CastSpell sn si ty t)).
Proof.
  intros Hty. unfold handleAction.
  pose proof (castSpell_status T g p (str_or sn (str_or si "")) ty t Hty).
  preserves_tac.
Qed.

Lemma handleAction_roll_status T g p sides :
  preserves same_status (handleAction T g p (Roll sides)).
Proof. unfold handleAction. preserves_tac. Qed.

Lemma handleAction_unknown_status T g p json :
  preserves same_status (handleAction T g p (Unknown json)).
Proof. unfold handleAction. preserves_tac. Qed.

(** *** [createCharacter] *)

Lemma merge_character_status payload c :
  Character.status (merge_character payload c) =
  Character.over (Character.status payload) (c ≫= Character.status).
Proof.
  unfold merge_character, default_progress.
  destruct (Character.experience _), (Character.level _) eqn:Hl; simpl;
    rewrite ?Hl; simpl; by destruct c.
Qed.

Lemma prepare_character_status rule rolled c :
  Character.status (prepare_character rule rolled c) = Character.status c.
Proof.
  unfold prepare_character. cbv zeta.
  destruct (rule ≫= ClassRule.savingThrows); simpl.
  - destruct (Character.abilityScores _); simpl; by destruct rolled.
  - destruct (Character.abilityScores _); simpl;
      destruct (Character.savingThrows _); simpl; by destruct rolled.
Qed.

Lemma setCharacter_status_at g p payload w g' p' :
  status_at (games (setCharacter g p payload w).2) g' p' =
  if decide (g = g' ∧ p = p')
  then Character.over (Character.status payload) (status_at (games w) g p)
  else status_at (games w) g' p'.
Proof.
  rewrite setCharacter_run. simpl. unfold status_at, char_at, player_at.
  destruct (decide (g = g')) as [<-|Hg].
  - rewrite lookup_insert_eq. simpl.
    destruct (decide (p = p')) as [<-|Hp].
    + rewrite decide_True by done. rewrite lookup_insert_eq. simpl.
      rewrite merge_character_status. f_equal.
      destruct (games w !! g) as [game|]; simpl; [|done].
      by destruct (Game.players game !! p).
    + rewrite decide_False by (by intros [_ ?]). rewrite lookup_insert_ne by done.
      destruct (games w !! g) as [game|]; simpl; [done|]. by rewrite lookup_empty.
  - rewrite decide_False by (by intros [? _]). by rewrite lookup_insert_ne.
Qed.

Lemma createCharacter_status_at T g p payload w g' p' :
  status_at (games (createCharacter T g p payload w).2) g' p' =
  if decide (g = g' ∧ p = p')
  then Character.over (Character.status payload) (status_at (games w) g p)
  else status_at (games w) g' p'.
Proof.
  unfold createCharacter. cbv zeta. rewrite bind_run.
  set (rule := classRules T !! _).
  set (roll := match num_or _ 0 with 0 => _ | _ => _ end).
  assert (Hroll : ∃ rolled w1, roll w = (Ok rolled, w1) ∧ games w1 = games w).
  { subst roll. destruct (num_or _ 0); by eexists _, _. }
  destruct Hroll as (rolled & w1 & -> & Hw1).
  rewrite bind_run.
  pose proof (setCharacter_status_at g p (prepare_character rule rolled payload) w1)
    as Hset.
  rewrite setCharacter_run in *. simpl in Hset.
  rewrite bind_run.
  match goal with |- context [appendLog g ?msg ?w2] =>
    pose proof (appendLog_status g msg w2 g' p') as Hlog;
    destruct (never_appendLog g msg w2) as ([] & Hok);
    destruct (appendLog g msg w2) as [[[]|e] w3]; [|done] end.
  simpl in *. rewrite Hlog, Hset, prepare_character_status, Hw1. done.
Qed.

(** ** The unconscious status *)

Lemma exec_status T o w g p :
  status_at (games (exec T o w).2) g p = status_at (games w) g p
  ∨ (strikes o g p ∧ unconscious (games (exec T o w).2) g p
     ∧ down (games (exec T o w).2) g p)
  ∨ (∃ s, supplies_status o g p s ∧ status_at (games (exec T o w).2) g p = Some s).
Proof.
  assert (Hkeep : ∀ {A} (m : M A),
            preserves same_status m →
            status_at (games ((m ≫= λ _, mret tt) w).2) g p = status_at (games w) g p).
  { intros A m Hm. rewrite bind_run. specialize (Hm w g p).
    by destruct (m w) as [[a|e] w']. }
  assert (Hstruck : ∀ {A} (m : M A) g0 t0,
            preserves (struck g0 t0) m →
            status_at (games ((m ≫= λ _, mret tt) w).2) g p = status_at (games w) g p
            ∨ (g = g0 ∧ p = t0 ∧ unconscious (games ((m ≫= λ _, mret tt) w).2) g p
               ∧ down (games ((m ≫= λ _, mret tt) w).2) g p)).
  { intros A m g0 t0 Hm. rewrite bind_run. specialize (Hm w g p).
    by destruct (m w) as [[a|e] w']. }
  destruct o as [g0 p0 n0|g0 p0 a|g0 p0 c0|g0 c0|g0 t0|g0 p0 i0|g0 p0 i0|g0 p0 d0 c0
                |g0 p0 d0 c0 n0 i0|g0 p0|g0 a0 t0|g0 a0 m0|g0 m0 t0|g0 c0 s0 ty0 t0
                |g0 m0]; simpl.
  - left. apply Hkeep, joinGame_status.
  - destruct a as [sides|t ty|sn si ty t|json].
    + left. apply Hkeep, handleAction_roll_status.
    + destruct (decide (ty = "monster")) as [->|Hty].
      * left. apply Hkeep, handleAction_attack_monster_status.
      * destruct (Hstruck _ _ _ _ (handleAction_struck T g0 p0 t ty))
          as [H|(-> & -> & H)]; [by left|right; left]. split; [done|exact H].
    + destruct (decide (ty = "player")) as [->|Hty].
      * destruct (Hstruck _ _ _ _ (handleAction_cast_struck T g0 p0 sn si "player" t))
          as [H|(-> & -> & H)]; [by left|right; left]. split; [done|exact H].
      * left. by apply Hkeep, handleAction_cast_status.
    + left. apply Hkeep, handleAction_unknown_status.
  - rewrite bind_run.
    pose proof (createCharacter_status_at T g0 p0 c0 w g p) as Hc.
    destruct (createCharacter T g0 p0 c0 w) as [[a|e] w']; simpl in *;
      (destruct (decide (g0 = g ∧ p0 = p)) as [[-> ->]|]; [|by left]);
      (destruct (Character.status c0) as [s|] eqn:Hs; simpl in Hc; [|by left]);
      right; right; by exists s.
  - left. apply Hkeep, selectCampaign_status.
  - left. apply Hkeep, spawnMonster_status.
  - left. apply Hkeep, giveItem_status.
  - left. apply Hkeep, useItem_status.
  - left. apply Hkeep, startDialogue_status.
  - left. apply Hkeep, chooseDialogueOption_status.
  - left. apply Hkeep. intros w0. apply same_players_status.
    apply (preserves_exportCharacter same_players).
  - destruct (Hstruck _ _ _ _ (attack_struck g0 a0 t0))
      as [H|(-> & -> & H)]; [by left|right; left]. split; [done|exact H].
  - left. apply Hkeep, attackMonster_status.
  - destruct (Hstruck _ _ _ _ (monsterAttack_struck T g0 m0 t0))
      as [H|(-> & -> & H)]; [by left|right; left]. split; [done|exact H].
  - destruct (decide (ty0 = "player")) as [->|Hty].
    + destruct (Hstruck _ _ _ _ (castSpell_struck T g0 c0 s0 "player" t0))
        as [H|(-> & -> & H)]; [by left|right; left]. split; [done|exact H].
    + left. by apply Hkeep, castSpell_status.
  - left. apply appendLog_status.
Qed.

(** C2, as the code has it.  In a step of the engine a player's status
    becomes "unconscious" only when the step is damage aimed at that
    player ([attack], [monsterAttack] or a spell on a player) that
    leaves the hit points at an integer [<= 0], or when it is a
    [createCharacter] whose payload supplies that status; once
    "unconscious" the status stays so, unless a [createCharacter]
    payload supplies another one; and whenever [attack], [monsterAttack]
    or a spell that does not heal changes the target's Character, that
    Character is unconscious if its hit points are [<= 0]. *)
Theorem unconscious_status_law T w o g p :
  let gs := games w in
  let gs' := games (exec T o w).2 in
  (unconscious gs' g p → ¬ unconscious gs g p →
     (strikes o g p ∧ down gs' g p) ∨ supplies_status o g p "unconscious")
  ∧ (unconscious gs g p →
       unconscious gs' g p ∨ ∃ s, supplies_status o g p s ∧ s ≠ "unconscious")
  ∧ (∀ a, hurt g p gs (games (attack g a p w).2))
  ∧ (∀ m, hurt g p gs (games (monsterAttack T g m p w).2))
  ∧ (∀ c s spell,
       findSpellByName T s = Some spell →
       str_or (Spell.eff spell ≫= Spell.heal) "" = "" →
       hurt g p gs (games (castSpell T g c s "player" p w).2)).
Proof.
  cbv zeta. unfold unconscious.
  split; [|split; [|split; [|split]]].
  - intros Hnow Hbefore.
    destruct (exec_status T o w g p) as [H|[(Hs & _ & Hd)|(s & Hs & H)]].
    + congruence.
    + by left.
    + right. congruence.
  - intros Hbefore.
    destruct (exec_status T o w g p) as [H|[(_ & Hu & _)|(s & Hs & H)]].
    + left. congruence.
    + by left.
    + destruct (decide (s = "unconscious")) as [->|Hne]; [by left|].
      right. by exists s.
  - intros a. apply attack_hurt.
  - intros m. apply monsterAttack_hurt.
  - intros c s spell Hs Hheal. by eapply castSpell_hurt.
Qed.

(** C2 as stated fails for [createCharacter]: a payload with the status
    "unconscious" and 5 hit points makes a player without a Character
    unconscious at 5 hit points, and a second payload with the status
    "awake" clears it. *)
Lemma createCharacter_changes_status :
  let payload s :=
    Character.set_status (Some s)
      (Character.set_hp (Number 5) Character.empty) in
  let w0 := Sample.world_of Sample.registry 0 in
  let w1 := (exec Sample.tables (Op_createCharacter "g1" "p1" (payload "unconscious"))
               w0).2 in
  let w2 := (exec Sample.tables (Op_createCharacter "g1" "p1" (payload "awake")) w1).2 in
  ¬ unconscious (games w0) "g1" "p1"
  ∧ unconscious (games w1) "g1" "p1"
  ∧ (char_at (games w1) "g1" "p1" ≫= hp_int) = Some 5
  ∧ ¬ strikes (Op_createCharacter "g1" "p1" (payload "unconscious")) "g1" "p1"
  ∧ ¬ unconscious (games w2) "g1" "p1".
Proof.
  cbv zeta. unfold unconscious.
  split; [vm_compute; discriminate|].
  split; [vm_compute; reflexivity|].
  split; [vm_compute; reflexivity|].
  split; [by intros []|].
  vm_compute; discriminate.
Qed.

(** ** Monsters *)

Lemma same_monsters_at gs gs' g i :
  same_monsters gs gs' → monster_at gs' g i = monster_at gs g i.
Proof. intros H. apply H. Qed.

Global Instance smitten_on_monsters g i : OnMonsters (smitten g i).
Proof.
  split.
  - intros gs gs' H g' i'. left. apply H.
  - intros gs1 gs2 gs3 H12 H23 g' i'.
    destruct (H23 g' i') as [H|(-> & -> & m & d & Hm & H)].
    + left. by rewrite H, (H12 g' i').
    + right. split; [done|]. split; [done|]. exists m, d.
      by rewrite <- (H12 g i).
  - intros gs1 gs2 gs3 H12 H23 g' i'.
    destruct (H12 g' i') as [H|(-> & -> & m & d & Hm & H)].
    + left. by rewrite (H23 g' i').
    + right. split; [done|]. split; [done|]. exists m, d.
      by rewrite (H23 g i).
Qed.

Global Instance spawned_on_monsters g ty rule : OnMonsters (spawned g ty rule).
Proof.
  split.
  - intros gs gs' H g' i'. left. apply H.
  - intros gs1 gs2 gs3 H12 H23 g' i'.
    destruct (H23 g' i') as [H|(-> & H)]; [left|by right].
    by rewrite H, (H12 g' i').
  - intros gs1 gs2 gs3 H12 H23 g' i'.
    destruct (H12 g' i') as [H|(-> & H)]; [left|right].
    + by rewrite (H23 g' i').
    + by rewrite (H23 g i').
Qed.

Section MonsterEffects.
Context (R : relation (gmap string Game.t)) `{!OnMonsters R}.

Lemma monsters_bind_l {A B} (m : M A) (f : A → M B) :
  preserves same_monsters m → (∀ a, preserves R (f a)) → preserves R (m ≫= f).
Proof.
  intros Hm Hf w. rewrite bind_run. specialize (Hm w).
  destruct (m w) as [[a|e] w'] eqn:Hmw; simpl in *.
  - eapply on_monsters_before; [exact Hm|apply Hf].
  - by apply on_monsters_same.
Qed.

Lemma monsters_bind_r {A B} (m : M A) (f : A → M B) :
  preserves R m → (∀ a, preserves same_monsters (f a)) → preserves R (m ≫= f).
Proof.
  intros Hm Hf w. rewrite bind_run. specialize (Hm w).
  destruct (m w) as [[a|e] w'] eqn:Hmw; simpl in *; [|done].
  eapply on_monsters_after; [exact Hm|apply Hf].
Qed.

Lemma monsters_weaken {A} (m : M A) : preserves same_monsters m → preserves R m.
Proof. intros H w. apply on_monsters_same, H. Qed.
End MonsterEffects.

Lemma strike_monster_smitten g i d : preserves (smitten g i) (strike_monster g i d).
Proof.
  intros w g' i'. unfold strike_monster. rewrite modify_game_run. simpl.
  rewrite monster_at_alter. unfold monster_at.
  destruct (decide (g = g')) as [<-|]; [|by left].
  destruct (games w !! g) as [game|]; simpl; [|by left].
  unfold smite. destruct (Game.monsters game !! i) as [m|] eqn:Hm; [|by left].
  destruct (decide (i = i')) as [<-|Hne].
  - right. split; [done|]. split; [done|]. exists m, d. split; [done|].
    destruct (_ <=? 0).
    + apply lookup_delete_eq.
    + apply lookup_insert_eq.
  - left. destruct (_ <=? 0).
    + by apply lookup_delete_ne.
    + by apply lookup_insert_ne.
Qed.

Lemma store_monster_spawned g i ty rule :
  preserves (spawned g ty rule) (store_monster g i (spawn i ty rule)).
Proof.
  intros w g' i'. unfold store_monster. rewrite modify_game_run. simpl.
  rewrite monster_at_alter. unfold monster_at.
  destruct (decide (g = g')) as [<-|]; [|by left].
  destruct (games w !! g) as [game|]; simpl; [|by left].
  destruct (decide (i = i')) as [<-|Hne].
  - right. split; [done|]. apply lookup_insert_eq.
  - left. by apply lookup_insert_ne.
Qed.

Global Hint Resolve strike_monster_smitten store_monster_spawned : engine.

(** Structural proofs for a relation on the monsters: steps that keep
    every monster, one step that changes them, then steps that keep
    every monster. *)
Ltac monsters_tac :=
  repeat first
    [ progress cbv zeta
    | match goal with
      | |- preserves _ (_ ≫= _) =>
          first
            [ apply monsters_bind_l; [apply _|solve [preserves_tac]|intros ?]
            | apply monsters_bind_r; [apply _| |intros ?; solve [preserves_tac]] ]
      | |- preserves _ (match ?x with _ => _ end) => destruct x
      end
    | solve [eauto with engine]
    | apply monsters_weaken; [apply _|solve [preserves_tac]] ].

Lemma joinGame_monsters g p n : preserves same_monsters (joinGame g p n).
Proof. unfold joinGame, addPlayer. preserves_tac. Qed.

Lemma attack_monsters g a t : preserves same_monsters (attack g a t).
Proof. unfold attack. preserves_tac. Qed.

Lemma monsterAttack_monsters T g m t : preserves same_monsters (monsterAttack T g m t).
Proof. unfold monsterAttack. preserves_tac. Qed.

Lemma giveItem_monsters T g p i : preserves same_monsters (giveItem T g p i).
Proof. unfold giveItem, addItemToPlayer. preserves_tac. Qed.

Lemma useItem_monsters T g p i : preserves same_monsters (useItem T g p i).
Proof. unfold useItem, removeItemFromPlayer. preserves_tac. Qed.

Lemma addExperience_monsters g p xp : preserves same_monsters (addExperience g p xp).
Proof. unfold addExperience. preserves_tac. Qed.

Lemma setCharacter_monsters g p c : preserves same_monsters (setCharacter g p c).
Proof. unfold setCharacter. preserves_tac. Qed.

Global Hint Resolve addExperience_monsters setCharacter_monsters : engine.

Lemma createCharacter_monsters T g p c : preserves same_monsters (createCharacter T g p c).
Proof. unfold createCharacter. preserves_tac. Qed.

Lemma selectCampaign_monsters T g c : preserves same_monsters (selectCampaign T g c).
Proof. unfold selectCampaign. preserves_tac. Qed.

Lemma startDialogue_monsters T g p d c : preserves same_monsters (startDialogue T g p d c).
Proof. unfold startDialogue. preserves_tac. Qed.

Lemma player_name_monsters g p : preserves same_monsters (player_name g p).
Proof. unfold player_name. preserves_tac. Qed.

Global Hint Resolve player_name_monsters : engine.

Lemma award_items_monsters g p items : preserves same_monsters (award_items g p items).
Proof.
  induction items as [|item rest IH]; simpl; unfold addItemToPlayer; preserves_tac.
Qed.

Global Hint Resolve award_items_monsters : engine.

Lemma award_monsters g p reward : preserves same_monsters (award g p reward).
Proof. unfold award. preserves_tac. Qed.

Global Hint Resolve award_monsters : engine.

Lemma chooseDialogueOption_monsters T g p d c n i :
  preserves same_monsters (chooseDialogueOption T g p d c n i).
Proof. unfold chooseDialogueOption. preserves_tac. Qed.

Lemma attackMonster_smitten g a i : preserves (smitten g i) (attackMonster g a i).
Proof. unfold attackMonster. monsters_tac. Qed.

Lemma castSpell_smitten T g c s ty t : preserves (smitten g t) (castSpell T g c s ty t).
Proof. unfold castSpell. monsters_tac. Qed.

Lemma castSpell_monsters T g c s ty t :
  ty ≠ "monster" → preserves same_monsters (castSpell T g c s ty t).
Proof.
  intros Hty. unfold castSpell.
  destruct (findSpellByName T s); [|preserves_tac].
  apply preserves_bind; [apply _|preserves_tac|]. intros [game|]; [|preserves_tac].
  destruct (Game.players game !! c); [|preserves_tac].
  destruct (decide (ty = "player")).
  - destruct (Game.players game !! t); simpl; preserves_tac.
  - rewrite decide_False by done. preserves_tac.
Qed.

Lemma handleAction_attack_smitten T g p t ty :
  preserves (smitten g t) (handleAction T g p (Attack t ty)).
Proof.
  unfold handleAction.
  pose proof (attackMonster_smitten g p t). pose proof (attack_monsters g p t).
  monsters_tac.
Qed.

Lemma handleAction_attack_monsters T g p t ty :
  ty ≠ "monster" → preserves same_monsters (handleAction T g p (Attack t ty)).
Proof.
  intros Hty. unfold handleAction. pose proof (attack_monsters g p t).
  apply preserves_bind; [apply _|preserves_tac|]. intros [game|]; [|preserves_tac].
  destruct (Game.players game !! p); [|preserves_tac].
  rewrite decide_False by done. preserves_tac.
Qed.

Lemma handleAction_cast_smitten T g p sn si ty t :
  preserves (smitten g t) (handleAction T g p (CastSpell sn si ty t)).
Proof.
  unfold handleAction.
  pose proof (castSpell_smitten T g p (str_or sn (str_or si "")) ty t).
  monsters_tac.
Qed.

Lemma handleAction_cast_monsters T g p sn si ty t :
  ty ≠ "monster" →
  preserves same_monsters (handleAction T g p (CastSpell sn si ty t)).
Proof.
  intros Hty. unfold handleAction.
  pose proof (castSpell_monsters T g p (str_or sn (str_or si "")) ty t Hty).
  preserves_tac.
Qed.

Lemma handleAction_roll_monsters T g p sides :
  preserves same_monsters (handleAction T g p (Roll sides)).
Proof. unfold handleAction. preserves_tac. Qed.

Lemma handleAction_unknown_monsters T g p json :
  preserves same_monsters (handleAction T g p (Unknown json)).
Proof. unfold handleAction. preserves_tac. Qed.

Lemma models_spawnMonster_spawned g ty rule :
  preserves (spawned g ty rule) (models.spawnMonster g ty rule).
Proof.
  unfold models.spawnMonster.
  apply monsters_bind_l; [apply _|preserves_tac|]. intros game.
  apply monsters_bind_l; [apply _|preserves_tac|]. intros t.
  apply monsters_bind_l; [apply _|preserves_tac|]. intros u. cbv zeta.
  apply monsters_bind_r; [apply _| |intros ?; preserves_tac].
  apply (store_monster_spawned g (models.instance_id t u) ty rule).
Qed.

Lemma spawnMonster_spawned T g ty rule :
  monsterRules T !! ty = Some rule →
  preserves (spawned g ty rule) (spawnMonster T g ty).
Proof.
  intros Hrule. unfold spawnMonster. rewrite Hrule.
  apply monsters_bind_r; [apply _|apply models_spawnMonster_spawned|].
  intros ?. preserves_tac.
Qed.

Lemma spawnMonster_unknown T g ty :
  monsterRules T !! ty = None → preserves eq (spawnMonster T g ty).
Proof. intros Hrule. unfold spawnMonster. rewrite Hrule. by intros w. Qed.

(** What one operation does to one monster: nothing, or damage that
    removes it or lowers its hit points, or a spawn. *)
Lemma exec_monsters T o w g i :
  monster_at (games (exec T o w).2) g i = monster_at (games w) g i
  ∨ (strikes_monster o g i
     ∧ ∃ m d, monster_at (games w) g i = Some m
              ∧ monster_at (games (exec T o w).2) g i =
                  if Monster.hp m - d <=? 0 then None
                  else Some (Monster.set_hp (Monster.hp m - d) m))
  ∨ (∃ m, spawns T o g i m ∧ monster_at (games (exec T o w).2) g i = Some m).
Proof.
  assert (Hkeep : ∀ {A} (m : M A),
            preserves same_monsters m →
            monster_at (games ((m ≫= λ _, mret tt) w).2) g i = monster_at (games w) g i).
  { intros A m Hm. rewrite bind_run. specialize (Hm w g i).
    by destruct (m w) as [[a|e] w']. }
  assert (Hsmite : ∀ {A} (m : M A) g0 i0,
            preserves (smitten g0 i0) m →
            monster_at (games ((m ≫= λ _, mret tt) w).2) g i = monster_at (games w) g i
            ∨ (g = g0 ∧ i = i0
               ∧ ∃ m0 d, monster_at (games w) g i = Some m0
                  ∧ monster_at (games ((m ≫= λ _, mret tt) w).2) g i =
                      if Monster.hp m0 - d <=? 0 then None
                      else Some (Monster.set_hp (Monster.hp m0 - d) m0))).
  { intros A m g0 i0 Hm. rewrite bind_run. specialize (Hm w g i).
    by destruct (m w) as [[a|e] w']. }
  destruct o as [g0 p0 n0|g0 p0 a|g0 p0 c0|g0 c0|g0 t0|g0 p0 i0|g0 p0 i0|g0 p0 d0 c0
                |g0 p0 d0 c0 n0 i0|g0 p0|g0 a0 t0|g0 a0 m0|g0 m0 t0|g0 c0 s0 ty0 t0
                |g0 m0]; simpl.
  - left. apply Hkeep, joinGame_monsters.
  - destruct a as [sides|t ty|sn si ty t|json].
    + left. apply Hkeep, handleAction_roll_monsters.
    + destruct (decide (ty = "monster")) as [->|Hty].
      * destruct (Hsmite _ _ _ _ (handleAction_attack_smitten T g0 p0 t "monster"))
          as [H|(-> & -> & H)]; [by left|right; left]. split; [done|exact H].
      * left. by apply Hkeep, handleAction_attack_monsters.
    + destruct (decide (ty = "monster")) as [->|Hty].
      * destruct (Hsmite _ _ _ _ (handleAction_cast_smitten T g0 p0 sn si "monster" t))
          as [H|(-> & -> & H)]; [by left|right; left]. split; [done|exact H].
      * left. by apply Hkeep, handleAction_cast_monsters.
    + left. apply Hkeep, handleAction_unknown_monsters.
  - left. apply Hkeep, createCharacter_monsters.
  - left. apply Hkeep, selectCampaign_monsters.
  - destruct (monsterRules T !! t0) as [rule|] eqn:Hrule.
    + rewrite bind_run.
      pose proof (spawnMonster_spawned T g0 t0 rule Hrule w g i) as H.
      destruct (spawnMonster T g0 t0 w) as [[a|e] w']; simpl in *;
        (destruct H as [H|(-> & H)]; [by left|right; right]);
        exists (spawn i t0 rule); (split; [|done]); split; [done|by exists rule| |];
        [done|by exists rule].
    + left. apply Hkeep. intros w0.
      by rewrite <- (spawnMonster_unknown T g0 t0 Hrule w0).
  - left. apply Hkeep, giveItem_monsters.
  - left. apply Hkeep, useItem_monsters.
  - left. apply Hkeep, startDialogue_monsters.
  - left. apply Hkeep, chooseDialogueOption_monsters.
  - left. apply Hkeep, (preserves_exportCharacter same_monsters).
  - left. apply Hkeep, attack_monsters.
  - destruct (Hsmite _ _ _ _ (attackMonster_smitten g0 a0 m0))
      as [H|(-> & -> & H)]; [by left|right; left]. split; [done|exact H].
  - left. apply Hkeep, monsterAttack_monsters.
  - destruct (decide (ty0 = "monster")) as [->|Hty].
    + destruct (Hsmite _ _ _ _ (castSpell_smitten T g0 c0 s0 "monster" t0))
        as [H|(-> & -> & H)]; [by left|right; left]. split; [done|exact H].
    + left. by apply Hkeep, castSpell_monsters.
  - left. apply appendLog_monsters.
Qed.

Lemma spawn_hp_positive T ty rule :
  sane_monster_rules T → monsterRules T !! ty = Some rule →
  0 < models.spawn_hp rule.
Proof.
  intros Hsane Hrule. destruct (Hsane ty rule Hrule) as [Hhp Hhd].
  unfold models.spawn_hp, num_or.
  destruct (MonsterRule.hitPoints rule) as [hp|], (MonsterRule.hitDice rule) as [hd|];
    simpl in *;
    repeat match goal with |- context [?z =? 0] => destruct (Z.eqb_spec z 0) end; lia.
Qed.

(** Every monster of a reachable registry is alive. *)
Lemma reachable_alive T gs :
  sane_monster_rules T → reachable T gs →
  ∀ g i m, monster_at gs g i = Some m → alive m.
Proof.
  intros Hsane Hreach. induction Hreach as [|w o Hreach IH]; intros g i m Hm.
  - unfold monster_at in Hm. by rewrite lookup_empty in Hm.
  - destruct (exec_monsters T o w g i)
      as [H|[(_ & m0 & d & Hm0 & H)|(m' & Hspawn & H)]].
    + apply (IH g i). by rewrite <- H.
    + rewrite H in Hm. destruct (Z.leb_spec (Monster.hp m0 - d) 0); [done|].
      assert (m = Monster.set_hp (Monster.hp m0 - d) m0) as -> by congruence.
      destruct (IH g i m0 Hm0) as [_ Hst]. split; [simpl; lia|exact Hst].
    + assert (m = m') as -> by congruence.
      destruct o; try done. destruct Hspawn as (_ & rule & Hrule & ->).
      split; [|done]. simpl. by eapply spawn_hp_positive.
Qed.

Lemma attackMonster_run w gameId attackerId instanceId game attacker monster :
  games w !! gameId = Some game →
  Game.players game !! attackerId = Some attacker →
  Game.monsters game !! instanceId = Some monster →
  let roll := rollDie_of 20 (draws w (drawn w)) in
  let damage := rollDie_of 6 (draws w (S (drawn w))) in
  let remaining := Monster.hp monster - damage in
  attackMonster gameId attackerId instanceId w =
  if num_or (Some (Monster.ac monster)) 10 <=? roll then
    (Ok {| MonsterHitResult.attacker := Player.name attacker;
           MonsterHitResult.target := Monster.type monster;
           MonsterHitResult.roll := roll;
           MonsterHitResult.hit := true;
           MonsterHitResult.damage := damage;
           MonsterHitResult.monsterRemainingHp := remaining;
           MonsterHitResult.monsterStatus :=
             if remaining <=? 0 then "dead" else Monster.status monster |},
     {| games := <[gameId := Game.set_monsters
                               (smite damage instanceId (Game.monsters game)) game]>
                   (games w);
        draws := draws w; drawn := S (S (drawn w)); now := now w |})
  else
    (Ok {| MonsterHitResult.attacker := Player.name attacker;
           MonsterHitResult.target := Monster.type monster;
           MonsterHitResult.roll := roll;
           MonsterHitResult.hit := false;
           MonsterHitResult.damage := 0;
           MonsterHitResult.monsterRemainingHp := Monster.hp monster;
           MonsterHitResult.monsterStatus := Monster.status monster |},
     {| games := games w; draws := draws w; drawn := S (drawn w); now := now w |}).
Proof.
  intros Hg Ha Hm. simpl. unfold attackMonster, getGame.
  rewrite !bind_run. simpl. rewrite Hg, Ha, Hm.
  rewrite bind_run, rollDie_run.
  destruct (_ <=? _); [|done].
  rewrite bind_run, rollDie_run, bind_run. unfold strike_monster.
  rewrite modify_game_run. simpl. rewrite (alter_Some _ _ _ _ Hg).
  by destruct (_ <=? 0).
Qed.

Lemma sane_sample : sane_monster_rules Sample.tables.
Proof.
  intros ty rule Hrule. simpl in Hrule.
  apply lookup_singleton_Some in Hrule as [_ <-]. simpl. lia.
Qed.

Lemma reachable_arena : reachable Sample.tables (games Sample.arena).
Proof. apply reachable_step, reachable_step, reachable_empty. Qed.



(** * Further properties of the engine *)

(** ** Rolling dice *)

Lemma fair_arena : fair Sample.arena.
Proof. intros n. vm_compute. split; [discriminate|reflexivity]. Qed.

Lemma arena_game_registered : games Sample.arena !! "g1" = Some Sample.arena_game.
Proof. vm_compute. reflexivity. Qed.

Lemma arena_orc : Game.monsters Sample.arena_game !! "m_1700000000000_999" = Some Sample.orc.
Proof. vm_compute. reflexivity. Qed.

Lemma arena_rowan : Game.players Sample.arena_game !! "p1" = Some Sample.rowan.
Proof. vm_compute. reflexivity. Qed.

Lemma advance_advance n m w : advance n (advance m w) = advance (n + m) w.
Proof. unfold advance. simpl. f_equal. lia. Qed.

Lemma advance_fair n w : fair w → fair (advance n w).
Proof. intros H k. apply H. Qed.

Lemma rollDie_advance sides w :
  rollDie sides w = (Ok (rollDie_of sides (draws w (drawn w))), advance 1 w).
Proof. by rewrite rollDie_run. Qed.

(** [count] rolls of a die with [sides >= 1] faces add between [count]
    and [count * sides] to the total, and make [count] draws. *)
Lemma roll_loop_bounds n sides total w :
  1 ≤ sides → fair w →
  ∃ r, roll_loop n sides total w = (Ok r, advance n w)
       ∧ total + Z.of_nat n ≤ r ≤ total + Z.of_nat n * sides.
Proof.
  intros Hs. revert total w. induction n as [|n IH]; intros total w Hfair.
  - exists total. split; [by destruct w|lia].
  - simpl roll_loop. rewrite bind_run, rollDie_advance.
    pose proof (rollDie_of_range sides _ Hs (Hfair (drawn w))) as Hr.
    destruct (IH (total + rollDie_of sides (draws w (drawn w))) (advance 1 w)
                (advance_fair 1 w Hfair)) as (r & -> & Hlo & Hhi).
    exists r. split; [|nia].
    f_equal. rewrite advance_advance. f_equal. lia.
Qed.



(** *** The digits of a match *)

Lemma span_digits_digits s : Forall (λ c, is_digit c = true) (span_digits s).1.
Proof.
  induction s as [|c s IH]; simpl; [constructor|].
  destruct (is_digit c) eqn:Hc; [|constructor].
  destruct (span_digits s) as [ds rest]. simpl in *. by constructor.
Qed.

Lemma is_digit_value c : is_digit c = true → 0 ≤ Z.of_N (N_of_ascii c) - 48 ≤ 9.
Proof.
  unfold is_digit. cbv zeta. intros H. apply andb_true_iff in H as [H1 H2].
  apply N.leb_le in H1, H2. lia.
Qed.

Lemma parseInt_nonneg ds : Forall (λ c, is_digit c = true) ds → 0 ≤ parseInt ds.
Proof.
  unfold parseInt. intros H.
  assert (Hgen : ∀ acc, 0 ≤ acc →
            0 ≤ fold_left (λ acc c, acc * 10 + (Z.of_N (N_of_ascii c) - 48)) ds acc).
  { induction H as [|c ds Hc Hds IH]; intros acc Hacc; simpl; [done|].
    apply IH. pose proof (is_digit_value c Hc). lia. }
  by apply Hgen.
Qed.

Lemma match_here_digits b s m :
  match_here b s = Some m →
  Forall (λ c, is_digit c = true) (count_str m)
  ∧ Forall (λ c, is_digit c = true) (sides_str m)
  ∧ ∀ ds, bonus_str m = Some ds → Forall (λ c, is_digit c = true) ds.
Proof.
  unfold match_here.
  pose proof (span_digits_digits s) as Hc.
  destruct (span_digits s) as [[|c cs] [|a r]]; try done.
  destruct (Ascii.eqb_spec a "d") as [->|Hne].
  - pose proof (span_digits_digits r) as Hs.
    destruct (span_digits r) as [[|d ds] rest]; [done|].
    intros [= <-]. simpl. split; [done|]. split; [done|].
    destruct b; [|done]. unfold match_bonus.
    destruct rest as [|x rest]; [done|].
    destruct (Ascii.eqb_spec x "+") as [->|Hne].
    + pose proof (span_digits_digits rest) as Hb.
      destruct (span_digits rest) as [[|e es] rest']; [done|].
      by intros ? [= <-].
    + destruct x as [[] [] [] [] [] [] [] []]; try done.
  - destruct a as [[] [] [] [] [] [] [] []]; try done.
Qed.

Lemma regex_match_digits b s m :
  regex_match b s = Some m →
  Forall (λ c, is_digit c = true) (count_str m)
  ∧ Forall (λ c, is_digit c = true) (sides_str m)
  ∧ ∀ ds, bonus_str m = Some ds → Forall (λ c, is_digit c = true) ds.
Proof.
  induction s as [|a s IH]; simpl.
  - done.
  - destruct (match_here b (String a s)) as [m'|] eqn:Hm; [|exact IH].
    intros [= <-]. by eapply match_here_digits.
Qed.


(** X3.  The heal roll of [useItem] and [rollFromNotation] on the same
    notation and the same draws: neither throws, they make the same
    draws, and [rollFromNotation] returns the heal roll plus the bonus
    of the notation; so they agree when the notation has no bonus, and
    both return 0 without a draw when the notation does not contain
    [<count>d<sides>]. *)
Theorem heal_roll_and_rollFromNotation notation w :
  ∃ r w',
    item_heal_roll notation w = (Ok r, w')
    ∧ rollFromNotation notation w
      = (Ok (default 0 (parseInt <$> (regex_match true notation ≫= bonus_str)) + r), w')
    ∧ (regex_match true notation ≫= bonus_str = None →
       rollFromNotation notation w = item_heal_roll notation w)
    ∧ (regex_match false notation = None → r = 0 ∧ w' = w).
Proof.
  assert (Hok : ∃ r w', item_heal_roll notation w = (Ok r, w')).
  { unfold item_heal_roll. destruct (regex_match false notation) as [m|].
    - destruct (roll_loop_ok (Z.to_nat (parseInt (count_str m)))
                  (parseInt (sides_str m)) 0 w) as (r & Hr).
      by eexists _, _.
    - by eexists _, _. }
  destruct Hok as (r & w' & Hitem). exists r, w'.
  split; [exact Hitem|]. split; [|split].
  - rewrite rollFromNotation_item_heal_roll, Hitem.
    by destruct (regex_match true notation ≫= bonus_str).
  - apply parsers_agree_without_bonus.
  - intros Hnone. destruct (parsers_malformed notation w Hnone) as [_ H0].
    rewrite H0 in Hitem. by injection Hitem as <- <-.
Qed.

(** *** Printing and parsing numbers *)

Lemma pretty_N_char_digit x :
  (x < 10)%N →
  is_digit (pretty_N_char x) = true
  ∧ Z.of_N (N_of_ascii (pretty_N_char x)) - 48 = Z.of_N x.
Proof.
  intros Hx.
  assert (x = 0 ∨ x = 1 ∨ x = 2 ∨ x = 3 ∨ x = 4 ∨ x = 5 ∨ x = 6 ∨ x = 7
          ∨ x = 8 ∨ x = 9)%N as H by lia.
  repeat destruct H as [->|H]; try subst x; by vm_compute.
Qed.

Lemma pretty_N_go_value x s :
  digits_value (pretty_N_go x s) 0 = digits_value s (Z.of_N x).
Proof.
  revert s. induction (N.lt_wf_0 x) as [x _ IH]; intros s.
  assert (x = 0 ∨ 0 < x)%N as [->|Hx] by lia; [by rewrite pretty_N_go_0|].
  rewrite pretty_N_go_step by done.
  rewrite IH by (by apply N.div_lt).
  unfold digits_value. simpl. f_equal.
  destruct (pretty_N_char_digit (x `mod` 10)) as [_ ->]; [by apply N.mod_lt|].
  pose proof (N.div_mod x 10 ltac:(lia)) as H. lia.
Qed.

Lemma pretty_N_go_digits x s : all_digits s → all_digits (pretty_N_go x s).
Proof.
  revert s. induction (N.lt_wf_0 x) as [x _ IH]; intros s Hs.
  assert (x = 0 ∨ 0 < x)%N as [->|Hx] by lia; [by rewrite pretty_N_go_0|].
  rewrite pretty_N_go_step by done.
  apply IH; [by apply N.div_lt|].
  constructor; [|done]. by apply pretty_N_char_digit, N.mod_lt.
Qed.

Lemma pretty_N_go_nonempty x s : (0 < x)%N → pretty_N_go x s ≠ "".
Proof.
  revert s. induction (N.lt_wf_0 x) as [x _ IH]; intros s Hx.
  rewrite pretty_N_go_step by done.
  destruct (N.eq_dec (x `div` 10)%N 0%N) as [->|Hd].
  - by rewrite pretty_N_go_0.
  - apply IH; [by apply N.div_lt|by apply N.neq_0_lt_0].
Qed.

Lemma pretty_N_value (n : N) : parseInt (String.list_ascii_of_string (pretty n)) = Z.of_N n.
Proof.
  unfold pretty, pretty_N. case_decide as Hn; [by subst|].
  apply (pretty_N_go_value n "").
Qed.

Lemma pretty_N_digits (n : N) : all_digits (pretty n) ∧ pretty n ≠ "".
Proof.
  unfold pretty, pretty_N. case_decide as Hn.
  - split; [|done]. by repeat constructor.
  - split; [by apply pretty_N_go_digits; constructor|].
    apply pretty_N_go_nonempty. lia.
Qed.

(** A run of digits followed by something that is not a digit is
    spanned whole. *)
Lemma span_digits_app s rest :
  all_digits s →
  match rest with
  | EmptyString => True
  | String c _ => is_digit c = false
  end →
  span_digits (s +:+ rest) = (String.list_ascii_of_string s, rest).
Proof.
  intros Hs Hrest. induction s as [|c s IH]; simpl.
  - destruct rest as [|c r]; [done|]. simpl. by rewrite Hrest.
  - inversion_clear Hs as [|? ? Hc Hs']. rewrite Hc, (IH Hs'). done.
Qed.

Lemma regex_match_here b s m : match_here b s = Some m → regex_match b s = Some m.
Proof. intros H. destruct s; [by destruct b|simpl; by rewrite H]. Qed.

Lemma list_ascii_nonempty s :
  s ≠ "" → ∃ c cs, String.list_ascii_of_string s = c :: cs.
Proof. destruct s as [|c s]; [done|]. intros _. by eexists _, _. Qed.

Lemma append_String c (s r : string) : String c s +:+ r = String c (s +:+ r).
Proof. reflexivity. Qed.

Lemma append_empty_r (s : string) : s +:+ "" = s.
Proof. induction s as [|c s IH]; [done|]. by rewrite append_String, IH. Qed.

Lemma match_here_notation_of with_bonus count sides bonus :
  match_here with_bonus (notation_of count sides bonus) =
  Some {| count_str := String.list_ascii_of_string (pretty count);
          sides_str := String.list_ascii_of_string (pretty sides);
          bonus_str := if with_bonus
                       then (λ b : N, String.list_ascii_of_string (pretty b)) <$> bonus
                       else None |}.
Proof.
  unfold notation_of, match_here.
  destruct (pretty_N_digits count) as [Hc Hc0], (pretty_N_digits sides) as [Hs Hs0].
  destruct (list_ascii_nonempty _ Hc0) as (c & cs & Hcs).
  destruct (list_ascii_nonempty _ Hs0) as (d & ds & Hds).
  rewrite (append_String "d" ""). change ("" +:+ ?x) with x.
  rewrite (span_digits_app (pretty count)) by done. rewrite Hcs.
  destruct bonus as [b|].
  - rewrite (span_digits_app (pretty sides)) by done. rewrite Hds.
    do 2 f_equal. destruct with_bonus; [|done]. simpl.
    change ("" +:+ pretty b) with (pretty b).
    destruct (pretty_N_digits b) as [Hb Hb0].
    destruct (list_ascii_nonempty _ Hb0) as (e & es & Hes).
    rewrite <- (append_empty_r (pretty b)) at 1.
    rewrite (span_digits_app (pretty b)) by done. by rewrite Hes.
  - rewrite (span_digits_app (pretty sides)) by done. rewrite Hds.
    by destruct with_bonus.
Qed.


(** ** Inventories *)

Lemma remove_first_Some x l l' :
  remove_first x l = Some l' ↔
  ∃ l1 l2, l = l1 ++ x :: l2 ∧ (x ∉ l1) ∧ l' = l1 ++ l2.
Proof.
  revert l'. induction l as [|y r IH]; intros l'; simpl.
  - split; [done|]. intros (l1 & l2 & H & _). by destruct l1.
  - destruct (decide (y = x)) as [->|Hne].
    + split.
      * intros [= <-]. exists [], r. split; [done|]. split; [|done].
        apply not_elem_of_nil.
      * intros (l1 & l2 & H & Hnot & ->). destruct l1 as [|z l1]; simpl in *.
        -- by injection H as ->.
        -- injection H as -> _. exfalso. apply Hnot. by left.
    + destruct (remove_first x r) as [r'|] eqn:Hr.
      * split.
        -- intros [= <-]. destruct (proj1 (IH r') eq_refl) as (l1 & l2 & -> & Hnot & ->).
           exists (y :: l1), l2. split; [done|]. split; [|done].
           rewrite not_elem_of_cons. by split.
        -- intros (l1 & l2 & H & Hnot & ->). destruct l1 as [|z l1]; simpl in *.
           ++ by injection H as ? _.
           ++ injection H as -> ->. f_equal.
              assert (Some r' = Some (l1 ++ l2)) as [= ->]; [|done].
              apply IH. exists l1, l2. split; [done|]. split; [|done].
              rewrite not_elem_of_cons in Hnot. by destruct Hnot.
      * split; [done|]. intros (l1 & l2 & H & Hnot & ->).
        destruct l1 as [|z l1]; simpl in *.
        -- by injection H as ? _.
        -- injection H as -> ->.
           assert (None = Some (l1 ++ l2)); [|done].
           apply IH. exists l1, l2. split; [done|]. split; [|done].
           rewrite not_elem_of_cons in Hnot. by destruct Hnot.
Qed.

Lemma remove_first_None x l : remove_first x l = None ↔ x ∉ l.
Proof.
  induction l as [|y r IH]; simpl.
  - split; [intros _; apply not_elem_of_nil|done].
  - rewrite not_elem_of_cons. destruct (decide (y = x)) as [->|Hne].
    + split; [done|]. by intros [? _].
    + destruct (remove_first x r); split; try done.
      * intros [_ H]. by apply IH in H.
      * intros _. split; [done|]. by apply IH.
Qed.

Lemma removeItemFromPlayer_run g p i w :
  removeItemFromPlayer g p i w =
  match (char_at (games w) g p ≫= Character.inventory) ≫= remove_first i with
  | Some inv' =>
      (Ok (Some i),
       (mutate_character g p (fmap (Character.set_inventory (Some inv'))) w).2)
  | None => (Ok None, w)
  end.
Proof.
  unfold removeItemFromPlayer, char_at, player_at. rewrite bind_run. simpl.
  destruct (games w !! g) as [game|]; simpl; [|done].
  destruct (Game.players game !! p) as [player|]; simpl; [|done].
  destruct (Player.character player) as [c|]; simpl; [|done].
  destruct (Character.inventory c) as [inv|]; simpl; [|done].
  by destruct (remove_first i inv).
Qed.

(** X5.  [removeItemFromPlayer] takes the first occurrence of the item
    out of the inventory, leaves the rest in order, and returns the
    item; when the item is not in the inventory, or there is no game,
    player, Character or inventory, it returns [undefined] and changes
    nothing. *)
Theorem removeItemFromPlayer_first_occurrence g p item w :
  (char_at (games w) g p ≫= Character.inventory = None →
   removeItemFromPlayer g p item w = (Ok None, w))
  ∧ (∀ game player c inv,
       games w !! g = Some game →
       Game.players game !! p = Some player →
       Player.character player = Some c →
       Character.inventory c = Some inv →
       ((item ∉ inv) ∧ removeItemFromPlayer g p item w = (Ok None, w))
       ∨ (∃ l1 l2,
            inv = l1 ++ item :: l2 ∧ (item ∉ l1)
            ∧ removeItemFromPlayer g p item w =
                (Ok (Some item),
                 set_games
                   (<[g := Game.set_players
                             (<[p := Player.set_character
                                       (Some (Character.set_inventory
                                                (Some (l1 ++ l2)) c)) player]>
                                (Game.players game)) game]> (games w)) w))).
Proof.
  split.
  - intros Hnone. by rewrite removeItemFromPlayer_run, Hnone.
  - intros game player c inv Hg Hp Hc Hinv.
    rewrite removeItemFromPlayer_run.
    assert ((char_at (games w) g p ≫= Character.inventory) ≫= remove_first item
            = remove_first item inv) as ->.
    { unfold char_at, player_at. rewrite Hg. simpl. rewrite Hp. simpl.
      rewrite Hc. simpl. by rewrite Hinv. }
    destruct (remove_first item inv) as [inv'|] eqn:Hrem.
    + right. apply remove_first_Some in Hrem as (l1 & l2 & -> & Hnot & ->).
      exists l1, l2. split; [done|]. split; [done|].
      rewrite (mutate_character_run _ _ _ _ _ _ Hg Hp). simpl. by rewrite Hc.
    + left. split; [by apply remove_first_None|done].
Qed.

Lemma getPlayer_run g p w : getPlayer g p w = (Ok (player_at (games w) g p), w).
Proof.
  unfold getPlayer, player_at. rewrite bind_run. simpl.
  by destruct (games w !! g).
Qed.

(** Rolling looks at the draws only. *)
Lemma roll_loop_set_games n sides total gs w :
  roll_loop n sides total (set_games gs w) =
  let '(r, w') := roll_loop n sides total w in (r, set_games gs w').
Proof.
  revert total w. induction n as [|n IH]; intros total w; simpl; [done|].
  rewrite !bind_run, !rollDie_run. simpl.
  apply (IH _ {| games := games w; draws := draws w; drawn := S (drawn w);
                 now := now w |}).
Qed.

Lemma item_heal_roll_set_games notation gs w :
  item_heal_roll notation (set_games gs w) =
  let '(r, w') := item_heal_roll notation w in (r, set_games gs w').
Proof.
  unfold item_heal_roll. destruct (regex_match false notation) as [m|]; [|done].
  apply roll_loop_set_games.
Qed.

Lemma item_heal_roll_ok notation w :
  ∃ amount n, item_heal_roll notation w = (Ok amount, advance n w).
Proof.
  unfold item_heal_roll. destruct (regex_match false notation) as [m|].
  - destruct (roll_loop_ok (Z.to_nat (parseInt (count_str m)))
                (parseInt (sides_str m)) 0 w) as (r & Hr).
    by eexists _, _.
  - exists 0, 0%nat. by destruct w.
Qed.

Lemma giveItem_run T g p i item game player w :
  itemRules T !! i = Some item →
  games w !! g = Some game →
  Game.players game !! p = Some player →
  let player' :=
    Player.set_character (Some (push_item i (Player.character player))) player in
  giveItem T g p i w =
  (Ok player',
   set_games
     (<[g := Game.set_log
               (Game.log game
                ++ [Player.name player +:+ " obtained " +:+ Item.name item +:+ "."])
               (Game.set_players (<[p := player']> (Game.players game)) game)]>
        (games w)) w).
Proof.
  intros Hi Hg Hp. simpl. unfold giveItem, addItemToPlayer. rewrite Hi.
  rewrite !bind_run, (createGame_old _ _ _ Hg). rewrite Hp.
  rewrite bind_run, (mutate_character_run _ _ _ _ _ _ Hg Hp). simpl.
  erewrite bind_run, appendLog_old by apply lookup_insert_eq. simpl.
  by rewrite set_games_twice, insert_insert_eq.
Qed.

(** A healing item in the inventory of a player's Character: [useItem]
    takes it out, rolls the heal and adds it to the hit points. *)
Lemma useItem_heal_run T g p i item heal game player c inv inv' w :
  itemRules T !! i = Some item →
  i ≠ "" →
  str_or (Item.eff item ≫= Item.heal) "" = heal → heal ≠ "" →
  games w !! g = Some game →
  Game.players game !! p = Some player →
  Player.character player = Some c →
  Character.inventory c = Some inv →
  remove_first i inv = Some inv' →
  ∃ amount n,
    item_heal_roll heal w = (Ok amount, advance n w)
    ∧ let message := Player.name player +:+ " drinks a " +:+ Item.name item
                     +:+ " and heals " +:+ pretty amount +:+ " HP." in
      let c' := mend amount (Character.set_inventory (Some inv') c) in
      useItem T g p i w =
      (Ok {| ItemResult.playerId := p; ItemResult.itemId := i;
             ItemResult.message := message |},
       set_games
         (<[g := Game.set_log (Game.log game ++ [message])
                   (Game.set_players
                      (<[p := Player.set_character (Some c') player]>
                         (Game.players game)) game)]> (games w))
         (advance n w)).
Proof.
  intros Hi Hne Hheal Hheal0 Hg Hp Hc Hinv Hrem.
  destruct (item_heal_roll_ok heal w) as (amount & n & Hroll).
  exists amount, n. split; [exact Hroll|]. cbv zeta.
  unfold useItem. rewrite Hi, bind_run, removeItemFromPlayer_run.
  assert ((char_at (games w) g p ≫= Character.inventory) ≫= remove_first i
          = Some inv') as ->.
  { unfold char_at, player_at. rewrite Hg. simpl. rewrite Hp. simpl.
    rewrite Hc. simpl. by rewrite Hinv. }
  rewrite (mutate_character_run _ _ _ _ _ _ Hg Hp). simpl snd. rewrite Hc. simpl fmap.
  destruct i as [|a i]; [done|].
  rewrite bind_run, getPlayer_run. unfold player_at. cbn [games set_games].
  rewrite lookup_insert_eq. simpl. rewrite lookup_insert_eq. simpl.
  rewrite Hheal. rewrite decide_True by done.
  rewrite !bind_run, item_heal_roll_set_games, Hroll. rewrite bind_run.
  erewrite mutate_character_run
    by (simpl; first [apply lookup_insert_eq|done]).
  simpl. erewrite bind_run, appendLog_old by (simpl; apply lookup_insert_eq).
  simpl. rewrite !insert_insert_eq. done.
Qed.

Lemma remove_first_snoc x l :
  ∃ l', remove_first x (l ++ [x]) = Some l' ∧ l' ≡ₚ l ∧ (x ∉ l → l' = l).
Proof.
  induction l as [|y r (r' & Hr & Hperm & Heq)]; simpl.
  - rewrite decide_True by done. exists []. by repeat split.
  - destruct (decide (y = x)) as [->|Hne].
    + exists (r ++ [x]). split; [done|]. split.
      * by rewrite Permutation_app_comm.
      * intros Hnot. exfalso. apply Hnot. by left.
    + rewrite Hr. exists (y :: r'). split; [done|]. split; [by constructor|].
      intros Hnot. rewrite not_elem_of_cons in Hnot. f_equal. apply Heq, Hnot.
Qed.

(** X6.  Giving a healing item to a player and then using it: both
    calls succeed, the inventory is back to what it was (the same items,
    in the same order when the item was not already there), the hit
    points have grown by the heal roll, missing hit points counting as
    0, and the log has the two lines of the two calls. *)
Theorem giveItem_then_useItem T g p i item heal game player w :
  itemRules T !! i = Some item →
  i ≠ "" →
  str_or (Item.eff item ≫= Item.heal) "" = heal → heal ≠ "" →
  games w !! g = Some game →
  Game.players game !! p = Some player →
  let c := default Character.empty (Player.character player) in
  let inv := default [] (Character.inventory c) in
  ∃ player1 w1 res w2 amount n inv' game2,
    giveItem T g p i w = (Ok player1, w1)
    ∧ useItem T g p i w1 = (Ok res, w2)
    ∧ item_heal_roll heal w = (Ok amount, advance n w)
    ∧ drawn w2 = (n + drawn w)%nat
    ∧ games w2 = <[g := game2]> (games w)
    ∧ Game.players game2 =
        <[p := Player.set_character
                 (Some (Character.set_hp (js_or0_add (Character.hp c) amount)
                          (Character.set_inventory (Some inv') c))) player]>
          (Game.players game)
    ∧ inv' ≡ₚ inv ∧ (i ∉ inv → inv' = inv)
    ∧ Game.log game2 =
        Game.log game
        ++ [Player.name player +:+ " obtained " +:+ Item.name item +:+ ".";
            Player.name player +:+ " drinks a " +:+ Item.name item
            +:+ " and heals " +:+ pretty amount +:+ " HP."]
    ∧ Game.monsters game2 = Game.monsters game.
Proof.
  intros Hi Hne Hheal Hheal0 Hg Hp c inv.
  destruct (remove_first_snoc i inv) as (inv' & Hrem & Hperm & Hsame).
  pose proof (giveItem_run T g p i item game player w Hi Hg Hp) as Hgive.
  cbv zeta in Hgive.
  set (player1 := Player.set_character
                    (Some (push_item i (Player.character player))) player) in *.
  set (game1 := Game.set_log _ _) in Hgive.
  set (w1 := set_games (<[g := game1]> (games w)) w) in *.
  destruct (useItem_heal_run T g p i item heal game1 player1
              (push_item i (Player.character player)) (inv ++ [i]) inv' w1
              Hi Hne Hheal Hheal0)
    as (amount & n & Hroll & Huse); try done.
  { apply lookup_insert_eq. }
  { apply lookup_insert_eq. }
  cbv zeta in Huse.
  unfold w1 in Hroll. rewrite item_heal_roll_set_games in Hroll.
  destruct (item_heal_roll_ok heal w) as (amount' & n' & Hroll').
  rewrite Hroll' in Hroll. injection Hroll as -> Hn.
  assert (n' = n) as ->.
  { lia. }
  eexists player1, w1, _, _, amount, n, inv', _.
  split; [exact Hgive|]. split; [exact Huse|]. split; [exact Hroll'|].
  split; [done|]. unfold w1. cbn [games set_games].
  split; [by rewrite insert_insert_eq|].
  subst game1 player1. simpl. rewrite insert_insert_eq.
  split; [|split; [done|split; [done|split; [|done]]]].
  - by do 3 f_equal.
  - by rewrite <- app_assoc.
Qed.

Lemma giveItem_then_useItem_witness :
  ∃ player1 w1 res w2 amount n,
    giveItem Sample.tables "g1" "p2" "potion" (Sample.world_of Sample.registry (2 ^ 52))
      = (Ok player1, w1)
    ∧ useItem Sample.tables "g1" "p2" "potion" w1 = (Ok res, w2)
    ∧ item_heal_roll "1d8" (Sample.world_of Sample.registry (2 ^ 52))
      = (Ok amount, advance n (Sample.world_of Sample.registry (2 ^ 52)))
    ∧ char_at (games w2) "g1" "p2" ≫= hp_int = Some (8 + amount).
Proof.
  destruct (giveItem_then_useItem Sample.tables "g1" "p2" "potion"
              {| Item.name := "Potion of Healing";
                 Item.eff := Some {| Item.heal := Some "1d8"; Item.acBonus := None |} |}
              "1d8" Sample.game Sample.mira (Sample.world_of Sample.registry (2 ^ 52))
              eq_refl ltac:(discriminate) eq_refl ltac:(discriminate) eq_refl eq_refl)
    as (player1 & w1 & res & w2 & amount & n & inv' & game2 & Hgive & Huse & Hroll
        & _ & Hgames & Hplayers & _).
  exists player1, w1, res, w2, amount, n.
  split; [exact Hgive|]. split; [exact Huse|]. split; [exact Hroll|].
  unfold char_at, player_at. rewrite Hgames, lookup_insert_eq. simpl.
  rewrite Hplayers, lookup_insert_eq. reflexivity.
Defined.

(** ** Failures leave the registry alone *)

Lemma never_item_heal_roll notation : never_throws (item_heal_roll notation).
Proof.
  intros w. destruct (item_heal_roll_ok notation w) as (amount & n & H).
  exists amount. by rewrite H.
Qed.

Global Hint Resolve never_item_heal_roll : engine.

Lemma handleAction_atomic T g p a : atomic (handleAction T g p a).
Proof.
  unfold handleAction.
  apply atomic_bind; [eauto with engine typeclass_instances|]. intros [game|];
    [|apply atomic_throw].
  destruct (Game.players game !! p) as [player|]; [|apply atomic_throw].
  destruct a as [sides|t ty|sn si ty t|json].
  - atomic_tac.
  - destruct (decide (ty = "monster")).
    + apply atomic_bind_never; [apply attackMonster_atomic|intros ?; never_tac].
    + apply atomic_bind_never; [apply attack_atomic|intros ?; never_tac].
  - cbv zeta. destruct (decide (_ = "")); [atomic_tac|].
    apply atomic_bind_never; [apply castSpell_atomic|intros ?; never_tac].
  - atomic_tac.
Qed.

Lemma useItem_atomic T g p i : i ≠ "" → atomic (useItem T g p i).
Proof.
  intros Hne w e. unfold useItem.
  destruct (itemRules T !! i) as [item|]; [|done].
  rewrite bind_run, removeItemFromPlayer_run.
  destruct ((char_at (games w) g p ≫= Character.inventory) ≫= remove_first i)
    as [inv'|] eqn:Hrem; [|done].
  destruct i as [|a i]; [done|].
  rewrite bind_run, getPlayer_run.
  set (w1 := (mutate_character g p _ w).2).
  assert (Hc1 : is_Some (char_at (games w1) g p)).
  { subst w1. rewrite mutate_character_games.
    rewrite (char_at_mutate (fmap (Character.set_inventory (Some inv'))) g p (games w)).
    rewrite decide_True by done.
    unfold char_at in Hrem.
    destruct (player_at (games w) g p) as [player|]; simpl in *; [|done].
    destruct (Player.character player); simpl in *; [by eexists|done]. }
  unfold char_at in Hc1.
  destruct (player_at (games w1) g p) as [player1|]; simpl in *;
    [|by destruct Hc1].
  destruct (Player.character player1) as [c1|]; [|by destruct Hc1].
  intros Hthrow. exfalso. revert Hthrow.
  match goal with |- (?m w1).1 = Throw e → False =>
    assert (Hnever : never_throws m) by never_tac;
    destruct (Hnever w1) as (r & ->) end.
  done.
Qed.

(** ** The registry only grows *)

Global Instance game_grows_preorder : PreOrder game_grows.
Proof.
  split.
  - intros game. split; [done|]. split; [done|]. intros p pl Hp. by exists pl.
  - intros g1 g2 g3 (Hid12 & Hlog12 & Hp12) (Hid23 & Hlog23 & Hp23).
    split; [congruence|]. split; [by etransitivity|].
    intros p pl Hp. destruct (Hp12 p pl Hp) as (pl2 & Hp2 & Hi2 & Hn2).
    destruct (Hp23 p pl2 Hp2) as (pl3 & Hp3 & Hi3 & Hn3).
    exists pl3. split; [done|]. split; congruence.
Qed.

Global Instance grows_preorder : PreOrder grows.
Proof.
  split.
  - intros gs g game Hg. by exists game.
  - intros gs1 gs2 gs3 H12 H23 g game Hg.
    destruct (H12 g game Hg) as (game2 & Hg2 & Hgrow2).
    destruct (H23 g game2 Hg2) as (game3 & Hg3 & Hgrow3).
    exists game3. split; [done|]. by etransitivity.
Qed.

Global Instance keeps_preorder P : PreOrder (keeps P).
Proof.
  split; [intros gs H; exact H|].
  intros gs1 gs2 gs3 H12 H23 H. apply H23, H12, H.
Qed.

Lemma createGame_grows id : preserves grows (createGame id).
Proof.
  intros w. unfold createGame. rewrite bind_run. simpl.
  destruct (games w !! id) as [game|] eqn:Hid; [reflexivity|]. simpl.
  intros g game Hg. exists game. split; [|reflexivity].
  rewrite lookup_insert_ne; [done|congruence].
Qed.

Lemma modify_game_grows id f :
  (∀ game, game_grows game (f game)) → preserves grows (modify_game id f).
Proof.
  intros Hf w g game Hg. rewrite modify_game_run. simpl.
  destruct (decide (id = g)) as [->|Hne].
  - exists (f game). split; [|apply Hf]. by rewrite lookup_alter_eq, Hg.
  - exists game. split; [|reflexivity]. by rewrite lookup_alter_ne.
Qed.

Lemma appendLog_grows id message : preserves grows (appendLog id message).
Proof.
  unfold appendLog.
  apply preserves_bind; [apply _|apply createGame_grows|]. intros _.
  apply modify_game_grows. intros game. split; [done|]. split.
  - by apply prefix_app_r.
  - intros p pl Hp. by exists pl.
Qed.

Lemma mutate_character_grows g p f : preserves grows (mutate_character g p f).
Proof.
  apply modify_game_grows. intros game. split; [done|]. split; [done|].
  intros q pl Hq. simpl. destruct (decide (p = q)) as [->|Hne].
  - eexists. split; [by rewrite lookup_alter_eq, Hq|]. done.
  - exists pl. split; [by rewrite lookup_alter_ne|done].
Qed.

Lemma store_monster_grows g i m : preserves grows (store_monster g i m).
Proof.
  apply modify_game_grows. intros game. split; [done|]. split; [done|].
  intros q pl Hq. by exists pl.
Qed.

Lemma strike_monster_grows g i d : preserves grows (strike_monster g i d).
Proof.
  apply modify_game_grows. intros game. split; [done|]. split; [done|].
  intros q pl Hq. by exists pl.
Qed.

Lemma set_campaign_grows g c : preserves grows (modify_game g (Game.set_campaign c)).
Proof.
  apply modify_game_grows. intros game. split; [done|]. split; [done|].
  intros q pl Hq. by exists pl.
Qed.

Lemma insert_game_grows gs g game' :
  (∀ game0, gs !! g = Some game0 → game_grows game0 game') →
  grows gs (<[g := game']> gs).
Proof.
  intros H g' game0 Hg'. destruct (decide (g = g')) as [->|Hne].
  - exists game'. split; [apply lookup_insert_eq|by apply H].
  - exists game0. split; [by rewrite lookup_insert_ne|reflexivity].
Qed.

Lemma insert_player_grows game p pl' :
  (∀ pl, Game.players game !! p = Some pl → same_identity pl pl') →
  game_grows game (Game.set_players (<[p := pl']> (Game.players game)) game).
Proof.
  intros H. split; [done|]. split; [done|]. intros q pl Hq. simpl.
  destruct (decide (p = q)) as [->|Hne].
  - exists pl'. split; [apply lookup_insert_eq|by apply H].
  - exists pl. split; [by rewrite lookup_insert_ne|done].
Qed.

Lemma addPlayer_grows g p n : preserves grows (addPlayer g p n).
Proof.
  intros w. rewrite addPlayer_run. simpl.
  apply insert_game_grows. intros game0 Hg. rewrite Hg. simpl.
  apply insert_player_grows. by intros pl ->.
Qed.

Lemma setCharacter_grows g p c : preserves grows (setCharacter g p c).
Proof.
  intros w. rewrite setCharacter_run. simpl.
  apply insert_game_grows. intros game0 Hg. rewrite Hg. simpl.
  apply insert_player_grows. by intros pl ->.
Qed.

Lemma addExperience_grows g p xp : preserves grows (addExperience g p xp).
Proof.
  intros w. unfold addExperience. rewrite bind_run. simpl.
  destruct (games w !! g) as [game|] eqn:Hg; [|reflexivity].
  destruct (Game.players game !! p) as [player|] eqn:Hp; [|reflexivity].
  destruct (Player.character player) as [c|] eqn:Hc; [|reflexivity].
  set (e := num_or (Character.experience c) 0 + xp).
  assert (Hlog : ∃ e' l' log',
            match Character.level c with
            | Some l =>
                let '(e', l', log') :=
                  level_loop (Player.name player) e l (Game.log game) in
                (e', Some l', log')
            | None => (e, None, Game.log game)
            end = (e', l', log') ∧ Game.log game `prefix_of` log').
  { destruct (Character.level c) as [l|]; [|by eexists _, _, _].
    destruct (level_loop (Player.name player) e l (Game.log game))
      as [[e' l'] log'] eqn:Hloop.
    destruct (level_loop_spec _ _ _ _ _ _ _ Hloop) as (_ & _ & _ & -> & _).
    eexists _, _, _. split; [done|]. by apply prefix_app_r. }
  destruct Hlog as (e' & l' & log' & -> & Hprefix).
  rewrite bind_run, (mutate_character_run _ _ _ _ _ _ Hg Hp).
  rewrite bind_run, modify_game_run. simpl.
  rewrite (alter_Some _ _ _ _ (lookup_insert_eq _ _ _)), insert_insert_eq.
  apply insert_game_grows. intros game0 Hg0.
  assert (game0 = game) as -> by congruence.
  split; [done|]. split; [done|]. intros q pl Hq. simpl.
  destruct (decide (p = q)) as [->|Hne].
  - eexists. split; [apply lookup_insert_eq|].
    assert (pl = player) as -> by congruence. done.
  - exists pl. split; [by rewrite lookup_insert_ne|done].
Qed.

Global Hint Resolve createGame_grows appendLog_grows mutate_character_grows
  store_monster_grows strike_monster_grows set_campaign_grows
  addPlayer_grows setCharacter_grows addExperience_grows : engine.

Lemma addItemToPlayer_grows g p i : preserves grows (addItemToPlayer g p i).
Proof. unfold addItemToPlayer. preserves_tac. Qed.

Lemma removeItemFromPlayer_grows g p i : preserves grows (removeItemFromPlayer g p i).
Proof. unfold removeItemFromPlayer. preserves_tac. Qed.

Global Hint Resolve addItemToPlayer_grows removeItemFromPlayer_grows : engine.

Lemma player_name_grows g p : preserves grows (player_name g p).
Proof. unfold player_name. preserves_tac. Qed.

Global Hint Resolve player_name_grows : engine.

Lemma award_items_grows g p items : preserves grows (award_items g p items).
Proof. induction items as [|item rest IH]; simpl; preserves_tac. Qed.

Global Hint Resolve award_items_grows : engine.

Lemma award_grows g p reward : preserves grows (award g p reward).
Proof. unfold award. preserves_tac. Qed.

Lemma attack_grows g a t : preserves grows (attack g a t).
Proof. unfold attack. preserves_tac. Qed.

Lemma attackMonster_grows g a i : preserves grows (attackMonster g a i).
Proof. unfold attackMonster. preserves_tac. Qed.

Lemma castSpell_grows T g c s ty t : preserves grows (castSpell T g c s ty t).
Proof. unfold castSpell. preserves_tac. Qed.

Global Hint Resolve award_grows attack_grows attackMonster_grows castSpell_grows
  : engine.

(** X7.  No operation of the engine removes a game, a player or a log
    line, or changes the identifier of a game or the identifier or
    display name of a player: after any operation every game of the
    registry is still there with the same identifier and a log that
    starts with the old log, and every player of it is still there
    under the same key with the same identifier and name. *)
Theorem registry_only_grows T o w : grows (games w) (games (exec T o w).2).
Proof.
  assert (Hunit : ∀ {A} (m : M A), preserves grows m →
            grows (games w) (games ((m ≫= λ _, mret tt) w).2)).
  { intros A m Hm. rewrite bind_run. specialize (Hm w).
    by destruct (m w) as [[a|e] w']. }
  destruct o; simpl; try apply Hunit.
  - unfold joinGame. preserves_tac.
  - unfold handleAction. preserves_tac.
  - unfold createCharacter. preserves_tac.
  - unfold selectCampaign. preserves_tac.
  - unfold spawnMonster, models.spawnMonster. preserves_tac.
  - unfold giveItem. preserves_tac.
  - unfold useItem. preserves_tac.
  - unfold startDialogue. preserves_tac.
  - unfold chooseDialogueOption. preserves_tac.
  - apply preserves_exportCharacter, _.
  - apply attack_grows.
  - apply attackMonster_grows.
  - unfold monsterAttack. preserves_tac.
  - apply castSpell_grows.
  - apply appendLog_grows.
Qed.

(** ** Objects are registered under their own identifiers *)

Lemma createGame_keyed id : preserves (keeps well_keyed) (createGame id).
Proof.
  intros w Hw. unfold createGame. rewrite bind_run. simpl.
  destruct (games w !! id) as [game|] eqn:Hid; [done|]. simpl.
  intros g game Hg. destruct (decide (id = g)) as [->|Hne].
  - rewrite lookup_insert_eq in Hg. injection Hg as <-.
    split; [done|]. split; intros ? ? H; simpl in H; by rewrite lookup_empty in H.
  - rewrite lookup_insert_ne in Hg by done. by apply Hw.
Qed.

Lemma modify_game_keyed id f :
  (∀ game, game_keyed id game → game_keyed id (f game)) →
  preserves (keeps well_keyed) (modify_game id f).
Proof.
  intros Hf w Hw g game. rewrite modify_game_run. simpl.
  destruct (decide (id = g)) as [->|Hne].
  - rewrite lookup_alter_eq. destruct (games w !! g) as [game0|] eqn:Hg; [|done].
    simpl. intros [= <-]. by apply Hf, Hw.
  - rewrite lookup_alter_ne by done. apply Hw.
Qed.

Lemma appendLog_keyed id message : preserves (keeps well_keyed) (appendLog id message).
Proof.
  unfold appendLog.
  apply preserves_bind; [apply _|apply createGame_keyed|]. intros _.
  by apply modify_game_keyed.
Qed.

Lemma set_log_keyed g l : preserves (keeps well_keyed) (modify_game g (Game.set_log l)).
Proof. by apply modify_game_keyed. Qed.

Lemma set_campaign_keyed g c :
  preserves (keeps well_keyed) (modify_game g (Game.set_campaign c)).
Proof. by apply modify_game_keyed. Qed.

Lemma mutate_character_keyed g p f :
  preserves (keeps well_keyed) (mutate_character g p f).
Proof.
  apply modify_game_keyed. intros game (Hid & Hplayers & Hmonsters).
  split; [done|]. split; [|done]. intros q pl. simpl.
  destruct (decide (p = q)) as [->|Hne].
  - rewrite lookup_alter_eq. destruct (Game.players game !! q) as [pl0|] eqn:Hq; [|done].
    simpl. intros [= <-]. exact (Hplayers q pl0 Hq).
  - rewrite lookup_alter_ne by done. apply Hplayers.
Qed.

Lemma store_player_keyed g p player :
  Player.id player = p → preserves (keeps well_keyed) (store_player g p player).
Proof.
  intros Hp. apply modify_game_keyed. intros game (Hid & Hplayers & Hmonsters).
  split; [done|]. split; [|done]. intros q pl. simpl.
  destruct (decide (p = q)) as [->|Hne].
  - rewrite lookup_insert_eq. by intros [= <-].
  - rewrite lookup_insert_ne by done. apply Hplayers.
Qed.

Lemma store_monster_keyed g i m :
  Monster.instanceId m = i → preserves (keeps well_keyed) (store_monster g i m).
Proof.
  intros Hi. apply modify_game_keyed. intros game (Hid & Hplayers & Hmonsters).
  split; [done|]. split; [done|]. intros j m'. simpl.
  destruct (decide (i = j)) as [->|Hne].
  - rewrite lookup_insert_eq. by intros [= <-].
  - rewrite lookup_insert_ne by done. apply Hmonsters.
Qed.

Lemma strike_monster_keyed g i d : preserves (keeps well_keyed) (strike_monster g i d).
Proof.
  apply modify_game_keyed. intros game (Hid & Hplayers & Hmonsters).
  split; [done|]. split; [done|]. intros j m'. simpl. unfold smite.
  destruct (Game.monsters game !! i) as [m|] eqn:Hm; [|apply Hmonsters].
  destruct (_ <=? 0).
  - intros H. apply lookup_delete_Some in H as [_ H]. by apply Hmonsters.
  - destruct (decide (i = j)) as [->|Hne].
    + rewrite lookup_insert_eq. intros [= <-]. exact (Hmonsters j m Hm).
    + rewrite lookup_insert_ne by done. apply Hmonsters.
Qed.

Global Hint Resolve createGame_keyed appendLog_keyed set_log_keyed set_campaign_keyed
  mutate_character_keyed store_player_keyed store_monster_keyed
  strike_monster_keyed : engine.

Lemma addExperience_keyed g p xp : preserves (keeps well_keyed) (addExperience g p xp).
Proof. unfold addExperience. preserves_tac. Qed.

Lemma addItemToPlayer_keyed g p i : preserves (keeps well_keyed) (addItemToPlayer g p i).
Proof. unfold addItemToPlayer. preserves_tac. Qed.

Global Hint Resolve addExperience_keyed addItemToPlayer_keyed : engine.

Lemma player_name_keyed g p : preserves (keeps well_keyed) (player_name g p).
Proof. unfold player_name. preserves_tac. Qed.

Global Hint Resolve player_name_keyed : engine.

Lemma award_items_keyed g p items : preserves (keeps well_keyed) (award_items g p items).
Proof. induction items as [|item rest IH]; simpl; preserves_tac. Qed.

Global Hint Resolve award_items_keyed : engine.

Lemma exec_keyed T o : preserves (keeps well_keyed) (exec T o).
Proof.
  assert (Hunit : ∀ {A} (m : M A), preserves (keeps well_keyed) m →
            preserves (keeps well_keyed) (m ≫= λ _, mret tt)).
  { intros A m Hm. preserves_tac. }
  destruct o; simpl; try apply Hunit.
  - unfold joinGame, addPlayer. preserves_tac.
  - unfold handleAction, attack, attackMonster, castSpell. preserves_tac.
  - unfold createCharacter, setCharacter. preserves_tac.
  - unfold selectCampaign. preserves_tac.
  - unfold spawnMonster, models.spawnMonster. preserves_tac.
  - unfold giveItem. preserves_tac.
  - unfold useItem, removeItemFromPlayer. preserves_tac.
  - unfold startDialogue. preserves_tac.
  - unfold chooseDialogueOption, award. preserves_tac.
  - apply preserves_exportCharacter, _.
  - unfold attack. preserves_tac.
  - unfold attackMonster. preserves_tac.
  - unfold monsterAttack. preserves_tac.
  - unfold castSpell. preserves_tac.
  - apply appendLog_keyed.
Qed.

(** X8.  In every registry reached from the empty one, each game is
    registered under its own [id], each player of a game under their
    own [id], and each monster under its own [instanceId]. *)
Theorem reachable_well_keyed T gs : reachable T gs → well_keyed gs.
Proof.
  induction 1 as [|w o Hreach IH].
  - intros g game Hg. by rewrite lookup_empty in Hg.
  - by apply exec_keyed.
Qed.

Lemma reachable_well_keyed_witness : well_keyed (games Sample.arena).
Proof. exact (reachable_well_keyed Sample.tables _ reachable_arena). Defined.

(** ** Characters *)

Lemma over_idem {A} (new old : option A) :
  Character.over new (Character.over new old) = Character.over new old.
Proof. by destruct new. Qed.

Lemma merge_character_idem payload c :
  merge_character payload (Some (merge_character payload c)) =
  merge_character payload c.
Proof.
  unfold merge_character. simpl.
  set (old := default Character.empty c).
  unfold default_progress, Character.spread. simpl.
  destruct (Character.experience payload) as [e|],
           (Character.experience old) as [e0|],
           (Character.level payload) as [l|],
           (Character.level old) as [l0|]; simpl;
    unfold Character.set_level, Character.set_experience; simpl;
    f_equal; try apply over_idem; by destruct (Character.hp payload).
Qed.

Lemma default_progress_fields c :
  Character.experience (default_progress c) = Some (default 0 (Character.experience c))
  ∧ Character.level (default_progress c) = Some (default 1 (Character.level c))
  ∧ Character.name (default_progress c) = Character.name c
  ∧ Character.race (default_progress c) = Character.race c
  ∧ Character.class (default_progress c) = Character.class c
  ∧ Character.hp (default_progress c) = Character.hp c
  ∧ Character.ac (default_progress c) = Character.ac c
  ∧ Character.abilityScores (default_progress c) = Character.abilityScores c
  ∧ Character.savingThrows (default_progress c) = Character.savingThrows c
  ∧ Character.inventory (default_progress c) = Character.inventory c
  ∧ Character.status (default_progress c) = Character.status c.
Proof.
  unfold default_progress.
  destruct (Character.experience c) eqn:He; simpl;
    destruct (Character.level c) eqn:Hl; simpl; rewrite ?He, ?Hl; by repeat split.
Qed.

Lemma merge_character_fields payload old :
  let c' := merge_character payload old in
  Character.name c' = Character.over (Character.name payload) (old ≫= Character.name)
  ∧ Character.race c' = Character.over (Character.race payload) (old ≫= Character.race)
  ∧ Character.class c'
    = Character.over (Character.class payload) (old ≫= Character.class)
  ∧ Character.hp c'
    = match Character.hp payload with
      | Undefined => default Undefined (Character.hp <$> old)
      | v => v
      end
  ∧ Character.ac c' = Character.over (Character.ac payload) (old ≫= Character.ac)
  ∧ Character.abilityScores c'
    = Character.over (Character.abilityScores payload) (old ≫= Character.abilityScores)
  ∧ Character.savingThrows c'
    = Character.over (Character.savingThrows payload) (old ≫= Character.savingThrows)
  ∧ Character.inventory c'
    = Character.over (Character.inventory payload) (old ≫= Character.inventory)
  ∧ Character.status c'
    = Character.over (Character.status payload) (old ≫= Character.status)
  ∧ Character.experience c'
    = Some (default 0 (Character.over (Character.experience payload)
                         (old ≫= Character.experience)))
  ∧ Character.level c'
    = Some (default 1 (Character.over (Character.level payload)
                         (old ≫= Character.level))).
Proof.
  cbv zeta.
  pose proof (default_progress_fields
                (Character.spread (default Character.empty old) payload))
    as (He & Hl & Hn & Hr & Hcl & Hhp & Hac & Hab & Hsv & Hinv & Hst).
  unfold merge_character.
  rewrite He, Hl, Hn, Hr, Hcl, Hhp, Hac, Hab, Hsv, Hinv, Hst.
  repeat split; by destruct old.
Qed.

Lemma setCharacter_stored g p payload w :
  ∃ player' w1,
    setCharacter g p payload w = (Ok player', w1)
    ∧ player_at (games w1) g p = Some player'
    ∧ Player.character player'
      = Some (merge_character payload (char_at (games w) g p))
    ∧ drawn w1 = drawn w.
Proof.
  rewrite setCharacter_run. cbv zeta. eexists _, _. split; [reflexivity|].
  split; [|split; [|done]].
  - unfold player_at. simpl. rewrite lookup_insert_eq. simpl. apply lookup_insert_eq.
  - simpl. do 2 f_equal. unfold char_at, player_at.
    destruct (games w !! g) as [game0|]; simpl; [|by rewrite lookup_empty].
    by destruct (Game.players game0 !! p).
Qed.

(** X9.  [setCharacter] stores, for the player, the payload spread over
    the Character the player had: each property is the payload's when
    the payload has it and the old one otherwise, with the experience
    defaulting to 0 and the level to 1; a player who was not in the
    game is created with the name "Unknown"; no other player changes;
    and a second call with the same payload changes nothing more. *)
Theorem setCharacter_merge g p payload w :
  let old := char_at (games w) g p in
  ∃ player' c' w1,
    setCharacter g p payload w = (Ok player', w1)
    ∧ player_at (games w1) g p = Some player'
    ∧ Player.character player' = Some c'
    ∧ (player_at (games w) g p = None →
       Player.id player' = p ∧ Player.name player' = "Unknown")
    ∧ (∀ player, player_at (games w) g p = Some player →
       Player.id player' = Player.id player ∧ Player.name player' = Player.name player)
    ∧ Character.name c' = Character.over (Character.name payload) (old ≫= Character.name)
    ∧ Character.race c' = Character.over (Character.race payload) (old ≫= Character.race)
    ∧ Character.class c'
      = Character.over (Character.class payload) (old ≫= Character.class)
    ∧ Character.hp c'
      = match Character.hp payload with
        | Undefined => default Undefined (Character.hp <$> old)
        | v => v
        end
    ∧ Character.ac c' = Character.over (Character.ac payload) (old ≫= Character.ac)
    ∧ Character.abilityScores c'
      = Character.over (Character.abilityScores payload) (old ≫= Character.abilityScores)
    ∧ Character.savingThrows c'
      = Character.over (Character.savingThrows payload) (old ≫= Character.savingThrows)
    ∧ Character.inventory c'
      = Character.over (Character.inventory payload) (old ≫= Character.inventory)
    ∧ Character.status c'
      = Character.over (Character.status payload) (old ≫= Character.status)
    ∧ Character.experience c'
      = Some (default 0 (Character.over (Character.experience payload)
                           (old ≫= Character.experience)))
    ∧ Character.level c'
      = Some (default 1 (Character.over (Character.level payload)
                           (old ≫= Character.level)))
    ∧ (∀ g' p', ¬ (g' = g ∧ p' = p) →
         player_at (games w1) g' p' = player_at (games w) g' p')
    ∧ same_monsters (games w) (games w1)
    ∧ setCharacter g p payload w1 = (Ok player', w1).
Proof.
  cbv zeta. rewrite setCharacter_run. cbv zeta.
  set (game := default (new_game g) (games w !! g)).
  set (unknown := {| Player.id := p; Player.name := "Unknown";
                     Player.character := None |}).
  set (player := default unknown (Game.players game !! p)).
  assert (Hold : char_at (games w) g p = Player.character player).
  { unfold char_at, player_at, player, game.
    destruct (games w !! g) as [game0|]; simpl; [|by rewrite lookup_empty].
    by destruct (Game.players game0 !! p). }
  rewrite Hold.
  eexists _, _, _. split; [reflexivity|].
  split; [|split; [reflexivity|]].
  { unfold player_at. simpl. rewrite lookup_insert_eq. simpl. apply lookup_insert_eq. }
  split.
  { unfold player_at, player, game.
    destruct (games w !! g) as [game0|]; simpl; [|by rewrite lookup_empty].
    by intros ->. }
  split.
  { unfold player_at, player, game. intros player0.
    destruct (games w !! g) as [game0|]; simpl; [|done]. by intros ->. }
  destruct (merge_character_fields payload (Player.character player))
    as (Hn & Hr & Hcl & Hhp & Hac & Hab & Hsv & Hinv & Hst & He & Hl).
  split; [done|]. split; [done|]. split; [done|]. split; [done|].
  split; [done|]. split; [done|]. split; [done|]. split; [done|].
  split; [done|]. split; [done|]. split; [done|]. split; [|split].
  - intros g' p' Hne. unfold player_at. simpl.
    destruct (decide (g = g')) as [<-|Hg]; [|by rewrite lookup_insert_ne].
    rewrite lookup_insert_eq. simpl.
    rewrite lookup_insert_ne by (intros <-; by apply Hne).
    unfold game. destruct (games w !! g); simpl; [done|by rewrite lookup_empty].
  - intros g' i'. unfold monster_at. simpl.
    destruct (decide (g = g')) as [<-|Hg]; [|by rewrite lookup_insert_ne].
    rewrite lookup_insert_eq. simpl.
    unfold game. destruct (games w !! g); simpl; [done|by rewrite lookup_empty].
  - rewrite setCharacter_run. cbv zeta. simpl.
    rewrite lookup_insert_eq. simpl. rewrite lookup_insert_eq. simpl.
    rewrite !insert_insert_eq. fold unknown. fold game. fold player.
    fold (merge_character payload (Player.character player)).
    by rewrite merge_character_idem.
Qed.

Lemma prepare_character_fields rule rolled c :
  let c' := prepare_character rule rolled c in
  Character.ac c' = Some (num_or (Character.ac c) 10)
  ∧ Character.hp c' = default (Character.hp c) (Number <$> rolled)
  ∧ Character.abilityScores c'
    = Some (default default_abilityScores (Character.abilityScores c))
  ∧ Character.savingThrows c'
    = Some (default (default default_savingThrows (Character.savingThrows c))
              (rule ≫= ClassRule.savingThrows)).
Proof.
  unfold prepare_character. cbv zeta.
  destruct (rule ≫= ClassRule.savingThrows); simpl.
  - destruct (Character.abilityScores _) eqn:Hab; simpl;
      destruct rolled; simpl in *; rewrite ?Hab; by repeat split.
  - destruct (Character.abilityScores _) eqn:Hab; simpl;
      destruct (Character.savingThrows _) eqn:Hsv; simpl;
      destruct rolled; simpl in *; rewrite ?Hab, ?Hsv; by repeat split.
Qed.

Lemma num_or_nonzero n d : d ≠ 0 → num_or n d ≠ 0.
Proof.
  intros Hd. unfold num_or. destruct n as [z|]; [|done].
  by destruct (Z.eqb_spec z 0).
Qed.



(** ** Spells *)

Lemma lower_ascii_idem c : lower_ascii (lower_ascii c) = lower_ascii c.
Proof. destruct c as [[] [] [] [] [] [] [] []]; reflexivity. Qed.

Lemma toLowerCase_idem s : toLowerCase (toLowerCase s) = toLowerCase s.
Proof.
  induction s as [|c s IH]; simpl; [done|]. by rewrite lower_ascii_idem, IH.
Qed.


(** ** Monsters against players, players against monsters *)

Lemma monster_damage_roll_ok T ty w :
  ∃ damage n, monster_damage_roll T ty w = (Ok damage, advance n w).
Proof.
  unfold monster_damage_roll. destruct (regex_match true _) as [m|].
  - unfold roll_match. destruct (roll_loop_ok (Z.to_nat (parseInt (count_str m)))
                                   (parseInt (sides_str m))
                                   match bonus_str m with
                                   | Some ds => parseInt ds
                                   | None => 0
                                   end w) as (r & Hr).
    by eexists _, _.
  - rewrite rollDie_run. by eexists _, 1%nat.
Qed.

Lemma monsterAttack_run T w g i t game monster target :
  games w !! g = Some game →
  Game.monsters game !! i = Some monster →
  Game.players game !! t = Some target →
  let roll := rollDie_of 20 (draws w (drawn w)) in
  monsterAttack T g i t w =
  if default 10 (Player.character target ≫= Character.ac) <=? roll then
    let '(r, w1) := monster_damage_roll T (Monster.type monster) (advance 1 w) in
    match r with
    | Ok damage =>
        let c := wound damage (Player.character target) in
        (Ok {| AttackResult.attacker := Monster.type monster;
               AttackResult.target := Player.name target;
               AttackResult.roll := roll;
               AttackResult.hit := true;
               AttackResult.damage := damage;
               AttackResult.targetRemainingHp := Some (Character.hp c) |},
         set_games
           (<[g := Game.set_players
                     (<[t := Player.set_character (Some c) target]>
                        (Game.players game)) game]> (games w)) w1)
    | Throw e => (Throw e, w1)
    end
  else
    (Ok {| AttackResult.attacker := Monster.type monster;
           AttackResult.target := Player.name target;
           AttackResult.roll := roll;
           AttackResult.hit := false;
           AttackResult.damage := 0;
           AttackResult.targetRemainingHp := Character.hp <$> Player.character target |},
     advance 1 w).
Proof.
  intros Hg Hm Ht. simpl. unfold monsterAttack, getGame.
  rewrite !bind_run. simpl. rewrite Hg, Hm, Ht.
  rewrite bind_run, rollDie_run.
  destruct (_ <=? _); [|done].
  rewrite bind_run. fold (monster_damage_roll T (Monster.type monster)).
  change {| games := games w; draws := draws w; drawn := S (drawn w); now := now w |}
    with (advance 1 w).
  destruct (monster_damage_roll_ok T (Monster.type monster) (advance 1 w))
    as (damage & n & ->).
  rewrite bind_run.
  by erewrite mutate_character_run by first [exact Hg|exact Ht].
Qed.





Lemma ret_run {A} (a : A) (w : world) : (mret a : M A) w = (Ok a, w).
Proof. reflexivity. Qed.

Lemma Date_now_run w : Date_now w = (Ok (now w), w).
Proof. reflexivity. Qed.

Lemma Math_random_run w : Math_random w = (Ok (draws w (drawn w)), advance 1 w).
Proof. reflexivity. Qed.

Lemma appendLog_run id message w :
  let game := default (new_game id) (games w !! id) in
  appendLog id message w =
  (Ok tt,
   set_games (<[id := Game.set_log (Game.log game ++ [message]) game]> (games w)) w).
Proof.
  simpl. destruct (games w !! id) as [game|] eqn:Hid.
  - by rewrite (appendLog_old _ _ _ _ Hid).
  - by rewrite (appendLog_new _ _ _ Hid).
Qed.



Lemma rollFromNotation_ok notation w :
  ∃ amount n, rollFromNotation notation w = (Ok amount, advance n w).
Proof.
  unfold rollFromNotation. destruct (regex_match true notation) as [m|].
  - unfold roll_match.
    match goal with |- context [roll_loop ?n ?s ?b w] =>
      destruct (roll_loop_ok n s b w) as (r & Hr) end.
    by eexists _, _.
  - exists 0, 0%nat. by destruct w.
Qed.

(** X15.  A spell with a healing effect cast on a player of the game
    heals, whether or not it also has a damage effect: [castSpell]
    rolls the heal notation, adds the amount to the target's hit
    points, missing or zero hit points counting as 0 and a missing
    Character being created, leaves the target's status as it was,
    reports the amount and logs its message.  Cast on a monster of the
    game, the same spell rolls the notation and then fails, the
    registry being unchanged. *)
Theorem castSpell_heal T g c s t spell heal game caster w :
  findSpellByName T s = Some spell →
  str_or (Spell.eff spell ≫= Spell.heal) "" = heal → heal ≠ "" →
  games w !! g = Some game →
  Game.players game !! c = Some caster →
  ∃ amount n,
    rollFromNotation heal w = (Ok amount, advance n w)
    ∧ (∀ target, Game.players game !! t = Some target →
         let old := default (Character.set_hp (Number 0) Character.empty)
                      (Player.character target) in
         let c' := Character.set_hp (js_or0_add (Character.hp old) amount) old in
         let message := Player.name caster +:+ " casts " +:+ Spell.name spell
                        +:+ " on " +:+ Player.name target +:+ ", healing "
                        +:+ pretty amount +:+ " HP." in
         castSpell T g c s "player" t w =
         (Ok {| SpellResult.message := message;
                SpellResult.result :=
                  SpellResult.Healed (Player.name caster) (Player.name target) amount |},
          set_games
            (<[g := Game.set_log (Game.log game ++ [message])
                      (Game.set_players
                         (<[t := Player.set_character (Some c') target]>
                            (Game.players game)) game)]> (games w))
            (advance n w))
         ∧ Character.status c' = Player.character target ≫= Character.status)
    ∧ (∀ monster, Game.monsters game !! t = Some monster →
         castSpell T g c s "monster" t w =
         (Throw (Error "Healing spells can only target players"), advance n w)).
Proof.
  intros Hspell Hheal Hne Hg Hc.
  destruct (rollFromNotation_ok heal w) as (amount & n & Hroll).
  exists amount, n. split; [exact Hroll|]. split.
  - intros target Ht. cbv zeta. split; [|by destruct (Player.character target)].
    unfold castSpell. rewrite Hspell. unfold getGame. rewrite !bind_run. simpl.
    rewrite Hg, Hc, Ht. simpl.
    rewrite Hheal. rewrite decide_True by done.
    rewrite !bind_run, Hroll.
    erewrite bind_run, mutate_character_run by first [exact Hg|exact Ht].
    simpl. erewrite bind_run, appendLog_old by (simpl; apply lookup_insert_eq).
    simpl. by rewrite insert_insert_eq.
  - intros monster Hm.
    unfold castSpell. rewrite Hspell. unfold getGame. rewrite !bind_run. simpl.
    rewrite Hg, Hc, Hm. simpl. rewrite Hheal. rewrite decide_True by done.
    by rewrite !bind_run, Hroll.
Qed.

Lemma castSpell_heal_witness :
  ∃ amount n,
    rollFromNotation "1d6+1" (Sample.world_of Sample.registry (2 ^ 52))
    = (Ok amount, advance n (Sample.world_of Sample.registry (2 ^ 52)))
    ∧ ∃ res w',
        castSpell Sample.tables "g1" "p2" "cure light wounds" "player" "p2"
          (Sample.world_of Sample.registry (2 ^ 52)) = (Ok res, w')
        ∧ SpellResult.result res = SpellResult.Healed "Mira" "Mira" amount
        ∧ char_at (games w') "g1" "p2" ≫= hp_int = Some (8 + amount).
Proof.
  destruct (castSpell_heal Sample.tables "g1" "p2" "cure light wounds" "p2"
              {| Spell.name := "Cure Light Wounds";
                 Spell.eff := Some {| Spell.heal := Some "1d6+1";
                                      Spell.damage := None |} |}
              "1d6+1" Sample.game Sample.mira
              (Sample.world_of Sample.registry (2 ^ 52))
              eq_refl eq_refl ltac:(discriminate) eq_refl eq_refl)
    as (amount & n & Hroll & Hplayer & _).
  exists amount, n. split; [exact Hroll|].
  destruct (Hplayer Sample.mira eq_refl) as [Hrun _].
  eexists _, _. split; [exact Hrun|]. split; [reflexivity|].
  unfold char_at, player_at. cbn [games set_games].
  rewrite lookup_insert_eq. simpl. rewrite lookup_insert_eq. reflexivity.
Defined.

(** ** Dialogues *)

Lemma then_ret_value {A B} (m : M A) (b : B) w r :
  ((m ≫= λ _, mret b) w).1 = Ok r → r = b.
Proof.
  rewrite bind_run. destruct (m w) as [[a|e] w1]; simpl; [|done]. by intros [= <-].
Qed.

(** X16.  Dialogue navigation is read off the dialogue files alone.
    [startDialogue] never touches the world and its outcome does not
    depend on the game, the player or the state of the registry (it
    does not check that the game or the player exist).  When
    [chooseDialogueOption] succeeds, what it returns does not depend on
    them either: it is the end of the conversation, or a node of the
    same conversation with its text and the texts of its options. *)
Theorem dialogue_navigation T d c :
  (∀ g p w g' p' w',
     (startDialogue T g p d c w).2 = w
     ∧ (startDialogue T g p d c w).1 = (startDialogue T g' p' d c w').1)
  ∧ (∀ n k g p w r,
       (chooseDialogueOption T g p d c n k w).1 = Ok r →
       (∀ g' p' w' r',
          (chooseDialogueOption T g' p' d c n k w').1 = Ok r' → r' = r)
       ∧ (r = DialogueResult.End_
          ∨ ∃ file conv nodeId' next,
              dialogueFiles T !! d = Some file
              ∧ find_conversation file c = Some conv
              ∧ Dialogue.nodes conv !! nodeId' = Some next
              ∧ r = DialogueResult.Node d c nodeId' (Dialogue.node_text next)
                      (option_texts next))).
Proof.
  split.
  - intros g p w g' p' w'. unfold startDialogue.
    destruct (dialogueFiles T !! d) as [file|]; [|done].
    destruct (find_conversation file c) as [conv|]; [|done].
    by destruct (Dialogue.nodes conv !! Dialogue.start conv).
  - intros n k g p w r. unfold chooseDialogueOption.
    destruct (dialogueFiles T !! d) as [file|] eqn:Hfile; [|done].
    destruct (find_conversation file c) as [conv|] eqn:Hconv; [|done].
    destruct (Dialogue.nodes conv !! n) as [node|]; [|done].
    destruct (option_at _ k) as [opt|]; [|done].
    set (answer :=
           match Dialogue.next opt with
           | None | Some EmptyString => DialogueResult.End_
           | Some nextId =>
               match Dialogue.nodes conv !! nextId with
               | None => DialogueResult.End_
               | Some next =>
                   DialogueResult.Node d c nextId (Dialogue.node_text next)
                     (option_texts next)
               end
           end).
    assert (Hk : match Dialogue.next opt with
                 | None | Some EmptyString => mret DialogueResult.End_
                 | Some nextId =>
                     match Dialogue.nodes conv !! nextId with
                     | None => mret DialogueResult.End_
                     | Some next =>
                         mret (DialogueResult.Node d c nextId (Dialogue.node_text next)
                                 (option_texts next))
                     end
                 end = (mret answer : M DialogueResult.t)).
    { subst answer. destruct (Dialogue.next opt) as [[|a nextId]|]; try done.
      by destruct (Dialogue.nodes conv !! String a nextId). }
    rewrite Hk. intros Hr. apply then_ret_value in Hr as ->. split.
    + intros g' p' w' r' Hr'. by apply then_ret_value in Hr'.
    + subst answer. destruct (Dialogue.next opt) as [[|a nextId]|]; try by left.
      destruct (Dialogue.nodes conv !! String a nextId) as [next|] eqn:Hnext;
        [|by left].
      right. by exists file, conv, (String a nextId), next.
Qed.

Lemma grows_player gs gs' g p :
  grows gs gs' → is_Some (player_at gs g p) → is_Some (player_at gs' g p).
Proof.
  intros Hgrow [pl Hpl]. unfold player_at in *.
  destruct (gs !! g) as [game|] eqn:Hg; simpl in *; [|done].
  destruct (Hgrow g game Hg) as (game' & -> & _ & _ & Hplayers). simpl.
  destruct (Hplayers p pl Hpl) as (pl' & -> & _). by eexists.
Qed.

Lemma player_name_present g p w :
  is_Some (player_at (games w) g p) → ∃ name, player_name g p w = (Ok name, w).
Proof.
  intros [pl Hpl]. unfold player_name. rewrite bind_run, getPlayer_run, Hpl.
  by eexists.
Qed.

Lemma player_name_absent g p w :
  player_at (games w) g p = None →
  player_name g p w
  = (Throw (TypeError "Cannot read properties of null (reading 'name')"), w).
Proof. intros Hpl. unfold player_name. by rewrite bind_run, getPlayer_run, Hpl. Qed.

Lemma never_addItemToPlayer g p i : never_throws (addItemToPlayer g p i).
Proof. unfold addItemToPlayer. never_tac. Qed.

Lemma never_addExperience g p xp : never_throws (addExperience g p xp).
Proof.
  unfold addExperience.
  apply never_bind; [by intros w; eexists|]. intros gs.
  destruct (gs !! g) as [game|]; [|apply never_ret].
  destruct (Game.players game !! p) as [player|]; [|apply never_ret].
  destruct (Player.character player) as [c|]; [|apply never_ret].
  cbv zeta. destruct (Character.level c) as [l|].
  - destruct (level_loop _ _ _ _) as [[e' l'] log']. never_tac.
  - never_tac.
Qed.

Lemma award_items_present g p items w :
  is_Some (player_at (games w) g p) →
  ∃ w', award_items g p items w = (Ok tt, w') ∧ grows (games w) (games w').
Proof.
  revert w. induction items as [|item rest IH]; intros w Hpl; simpl.
  - exists w. split; [done|reflexivity].
  - rewrite bind_run.
    pose proof (addItemToPlayer_grows g p item w) as Hg1.
    destruct (never_addItemToPlayer g p item w) as (r1 & Hr1).
    destruct (addItemToPlayer g p item w) as [o1 w1]. simpl in *. subst o1.
    pose proof (grows_player _ _ g p Hg1 Hpl) as Hpl1.
    destruct (player_name_present g p w1 Hpl1) as (name & Hname).
    rewrite bind_run, Hname, bind_run.
    match goal with |- context [appendLog g ?msg w1] =>
      pose proof (appendLog_grows g msg w1) as Hg2;
      destruct (never_appendLog g msg w1) as ([] & Hok);
      destruct (appendLog g msg w1) as [o2 w2] end.
    simpl in *. subst o2.
    destruct (IH w2 (grows_player _ _ g p Hg2 Hpl1)) as (w3 & -> & Hg3).
    exists w3. split; [done|]. by do 2 (etransitivity; [eassumption|]).
Qed.

Lemma award_present g p reward w :
  is_Some (player_at (games w) g p) → ∃ w', award g p reward w = (Ok tt, w').
Proof.
  intros Hpl. unfold award. rewrite bind_run.
  match goal with |- ∃ w', match ?m w with _ => _ end = _ =>
    assert (Hxp : ∃ w1, m w = (Ok tt, w1) ∧ grows (games w) (games w1)) end.
  { destruct (decide _); [|by exists w]. cbv zeta. rewrite bind_run.
    pose proof (addExperience_grows g p (num_or (Dialogue.xp reward) 0) w) as Hg1.
    destruct (never_addExperience g p (num_or (Dialogue.xp reward) 0) w) as (r1 & Hr1).
    destruct (addExperience g p _ w) as [o1 w1]. simpl in *. subst o1.
    pose proof (grows_player _ _ g p Hg1 Hpl) as Hpl1.
    destruct (player_name_present g p w1 Hpl1) as (name & Hname).
    rewrite bind_run, Hname.
    match goal with |- context [appendLog g ?msg w1] =>
      pose proof (appendLog_grows g msg w1) as Hg2;
      destruct (never_appendLog g msg w1) as ([] & Hok);
      destruct (appendLog g msg w1) as [o2 w2] end.
    simpl in *. subst o2. exists w2. split; [done|]. by etransitivity. }
  destruct Hxp as (w1 & -> & Hg1).
  destruct (Dialogue.items reward) as [items|]; [|by exists w1].
  destruct (award_items_present g p items w1 (grows_player _ _ g p Hg1 Hpl))
    as (w2 & -> & _).
  by exists w2.
Qed.

Lemma addItemToPlayer_absent g p i w :
  is_Some (games w !! g) → player_at (games w) g p = None →
  addItemToPlayer g p i w = (Ok None, w).
Proof.
  intros [game Hg] Hpl. unfold addItemToPlayer.
  rewrite bind_run, (createGame_old _ _ _ Hg).
  unfold player_at in Hpl. rewrite Hg in Hpl. simpl in Hpl. by rewrite Hpl.
Qed.

Lemma addExperience_absent g p xp w :
  char_at (games w) g p = None → addExperience g p xp w = (Ok None, w).
Proof.
  intros Hc. unfold addExperience. rewrite bind_run. simpl.
  unfold char_at, player_at in Hc.
  destruct (games w !! g) as [game|]; simpl in *; [|done].
  destruct (Game.players game !! p) as [player|]; simpl in *; [|done].
  by rewrite Hc.
Qed.

Lemma award_absent g p reward w :
  is_Some (games w !! g) → player_at (games w) g p = None →
  (award g p reward w).2 = w.
Proof.
  intros Hg Hpl. unfold award. rewrite bind_run.
  destruct (decide _).
  - cbv zeta. rewrite bind_run, addExperience_absent
      by (unfold char_at; by rewrite Hpl).
    by rewrite bind_run, player_name_absent.
  - rewrite ret_run. destruct (Dialogue.items reward) as [[|item rest]|]; try done.
    simpl. rewrite bind_run, addItemToPlayer_absent by done.
    by rewrite bind_run, player_name_absent.
Qed.

Lemma chooseDialogueOption_atomic_known_game T g p d c n k w e :
  is_Some (games w !! g) →
  (chooseDialogueOption T g p d c n k w).1 = Throw e →
  games (chooseDialogueOption T g p d c n k w).2 = games w.
Proof.
  intros Hg. unfold chooseDialogueOption.
  destruct (dialogueFiles T !! d) as [file|]; [|done].
  destruct (find_conversation file c) as [conv|]; [|done].
  destruct (Dialogue.nodes conv !! n) as [node|]; [|done].
  destruct (option_at _ k) as [opt|]; [|done].
  set (rest := match Dialogue.next opt with None => _ | Some _ => _ end).
  assert (Hrest : ∃ r, rest = mret r).
  { subst rest. destruct (Dialogue.next opt) as [[|a nextId]|]; try by eexists.
    destruct (Dialogue.nodes conv !! String a nextId); by eexists. }
  destruct Hrest as (r & ->). rewrite bind_run.
  destruct (Dialogue.rew opt) as [reward|]; [|done].
  destruct (player_at (games w) g p) as [pl|] eqn:Hpl.
  - destruct (award_present g p reward w) as (w' & ->); [by eexists|]. done.
  - pose proof (award_absent g p reward w Hg Hpl) as Hw.
    destruct (award g p reward w) as [[[]|e'] w']; simpl in *; by subst.
Qed.

Lemma never_joinGame g p n : never_throws (joinGame g p n).
Proof. intros w. rewrite joinGame_run. by eexists. Qed.

(** X17.  Which operations leave the registry as it was when they
    fail.  [attack], [attackMonster], [monsterAttack], [castSpell],
    [spawnMonster], [startDialogue], [selectCampaign] and
    [handleAction] always do; [useItem] does for every item identifier
    but the empty string; [giveItem] and [chooseDialogueOption] do when
    the game is registered.  [joinGame] never fails. *)
Theorem failures_leave_registry T :
  (∀ g a t, atomic (attack g a t))
  ∧ (∀ g a i, atomic (attackMonster g a i))
  ∧ (∀ g i t, atomic (monsterAttack T g i t))
  ∧ (∀ g c s ty t, atomic (castSpell T g c s ty t))
  ∧ (∀ g ty, atomic (spawnMonster T g ty))
  ∧ (∀ g p d c, atomic (startDialogue T g p d c))
  ∧ (∀ g c, atomic (selectCampaign T g c))
  ∧ (∀ g p a, atomic (handleAction T g p a))
  ∧ (∀ g p i, i ≠ "" → atomic (useItem T g p i))
  ∧ (∀ g p i w e,
       is_Some (games w !! g) → (giveItem T g p i w).1 = Throw e →
       games (giveItem T g p i w).2 = games w)
  ∧ (∀ g p d c n k w e,
       is_Some (games w !! g) →
       (chooseDialogueOption T g p d c n k w).1 = Throw e →
       games (chooseDialogueOption T g p d c n k w).2 = games w)
  ∧ (∀ g p n, never_throws (joinGame g p n)).
Proof.
  repeat split.
  - apply attack_atomic.
  - apply attackMonster_atomic.
  - apply monsterAttack_atomic.
  - apply castSpell_atomic.
  - apply spawnMonster_atomic.
  - apply startDialogue_atomic.
  - apply selectCampaign_atomic.
  - apply handleAction_atomic.
  - intros g p i. apply useItem_atomic.
  - intros g p i w e. apply giveItem_atomic_known_game.
  - intros g p d c n k w e. apply chooseDialogueOption_atomic_known_game.
  - apply never_joinGame.
Qed.

(** X18.  [addExperience] returns [null] and changes nothing when the
    game, the player or the player's Character is missing.  For a
    Character without a level it adds the reward to the experience,
    a missing experience counting as 0, and never levels up: the level
    stays missing and the log is untouched. *)
Theorem addExperience_edge_cases g p xp w :
  (char_at (games w) g p = None → addExperience g p xp w = (Ok None, w))
  ∧ (∀ game player c,
       games w !! g = Some game →
       Game.players game !! p = Some player →
       Player.character player = Some c →
       Character.level c = None →
       let c' := Character.set_experience
                   (Some (num_or (Character.experience c) 0 + xp)) c in
       let player' := Player.set_character (Some c') player in
       addExperience g p xp w =
       (Ok (Some player'),
        set_games
          (<[g := Game.set_players (<[p := player']> (Game.players game)) game]>
             (games w)) w)).
Proof.
  split; [apply addExperience_absent|].
  intros game player c Hg Hp Hc Hl. cbv zeta.
  unfold addExperience. rewrite bind_run. simpl. rewrite Hg, Hp, Hc, Hl.
  rewrite bind_run, (mutate_character_run _ _ _ _ _ _ Hg Hp).
  rewrite bind_run, modify_game_run. simpl. rewrite Hc. simpl.
  rewrite (alter_Some _ _ _ _ (lookup_insert_eq _ _ _)), insert_insert_eq.
  rewrite ret_run, set_games_twice.
  assert (Character.set_level None
            (Character.set_experience
               (Some (num_or (Character.experience c) 0 + xp)) c)
          = Character.set_experience
              (Some (num_or (Character.experience c) 0 + xp)) c) as ->; [|done].
  destruct c. simpl in *. by subst.
Qed.

(** X19.  [joinGame] never fails.  It creates the game when there is
    none, adds the player when there is none under that identifier, and
    appends to the game's log the line [<playerName> joined the game.]
    with the name it was called with, also when the player is already
    there under another name; it changes no monster and no other
    player. *)
Theorem joinGame_effect g p playerName w :
  let game := default (new_game g) (games w !! g) in
  ∃ player game',
    joinGame g p playerName w = (Ok player, set_games (<[g := game']> (games w)) w)
    ∧ Game.players game' !! p = Some player
    ∧ (∀ stored, Game.players game !! p = Some stored → player = stored)
    ∧ (Game.players game !! p = None →
       player = {| Player.id := p; Player.name := playerName;
                   Player.character := None |})
    ∧ (∀ q, q ≠ p → Game.players game' !! q = Game.players game !! q)
    ∧ Game.log game' = Game.log game ++ [playerName +:+ " joined the game."]
    ∧ Game.monsters game' = Game.monsters game
    ∧ Game.campaign game' = Game.campaign game
    ∧ Game.id game' = Game.id game.
Proof.
  cbv zeta. rewrite joinGame_run. cbv zeta.
  eexists _, _. split; [reflexivity|]. simpl.
  split; [apply lookup_insert_eq|].
  split; [by intros stored ->|]. split; [by intros ->|].
  split; [|done]. intros q Hq. by rewrite lookup_insert_ne.
Qed.

(** ** Experience adds up *)

(** More experience at the start is more experience at the end of the
    loop, run again. *)
Lemma level_loop_more name e l log y e' l' log' :
  0 ≤ y →
  level_loop name e l log = (e', l', log') →
  level_loop name (e + y) l log = level_loop name (e' + y) l' log'.
Proof.
  intros Hy. funelim (level_loop name e l log); intros Hres.
  - match goal with IH : ∀ _ _ _ _, _ → _ → _ |- _ =>
      rewrite <- (IH y _ _ _ Hy Hres) end.
    rewrite (level_loop_eq name (e + y) l log). unfold loop_guard.
    rewrite bool_decide_eq_true_2 by lia. f_equal. lia.
  - by inversion Hres; subst.
Qed.

Lemma addExperience_run g p xp game player c e' l' log' w :
  games w !! g = Some game →
  Game.players game !! p = Some player →
  Player.character player = Some c →
  match Character.level c with
  | Some l =>
      let '(e', l', log') :=
        level_loop (Player.name player) (num_or (Character.experience c) 0 + xp) l
          (Game.log game) in
      (e', Some l', log')
  | None => (num_or (Character.experience c) 0 + xp, None, Game.log game)
  end = (e', l', log') →
  let player' :=
    Player.set_character
      (Some (Character.set_level l' (Character.set_experience (Some e') c))) player in
  addExperience g p xp w =
  (Ok (Some player'),
   set_games
     (<[g := Game.set_log log'
               (Game.set_players (<[p := player']> (Game.players game)) game)]>
        (games w)) w).
Proof.
  intros Hg Hp Hc Hloop. cbv zeta.
  unfold addExperience. rewrite bind_run. simpl. rewrite Hg, Hp, Hc.
  cbv zeta. rewrite Hloop.
  rewrite bind_run, (mutate_character_run _ _ _ _ _ _ Hg Hp).
  rewrite bind_run, modify_game_run. simpl. rewrite Hc. simpl.
  by rewrite (alter_Some _ _ _ _ (lookup_insert_eq _ _ _)), insert_insert_eq.
Qed.




